(** * pakman: a shallow embedding of the package manager and its repositories

    The development follows the packages of the Go sources:
    - [pak]    : pkg/pak, the data model, the repository interfaces and the
                 manager
    - [memory] : pkg/repository/memory
    - [yaml]   : pkg/pak/yaml
    - [fs]     : pkg/repository/fs, over [filepath], [os] and [io]
    - [http]   : pkg/repository/http
    - [cmd]    : cmd/pakman (list, sortedKeys, search)

    Go strings and byte slices are byte sequences and are modelled by
    [string]; Go maps are finite maps ([gmap]); a method with a pointer
    receiver is a state transformer on the receiver together with the part of
    the outside world it talks to. *)

From Stdlib Require Import ZArith Ascii String.
From stdpp Require Import gmap strings list sorting.

Set Warnings "-clear-no-such-hyp".
Local Open Scope Z_scope.

(** ** Go values shared by all packages *)

(** [[]byte] and the contents read from an [io.Reader]. *)
Abbreviation bytes := string.

(** Go [error] values.  [Errorf format args wrapped] is the value built by
    [fmt.Errorf(format, args..., wrapped)]: the format string is kept as it is
    written in the source, [args] are the string operands, and [wrapped] is the
    operand of the [%w] verb.  [Errorf_plain] is a format without [%w]. *)
Inductive error : Type :=
  | ErrInvalidInstallSpec
  | ErrSpecNotFound
  | ManifestNotFoundError (Version : string)
  | ErrNotExist
  | PathError (Op Path : string) (Err : error)
  | ExternalError (pkg : string)
  | Errorf (format : string) (args : list string) (wrapped : error)
  | Errorf_plain (format : string) (args : list string).

(** [errors.Is(err, target)] for the sentinel targets used by the sources:
    follow the chain of wrapped errors. *)
Fixpoint errors_Is_ErrNotExist (err : error) : bool :=
  match err with
  | ErrNotExist => true
  | PathError _ _ e => errors_Is_ErrNotExist e
  | Errorf _ _ e => errors_Is_ErrNotExist e
  | _ => false
  end.

(** The result of a Go call returning [(T, error)]. *)
Inductive result (A : Type) : Type :=
  | Ok (a : A)
  | Err (e : error).
Arguments Ok {A} a.
Arguments Err {A} e.

(** ** io

    An [io.Reader] as [io.Copy] and a decoder use it, by reading it to its
    end: the bytes it yields, and the error, if any, that ends the reading in
    place of [io.EOF]. *)
Module io.

Record Reader : Type := mkReader {
  content : bytes;
  failure : option error
}.

End io.

(** [bytes.NewReader(b)] (under [io.NopCloser]): reading it cannot fail. *)
Definition bytes_NewReader (b : bytes) : io.Reader :=
  {| io.content := b; io.failure := None |}.

(** The result of running a function body: a normal return, a returned
    error, or a run-time panic (nil dereference). *)
Inductive outcome (A : Type) : Type :=
  | Returned (a : A)
  | Failed (e : error)
  | Panicked (msg : string).
Arguments Returned {A} a.
Arguments Failed {A} e.
Arguments Panicked {A} msg.

Definition nil_dereference : string :=
  "invalid memory address or nil pointer dereference".

(** ** pkg/pak *)
Module pak.

(** [pak.Time] wraps [time.Time]; an instant is an integer number of
    clock ticks. *)
Abbreviation Time := Z.

Record Spec : Type := mkSpec {
  Spec_ID : string;
  Spec_Name : string;
  Description : string;
  CurrentVersion : string;
  Updated : Time;
  Versions : list string
}.

Record UpgradableSpec : Type := mkUpgradableSpec {
  Spec_of : Spec;
  LatestVersion : string;
  LastUpdated : Time
}.

Abbreviation SpecIndex := (gmap string Spec).

Record Manifest : Type := mkManifest {
  ID : string;
  Name : string;
  Version : string;
  Date : Time;
  Files : list string
}.

Record InstallSpec : Type := mkInstallSpec {
  IS_ID : string;
  IS_Version : string
}.

#[export] Instance Spec_eq_dec : EqDecision Spec.
Proof. solve_decision. Defined.
#[export] Instance Manifest_eq_dec : EqDecision Manifest.
Proof. solve_decision. Defined.
#[export] Instance InstallSpec_eq_dec : EqDecision InstallSpec.
Proof. solve_decision. Defined.
#[export] Instance InstallSpec_countable : Countable InstallSpec.
Proof.
  refine (inj_countable' (fun s => (IS_ID s, IS_Version s))
                         (fun p => mkInstallSpec p.1 p.2) _).
  by intros [].
Defined.

(** *** repository.go: the capability interfaces

    A repository method receives the repository (the receiver and the
    world behind it, of type [R]) and returns its Go result with the
    repository after the call. *)

Class SourceRepository (R : Type) : Type := {
  GetManifest : string -> string -> R -> result (option Manifest) * R;
  GetSpec : string -> R -> result (option Spec) * R;
  List : R -> result SpecIndex * R;
  (** a nil [io.ReadCloser] with a nil error is [Ok None] *)
  GetFile : string -> string -> string -> R -> result (option io.Reader) * R
}.

Class WritableRepository (L : Type) : Type := {
  GetInstalledManifest : string -> L -> result (option Manifest) * L;
  ListInstalled : L -> result (list Manifest) * L;
  Write : string -> string -> string -> io.Reader -> L -> result unit * L;
  WriteManifest : Manifest -> L -> result unit * L;
  Delete : string -> L -> result unit * L
}.

(** *** The manager *)

(** A call made by the manager on one of its two repositories, in the
    order the calls are issued. *)
Inductive call : Type :=
  | CallGetInstalledManifest (id : string)
  | CallListInstalled
  | CallWrite (id version file : string) (data : io.Reader)
  | CallWriteManifest (manifest : Manifest)
  | CallDelete (id : string)
  | CallGetManifest (id version : string)
  | CallGetSpec (id : string)
  | CallList
  | CallGetFile (id version file : string).

(** A line handed to the [Logger]: the method, the format and its
    operands. *)
Inductive logline : Type :=
  | Debugf (format : string) (args : list string)
  | Infof (format : string) (args : list string).

(** The state a [Manager] acts on: its local and remote repositories, the
    calls issued to them so far and the lines sent to the logger. *)
Record world (L R : Type) : Type := mkWorld {
  local : L;
  remote : R;
  calls : list call;
  logged : list logline
}.
Arguments mkWorld {L R}.
Arguments local {L R}.
Arguments remote {L R}.
Arguments calls {L R}.
Arguments logged {L R}.

Section manager.
Context {L R : Type} `{!WritableRepository L} `{!SourceRepository R}.

(** Manager methods: state transformers with three kinds of exit. *)
Definition M (A : Type) : Type := world L R -> outcome A * world L R.

Definition ret {A} (a : A) : M A := fun w => (Returned a, w).

Definition bind {A B} (c : M A) (k : A -> M B) : M B :=
  fun w =>
    match c w with
    | (Returned a, w') => k a w'
    | (Failed e, w') => (Failed e, w')
    | (Panicked msg, w') => (Panicked msg, w')
    end.

Definition fail {A} (e : error) : M A := fun w => (Failed e, w).
Definition panic {A} (msg : string) : M A := fun w => (Panicked msg, w).

(** [if err != nil { return fmt.Errorf(format, args..., err) }] *)
Definition wrapping {A} (format : string) (args : list string) (c : M A)
  : M A :=
  fun w =>
    match c w with
    | (Failed e, w') => (Failed (Errorf format args e), w')
    | r => r
    end.

Definition log (l : logline) : M unit :=
  fun w => (Returned tt,
            mkWorld (local w) (remote w) (calls w) (logged w ++ [l])).

(** A call on [m.local]: record it, run it, keep the new repository. *)
Definition on_local {A} (c : call) (f : L -> result A * L) : M A :=
  fun w =>
    let '(r, l') := f (local w) in
    let w' := mkWorld l' (remote w) (calls w ++ [c]) (logged w) in
    match r with
    | Ok a => (Returned a, w')
    | Err e => (Failed e, w')
    end.

(** A call on [m.remote]. *)
Definition on_remote {A} (c : call) (f : R -> result A * R) : M A :=
  fun w =>
    let '(r, r') := f (remote w) in
    let w' := mkWorld (local w) r' (calls w ++ [c]) (logged w) in
    match r with
    | Ok a => (Returned a, w')
    | Err e => (Failed e, w')
    end.

(** [for _, x := range xs { if err := body(x); err != nil { return ... } }] *)
Fixpoint for_range {A} (xs : list A) (body : A -> M unit) : M unit :=
  match xs with
  | [] => ret tt
  | x :: xs' => bind (body x) (fun _ => for_range xs' body)
  end.

#[global] Instance M_ret : MRet M := @ret.
#[global] Instance M_bind : MBind M := fun A B k c => bind c k.

Definition downloadFile (id version file : string) : M unit :=
  rc ← wrapping "getting remote pak file: %w" []
         (on_remote (CallGetFile id version file) (GetFile id version file));
  match rc with
  | None =>
      (* [defer rc.Close()] on a nil interface value *)
      panic nil_dereference
  | Some data =>
      wrapping "writing local pak file: %w" []
        (on_local (CallWrite id version file data) (Write id version file data))
  end.

Definition uninstall (id : string) : M unit :=
  wrapping "deleting local pak: %w" []
    (on_local (CallDelete id) (Delete id)).

(** The body of [install] once the version is resolved: [version] is
    [toInstall.Version] at that point and [existing] the installed manifest. *)
Definition install_version (id version : string) (existing : option Manifest)
  (upgrade : bool) : M unit :=
  let proceed : M unit :=
    (if upgrade then
       match existing with
       | None => panic nil_dereference (* [existing.Version] *)
       | Some e =>
           log (Infof "Upgrading %s from %s to %s" [id; Version e; version])
       end
     else mret tt);;
    (* get pak manifest for latest version/selected version *)
    manifest ← wrapping "getting remote pak manifest: %w" []
      (on_remote (CallGetManifest id version) (GetManifest id version));
    match manifest with
    | None => fail (ManifestNotFoundError version)
    | Some manifest =>
        (* uninstall the existing version *)
        (if existing is Some _
         then wrapping "uninstalling existing version: %w" [] (uninstall id)
         else mret tt);;
        (* download pak files sending to store *)
        for_range (Files manifest) (fun file =>
          wrapping "downloading file %q: %w" [file]
            (downloadFile id version file));;
        wrapping "writing local pak manifest: %w" []
          (on_local (CallWriteManifest manifest) (WriteManifest manifest))
    end in
  match existing with
  | Some e =>
      (* check if version is already installed *)
      if decide (Version e = version) then
        log (Debugf "pak %s@%s already installed" [id; version])
      else proceed
  | None => proceed
  end.

Definition install (toInstall : InstallSpec) (upgrade : bool) : M unit :=
  if decide (IS_ID toInstall = "") then fail ErrInvalidInstallSpec else
  (* check if pak already installed *)
  existing ← wrapping "getting local pak spec: %w" []
    (on_local (CallGetInstalledManifest (IS_ID toInstall))
              (GetInstalledManifest (IS_ID toInstall)));
  version ←
    (if decide (IS_Version toInstall = "") then
       spec ← wrapping "getting spec: %w" []
         (on_remote (CallGetSpec (IS_ID toInstall)) (GetSpec (IS_ID toInstall)));
       match spec with
       | None => fail ErrSpecNotFound
       | Some spec => mret (CurrentVersion spec)
       end
     else mret (IS_Version toInstall));
  install_version (IS_ID toInstall) version existing upgrade.

(** Install installs the given paks. *)
Definition Install (specs : list InstallSpec) : M unit :=
  let upgrade := false in
  for_range specs (fun spec =>
    log (Infof "Installing %s@%s" [IS_ID spec; IS_Version spec]);;
    wrapping "installing pak %s@%s: %w" [IS_ID spec; IS_Version spec]
      (install spec upgrade)).

(** Uninstall uninstalls the given paks. *)
Definition Uninstall (ids : list string) : M unit :=
  for_range ids (fun id =>
    log (Infof "Uninstalling %s" [id]);;
    wrapping "uninstalling pak %s: %w" [id] (uninstall id)).

(** Upgrade upgrades the given paks to the version specified in the spec.
    If no specs are given then all paks are upgraded to the latest version. *)
Definition Upgrade (specs : list InstallSpec) : M unit :=
  specs ←
    (if decide (length specs = 0%nat) then
       (* get all installed paks *)
       installed ← wrapping "listing local paks: %w" []
         (on_local CallListInstalled ListInstalled);
       mret (specs ++ map (fun pak => mkInstallSpec (ID pak) "") installed)
     else mret specs);
  let upgrade := true in
  for_range specs (fun spec =>
    wrapping "upgrading pak %s: %w" [IS_ID spec] (install spec upgrade)).

(** One iteration of the loop of [Upgradable]: the entry appended for an
    installed pak, if any. *)
Definition upgradable_entry (pak : Manifest) (spec : Spec)
  : option UpgradableSpec :=
  if decide (CurrentVersion spec ≠ Version pak) then
    Some {| Spec_of := {| Spec_ID := ID pak;
                          Spec_Name := "";
                          Description := Description spec;
                          (* get the version and date from the installed pak *)
                          CurrentVersion := Version pak;
                          Updated := Date pak;
                          Versions := [] |};
            LatestVersion := CurrentVersion spec;
            LastUpdated := Updated spec |}
  else None.

Fixpoint Upgradable_loop (installed : list Manifest)
  (upgradable : list UpgradableSpec) : M (list UpgradableSpec) :=
  match installed with
  | [] => mret upgradable
  | pak :: rest =>
      spec ← wrapping "getting latest version: %w" []
        (on_remote (CallGetSpec (ID pak)) (GetSpec (ID pak)));
      match spec with
      | None => panic nil_dereference (* [spec.CurrentVersion] *)
      | Some spec =>
          Upgradable_loop rest
            (match upgradable_entry pak spec with
             | Some u => upgradable ++ [u]
             | None => upgradable
             end)
      end
  end.

(** Upgradable returns a list of paks that can be upgraded. *)
Definition Upgradable : M (list UpgradableSpec) :=
  (* get all installed paks *)
  installed ← wrapping "listing local paks: %w" []
    (on_local CallListInstalled ListInstalled);
  Upgradable_loop installed [].

(** List lists all paks in the remote repository. *)
Definition Manager_List : M SpecIndex :=
  wrapping "listing remote paks: %w" [] (on_remote CallList List).

(** ListInstalled lists all installed paks in the local repository. *)
Definition Manager_ListInstalled : M (list Manifest) :=
  wrapping "listing local paks: %w" [] (on_local CallListInstalled ListInstalled).

End manager.

Arguments M : clear implicits.

End pak.

(** ** pkg/repository/memory *)
Module memory.
Import pak.

Record FileSpec : Type := mkFileSpec {
  FS_InstallSpec : InstallSpec;
  File : string
}.

#[export] Instance FileSpec_eq_dec : EqDecision FileSpec.
Proof. solve_decision. Defined.
#[export] Instance FileSpec_countable : Countable FileSpec.
Proof.
  refine (inj_countable' (fun s => (FS_InstallSpec s, File s))
                         (fun p => mkFileSpec p.1 p.2) _).
  by intros [].
Defined.

Record Repository : Type := mkRepository {
  Index : SpecIndex;
  Manifests : gmap InstallSpec Manifest;
  Files : gmap FileSpec bytes
}.

Definition New : Repository :=
  {| Index := ∅; Manifests := ∅; Files := ∅ |}.

Definition GetSpec (id : string) (r : Repository)
  : result (option Spec) * Repository :=
  match Index r !! id with
  | None => (Ok None, r)
  | Some s => (Ok (Some s), r)
  end.

Definition List (r : Repository) : result SpecIndex * Repository :=
  (Ok (Index r), r).

Definition GetManifest (id version : string) (r : Repository)
  : result (option Manifest) * Repository :=
  match Manifests r !! mkInstallSpec id version with
  | None => (Ok None, r)
  | Some s => (Ok (Some s), r)
  end.

Definition GetFile (id version file : string) (r : Repository)
  : result (option io.Reader) * Repository :=
  match Files r !! mkFileSpec (mkInstallSpec id version) file with
  | None => (Ok None, r)
  | Some s => (Ok (Some (bytes_NewReader s)), r)
  end.

(** [io.Copy(&buf, data)] into a [bytes.Buffer] fails when the reader does. *)
Definition Write (id version file : string) (data : io.Reader) (r : Repository)
  : result unit * Repository :=
  match io.failure data with
  | Some err => (Err err, r)
  | None =>
      (Ok tt,
       {| Index := Index r;
          Manifests := Manifests r;
          Files := <[mkFileSpec (mkInstallSpec id version) file
                     := io.content data]> (Files r) |})
  end.

Definition Delete (id : string) (r : Repository) : result unit * Repository :=
  (Ok tt,
   {| Index := delete id (Index r);
      Manifests := filter (fun kv => IS_ID kv.1 ≠ id) (Manifests r);
      Files := filter (fun kv => IS_ID (FS_InstallSpec kv.1) ≠ id) (Files r) |}).

#[global] Instance source : SourceRepository Repository := {|
  pak.GetManifest := GetManifest;
  pak.GetSpec := GetSpec;
  pak.List := List;
  pak.GetFile := GetFile
|}.

End memory.

(** ** pkg/pak/yaml

    The YAML encoder and decoder ([gopkg.in/yaml.v3]) are outside the
    repository: they are a parameter of the development.  [decode_*] is
    [None] where [Decode] returns an error. *)
Module yaml.
Import pak.

Class Codec : Type := {
  encode_Manifest : Manifest -> bytes;
  decode_Manifest : bytes -> option Manifest;
  decode_SpecIndex : bytes -> option SpecIndex
}.

Section yaml.
Context `{!Codec}.

Definition decode_error : error :=
  Errorf "failed to decode yaml: %w" [] (ExternalError "yaml").

(** ReadManifest reads a manifest from the given reader parsing it as yaml. *)
Definition ReadManifest (f : bytes) : result Manifest :=
  match decode_Manifest f with
  | Some manifest => Ok manifest
  | None => Err decode_error
  end.

(** WriteManifest: the bytes sent to the writer. *)
Definition WriteManifest (manifest : Manifest) : bytes :=
  encode_Manifest manifest.

(** The error of [writeYaml] when the writer fails with [err]. *)
Definition encode_error (err : error) : error :=
  Errorf "failed to encode yaml: %w" [] err.

(** ReadSpecIndex reads a spec index from the given reader parsing it as yaml. *)
Definition ReadSpecIndex (f : bytes) : result SpecIndex :=
  match decode_SpecIndex f with
  | Some index => Ok index
  | None => Err decode_error
  end.

End yaml.
End yaml.

(** ** path/filepath (slash-separated paths) *)
Module filepath.

Definition Separator : ascii := "/"%char.

(** The elements of a path between separators. *)
Fixpoint split_elems (path : string) : list string :=
  match path with
  | EmptyString => [EmptyString]
  | String c rest =>
      if Ascii.eqb c Separator then EmptyString :: split_elems rest
      else match split_elems rest with
           | [] => [String c EmptyString]
           | e :: es => String c e :: es
           end
  end.

Fixpoint join_elems (elems : list string) : string :=
  match elems with
  | [] => ""
  | [e] => e
  | e :: es => e +:+ "/" +:+ join_elems es
  end.

(** The loop of [Clean]: [out] holds the elements written so far, last
    first.  An empty element and [.] are dropped; [..] removes the last
    element written when there is one to backtrack over, is kept in a
    relative path otherwise, and is dropped at the root. *)
Fixpoint clean_loop (rooted : bool) (elems out : list string) : list string :=
  match elems with
  | [] => rev out
  | e :: es =>
      if decide (e = "") then clean_loop rooted es out
      else if decide (e = ".") then clean_loop rooted es out
      else if decide (e = "..") then
        match out with
        | top :: out' =>
            if decide (top = "..") then clean_loop rooted es (e :: out)
            else clean_loop rooted es out'
        | [] => if rooted then clean_loop rooted es out
                else clean_loop rooted es (e :: out)
        end
      else clean_loop rooted es (e :: out)
  end.

Definition is_rooted (path : string) : bool :=
  match path with
  | String c _ => Ascii.eqb c Separator
  | EmptyString => false
  end.

Definition Clean (path : string) : string :=
  if decide (path = "") then "."
  else
    let rooted := is_rooted path in
    let out := join_elems (clean_loop rooted (split_elems path) []) in
    if rooted then "/" +:+ out
    else if decide (out = "") then "." else out.

(** [Join]: leading empty elements are skipped, the rest is joined with the
    separator and cleaned; no non-empty element gives the empty path. *)
Fixpoint Join (elem : list string) : string :=
  match elem with
  | [] => ""
  | e :: es => if decide (e = "") then Join es else Clean (join_elems elem)
  end.

(** The last element of a path ([FileInfo.Name] of a walked file). *)
Definition Base (path : string) : string :=
  default "" (last (split_elems path)).

(** [Dir]: the path up to and including its last separator, cleaned. *)
Definition Dir (path : string) : string :=
  match removelast (split_elems path) with
  | [] => Clean ""
  | init => Clean (join_elems (init ++ [""]))
  end.

End filepath.

(** ** The file system behind [os]

    A file system is the finite map from the paths of its regular files to
    their contents; the paths are the cleaned paths that [filepath.Join]
    builds.  Directories are implicit: a directory is there when a file
    lies below it, and [os.MkdirAll] and the removal of an empty directory
    leave the map as it is.  The tree is taken to be well formed and
    readable: the paths that are opened or removed are paths of regular
    files or of nothing, with directories on the way, so that a path that
    holds no regular file does not exist ([os.ErrNotExist]), and a file
    that is there opens and removes.

    Whether the file system lets a directory or a file be created, and
    whether a write to a created file goes through (permissions, quota, a
    full disk), is not a matter of the map: it is the parameter [Faults] of
    the development. *)
Module os.

Abbreviation disk := (gmap string bytes).

Class Faults : Type := {
  (** the error of [os.MkdirAll] of the directory, if it fails *)
  MkdirAll_fault : string -> disk -> option error;
  (** the error of [os.Create] of the path, if it fails *)
  Create_fault : string -> disk -> option error;
  (** when writing the bytes to the file created at the path breaks off:
      the bytes that reached the file, and the error *)
  Write_fault : string -> bytes -> disk -> option (bytes * error)
}.

Definition Open (path : string) (d : disk) : result bytes :=
  match d !! path with
  | Some f => Ok f
  | None => Err (PathError "open" path ErrNotExist)
  end.

Definition MkdirAll `{!Faults} (path : string) (d : disk) : result unit :=
  match MkdirAll_fault path d with
  | Some err => Err err
  | None => Ok tt
  end.

(** [os.Create]: the file is created, or truncated if it is there. *)
Definition Create `{!Faults} (path : string) (d : disk) : result unit * disk :=
  match Create_fault path d with
  | Some err => (Err err, d)
  | None => (Ok tt, <[path := ""]> d)
  end.

(** Writing [data] to the file just created at [path]. *)
Definition File_Write `{!Faults} (path : string) (data : bytes) (d : disk)
  : result unit * disk :=
  match Write_fault path data d with
  | Some (written, err) => (Err err, <[path := written]> d)
  | None => (Ok tt, <[path := data]> d)
  end.

(** [io.Copy(f, data)] to the file just created at [path]: what the reader
    yields is written; a failed write ends the copy, and so does the failure
    of the reader, after what it yielded was written. *)
Definition Copy `{!Faults} (path : string) (data : io.Reader) (d : disk)
  : result unit * disk :=
  match File_Write path (io.content data) d with
  | (Err err, d') => (Err err, d')
  | (Ok _, d') =>
      match io.failure data with
      | Some err => (Err err, d')
      | None => (Ok tt, d')
      end
  end.

Definition Remove (path : string) (d : disk) : result unit * disk :=
  match d !! path with
  | Some _ => (Ok tt, delete path d)
  | None => (Err (PathError "remove" path ErrNotExist), d)
  end.

End os.

(** ** pkg/repository/fs *)
Module fs.
Import pak.

Definition IndexPath : string := "index.yml".
Definition ManifestPath : string := "manifest".
Definition RemoteManifestPath : string := "manifest.yml".

(** Repository is a writable file system based repository. *)
Record Repository : Type := mkRepository {
  BaseDir : string
}.

(** A repository together with the file system it is rooted in. *)
Record store : Type := mkStore {
  repo : Repository;
  files : os.disk
}.

Section fs.
Context `{!yaml.Codec} `{!os.Faults}.

Definition manifestPath (r : Repository) (id : string) : string :=
  filepath.Join [BaseDir r; id; ManifestPath].

Definition filePath (r : Repository) (id name : string) : string :=
  filepath.Join [BaseDir r; id; name].

Definition getManifest (r : Repository) (id : string) (d : os.disk)
  : result Manifest :=
  match os.Open (manifestPath r id) d with
  | Err err => Err err
  | Ok f => yaml.ReadManifest f
  end.

(** GetInstalledManifest gets the manifest for the given id. *)
Definition GetInstalledManifest (r : Repository) (id : string) (d : os.disk)
  : result (option Manifest) :=
  match getManifest r id d with
  | Err err =>
      if errors_Is_ErrNotExist err then Ok None else Err err
  | Ok manifest => Ok (Some manifest)
  end.

(** Write writes the given file to the repository, in the following
    location: <BaseDir>/<id>/<file> *)
Definition Write (r : Repository) (id version file : string)
  (data : io.Reader) (d : os.disk) : result unit * os.disk :=
  let path := filePath r id file in
  let dir := filepath.Dir path in
  match os.MkdirAll dir d with
  | Err err => (Err (Errorf "failed to create directory %q: %w" [dir] err), d)
  | Ok _ =>
      match os.Create path d with
      | (Err err, d) =>
          (Err (Errorf "failed to create file %q: %w" [path] err), d)
      | (Ok _, d) =>
          match os.Copy path data d with
          | (Err err, d) =>
              (Err (Errorf "failed to write file %q: %w" [path] err), d)
          | (Ok _, d) => (Ok tt, d)
          end
      end
  end.

(** WriteManifest writes the given manifest to the repository. The manifest
    file is stored in <BaseDir>/<id>/manifest. *)
Definition WriteManifest (r : Repository) (manifest : Manifest) (d : os.disk)
  : result unit * os.disk :=
  let path := manifestPath r (ID manifest) in
  let dir := filepath.Dir path in
  match os.MkdirAll dir d with
  | Err err => (Err (Errorf "failed to create directory %q: %w" [dir] err), d)
  | Ok _ =>
      match os.Create path d with
      | (Err err, d) =>
          (Err (Errorf "failed to create file %q: %w" [path] err), d)
      | (Ok _, d) =>
          match os.File_Write path (yaml.WriteManifest manifest) d with
          | (Err err, d) =>
              (Err (Errorf "failed to write manifest: %w" []
                      (yaml.encode_error err)), d)
          | (Ok _, d) => (Ok tt, d)
          end
      end
  end.

(** only remove the files listed by the manifest *)
Fixpoint remove_files (r : Repository) (id : string) (fs : list string)
  (d : os.disk) : result unit * os.disk :=
  match fs with
  | [] => (Ok tt, d)
  | f :: fs' =>
      let path := filePath r id f in
      match os.Remove path d with
      | (Err err, d') =>
          (Err (Errorf "failed to remove file %q: %w" [path] err), d')
      | (Ok _, d') => remove_files r id fs' d'
      end
  end.

(** Delete deletes the pak with the given id from the repository.
    It will remove the manifest file and all files listed in the manifest. *)
Definition Delete (r : Repository) (id : string) (d : os.disk)
  : result unit * os.disk :=
  match GetInstalledManifest r id d with
  | Err err => (Err (Errorf "failed to get manifest: %w" [] err), d)
  | Ok None =>
      (* nothing to delete *)
      (Ok tt, d)
  | Ok (Some manifest) =>
      match remove_files r id (Files manifest) d with
      | (Err err, d') => (Err err, d')
      | (Ok _, d') =>
          (* remove the manifest *)
          match os.Remove (manifestPath r id) d' with
          | (Err err, d'') =>
              (Err (Errorf "failed to remove manifest: %w" [] err), d'')
          | (Ok _, d'') =>
              (* remove the directory if it is empty - ignore errors *)
              (Ok tt, d'')
          end
      end
  end.

(** *** ListInstalled: the walk of [BaseDir] *)

Fixpoint strip_prefix (p s : string) : option string :=
  match p, s with
  | EmptyString, _ => Some s
  | String a p', String b s' =>
      if Ascii.eqb a b then strip_prefix p' s' else None
  | String _ _, EmptyString => None
  end.

(** The elements of [path] below the directory [root], when it is below. *)
Definition below (root path : string) : option (list string) :=
  let r := filepath.Clean root in
  if decide (r = "/") then filepath.split_elems <$> strip_prefix "/" path
  else if decide (r = ".") then
    if filepath.is_rooted path then None
    else match filepath.split_elems path with
         | e :: es => if decide (e = "..") then None else Some (e :: es)
         | [] => None
         end
  else filepath.split_elems <$> strip_prefix (r +:+ "/") path.

(** [filepath.Walk] visits the names of a directory in byte order, and a
    directory's files before its next sibling. *)
Fixpoint elems_le (a b : list string) : bool :=
  match a, b with
  | [], _ => true
  | _ :: _, [] => false
  | x :: a', y :: b' =>
      match String.compare x y with
      | Lt => true
      | Gt => false
      | Eq => elems_le a' b'
      end
  end.

Definition walk_le (a b : list string * (string * bytes)) : Prop :=
  elems_le a.1 b.1 = true.

#[local] Instance walk_le_dec a b : Decision (walk_le a b).
Proof. unfold walk_le. apply _. Defined.

(** The regular files met by [filepath.Walk(r.BaseDir, ...)], in order. *)
Definition walked (r : Repository) (d : os.disk) : list (string * bytes) :=
  snd <$> merge_sort walk_le
    (omap (fun kv => (fun els => (els, kv)) <$> below (BaseDir r) kv.1)
          (map_to_list d)).

(** The body of the walk function on a regular file. *)
Definition visit (r : Repository) (ret : list Manifest) (kv : string * bytes)
  : list Manifest :=
  let '(path, f) := kv in
  if decide (filepath.Base path ≠ ManifestPath) then ret
  else
    (* found a manifest file *)
    match yaml.ReadManifest f with
    | Err _ => (* ignore manifests with errors *) ret
    | Ok manifest =>
        (* manifest must be in the correct directory for it to be returned *)
        if decide (path ≠ manifestPath r (ID manifest)) then ret
        else ret ++ [manifest]
    end.

(** ListInstalled returns all specs in the repository.  [BaseDir] is taken
    to exist as a directory unless it is the empty path. *)
Definition ListInstalled (r : Repository) (d : os.disk)
  : result (list Manifest) :=
  if decide (BaseDir r = "") then
    Err (Errorf "failed to walk repository: %w" []
           (PathError "lstat" "" ErrNotExist))
  else Ok (foldl (visit r) [] (walked r d)).

(** *** The repository as a [SourceRepository] *)

Definition remoteManifestPath (r : Repository) (id version : string) : string :=
  filepath.Join [BaseDir r; id; version; RemoteManifestPath].

Definition remoteFilePath (r : Repository) (id version file : string) : string :=
  filepath.Join [BaseDir r; id; version; file].

(** GetManifest gets the manifest for the given id and version. *)
Definition GetManifest (r : Repository) (id version : string) (d : os.disk)
  : result (option Manifest) :=
  match os.Open (remoteManifestPath r id version) d with
  | Err err => Err err
  | Ok f =>
      match yaml.ReadManifest f with
      | Err err => Err err
      | Ok manifest => Ok (Some manifest)
      end
  end.

Definition getIndex (r : Repository) (d : os.disk) : result SpecIndex :=
  let path := filepath.Join [BaseDir r; IndexPath] in
  match os.Open path d with
  | Err err => Err (Errorf "failed to get index file: %w" [] err)
  | Ok f =>
      match yaml.ReadSpecIndex f with
      | Err err => Err (Errorf "failed to read index file: %w" [] err)
      | Ok index => Ok index
      end
  end.

(** GetSpec gets the spec for the given id. *)
Definition GetSpec (r : Repository) (id : string) (d : os.disk)
  : result (option Spec) :=
  match getIndex r d with
  | Err err => Err (Errorf "failed to get index: %w" [] err)
  | Ok index => Ok (index !! id)
  end.

(** List returns all specs in the repository. *)
Definition List (r : Repository) (d : os.disk) : result SpecIndex :=
  getIndex r d.

(** GetFile gets the file with the given name for the given id and version. *)
Definition GetFile (r : Repository) (id version file : string) (d : os.disk)
  : result (option io.Reader) :=
  match os.Open (remoteFilePath r id version file) d with
  | Err err => Err (Errorf "failed to get file: %w" [] err)
  | Ok f => Ok (Some (bytes_NewReader f))
  end.

(** *** The interfaces on a [store] *)

Definition reading {A} (f : Repository -> os.disk -> result A) (s : store)
  : result A * store :=
  (f (repo s) (files s), s).

Definition writing {A} (f : Repository -> os.disk -> result A * os.disk)
  (s : store) : result A * store :=
  let '(res, d) := f (repo s) (files s) in (res, mkStore (repo s) d).

#[global] Instance writable : WritableRepository store := {|
  pak.GetInstalledManifest id := reading (fun r => GetInstalledManifest r id);
  pak.ListInstalled := reading ListInstalled;
  pak.Write id version file data :=
    writing (fun r => Write r id version file data);
  pak.WriteManifest manifest := writing (fun r => WriteManifest r manifest);
  pak.Delete id := writing (fun r => Delete r id)
|}.

#[global] Instance source : SourceRepository store := {|
  pak.GetManifest id version := reading (fun r => GetManifest r id version);
  pak.GetSpec id := reading (fun r => GetSpec r id);
  pak.List := reading List;
  pak.GetFile id version file := reading (fun r => GetFile r id version file)
|}.

End fs.
End fs.

(** ** pkg/repository/http *)
Module http.
Import pak.

Definition IndexPath : string := "index.yml".
Definition ManifestPath : string := "manifest.yml".

(** [url.URL]: the path, and the rest of the URL. *)
Record URL : Type := mkURL {
  Authority : string;
  Path : string
}.

(** [http.Response]: the fields the repository reads. *)
Record Response : Type := mkResponse {
  StatusCode : Z;
  Status : string;
  Body : bytes
}.

(** What the repository uses of [time], [net/url] and [net/http]: the clock
    and the HTTP client act on the outside world [E]; a clock reading is a
    number of nanoseconds. *)
Class Net (E : Type) : Type := {
  time_Now : E -> Z * E;
  url_JoinPath : string -> list string -> result string;
  URL_String : URL -> string;
  NewRequest : string -> result unit;
  Client_Do : string -> E -> result Response * E
}.

(** Repository is a HTTP based repository.  The index is cached for the
    duration of CacheTTL. *)
Record Repository : Type := mkRepository {
  BaseURL : URL;
  CacheTTL : Z;
  cachedIndex : option SpecIndex;
  cacheTime : Z
}.

(** New creates a new Repository. *)
Definition New (baseURL : URL) : Repository :=
  {| BaseURL := baseURL; CacheTTL := 0; cachedIndex := None; cacheTime := 0 |}.

(** A repository, the world it is connected to, and the URLs it has
    requested through [Client.Do], oldest first. *)
Record conn (E : Type) : Type := mkConn {
  repo : Repository;
  env : E;
  requested : list string
}.
Arguments mkConn {E}.
Arguments repo {E}.
Arguments env {E}.
Arguments requested {E}.

Section http.
Context {E : Type} `{!Net E} `{!yaml.Codec}.

Definition set_repo (r : Repository) (c : conn E) : conn E :=
  mkConn r (env c) (requested c).

Definition getFile (u : URL) (c : conn E) : result bytes * conn E :=
  match NewRequest (URL_String u) with
  | Err err => (* shouldn't happen *) (Err err, c)
  | Ok _ =>
      let '(resp, e) := Client_Do (URL_String u) (env c) in
      let c' := mkConn (repo c) e (requested c ++ [URL_String u]) in
      match resp with
      | Err err => (Err (Errorf "failed to get remote file: %w" [] err), c')
      | Ok resp =>
          if StatusCode resp >=? 400 then
            (Err (Errorf_plain "failed to get remote file: %s" [Status resp]), c')
          else (Ok (Body resp), c')
      end
  end.

Definition checkCacheExpired (c : conn E) : conn E :=
  let r := repo c in
  match cachedIndex r with
  | None => c
  | Some _ =>
      (* [time.Since(r.cacheTime)] *)
      let '(now, e) := time_Now (env c) in
      let c' := mkConn r e (requested c) in
      if now - cacheTime r >? CacheTTL r then
        set_repo {| BaseURL := BaseURL r; CacheTTL := CacheTTL r;
                    cachedIndex := None; cacheTime := cacheTime r |} c'
      else c'
  end.

Definition getIndex (c : conn E) : result SpecIndex * conn E :=
  let c := checkCacheExpired c in
  match cachedIndex (repo c) with
  | Some index => (Ok index, c)
  | None =>
      let u := BaseURL (repo c) in
      match url_JoinPath (Path u) [IndexPath] with
      | Err err => (* shouldn't happen *) (Err err, c)
      | Ok path =>
          let u := {| Authority := Authority u; Path := path |} in
          match getFile u c with
          | (Err err, c) =>
              (Err (Errorf "failed to get index file: %w" [] err), c)
          | (Ok f, c) =>
              match yaml.ReadSpecIndex f with
              | Err err =>
                  (Err (Errorf "failed to read index file: %w" [] err), c)
              | Ok index =>
                  let r := repo c in
                  let '(now, e) := time_Now (env c) in
                  (Ok index,
                   mkConn {| BaseURL := BaseURL r; CacheTTL := CacheTTL r;
                             cachedIndex := Some index; cacheTime := now |}
                          e (requested c))
              end
          end
      end
  end.

(** GetSpec gets the spec for the given id. *)
Definition GetSpec (id : string) (c : conn E) : result (option Spec) * conn E :=
  match getIndex c with
  | (Err err, c) => (Err (Errorf "failed to get index: %w" [] err), c)
  | (Ok index, c) => (Ok (index !! id), c)
  end.

(** List returns all specs in the repository. *)
Definition List (c : conn E) : result SpecIndex * conn E := getIndex c.

Definition joined (base : string) (elem : list string) : string :=
  match url_JoinPath base elem with
  | Ok p => p
  | Err _ => ""
  end.

Definition manifestPath (r : Repository) (id version : string) : URL :=
  let u := BaseURL r in
  {| Authority := Authority u;
     Path := joined (Path u) [id; version; ManifestPath] |}.

Definition filePath (r : Repository) (id version file : string) : URL :=
  let u := BaseURL r in
  {| Authority := Authority u; Path := joined (Path u) [id; version; file] |}.

(** GetManifest gets the manifest for the given id and version. *)
Definition GetManifest (id version : string) (c : conn E)
  : result (option Manifest) * conn E :=
  match getFile (manifestPath (repo c) id version) c with
  | (Err err, c) => (Err (Errorf "failed to get manifest file: %w" [] err), c)
  | (Ok f, c) =>
      match yaml.ReadManifest f with
      | Err err => (Err (Errorf "failed to read manifest file: %w" [] err), c)
      | Ok manifest =>
          if decide (version ≠ "" ∧ version ≠ Version manifest)
          then (Ok None, c)
          else (Ok (Some manifest), c)
      end
  end.

(** GetFile gets the file for the given id, version and file. *)
Definition GetFile (id version file : string) (c : conn E)
  : result (option io.Reader) * conn E :=
  match getFile (filePath (repo c) id version file) c with
  | (Err err, c) => (Err (Errorf "failed to get file: %w" [] err), c)
  | (Ok f, c) => (Ok (Some (bytes_NewReader f)), c)
  end.

#[global] Instance source : SourceRepository (conn E) := {|
  pak.GetManifest := GetManifest;
  pak.GetSpec := GetSpec;
  pak.List := List;
  pak.GetFile := GetFile
|}.

End http.
End http.

(** ** cmd/pakman: listing and search *)
Module cmd.
Import pak.

(** *** [strings] on ASCII text

    [strings.ToLower], [strings.EqualFold] and [strings.Contains] as they
    act on strings whose bytes are all below [utf8.RuneSelf] (128); the
    Unicode tables that Go consults for other bytes are not modelled. *)

Definition is_ascii (s : string) : bool :=
  forallb (fun c => (nat_of_ascii c <? 128)%nat) (list_ascii_of_string s).

Definition lower_byte (c : ascii) : ascii :=
  let n := nat_of_ascii c in
  if (65 <=? n)%nat && (n <=? 90)%nat then ascii_of_nat (n + 32) else c.

Fixpoint ToLower (s : string) : string :=
  match s with
  | EmptyString => EmptyString
  | String c s' => String (lower_byte c) (ToLower s')
  end.

(** One step of the loop of [EqualFold] on the bytes [sr] and [tr]. *)
Definition fold_eq_byte (sr tr : ascii) : bool :=
  if Ascii.eqb tr sr then true
  else
    (* make sr < tr to simplify what follows *)
    let '(sr, tr) :=
      if (nat_of_ascii tr <? nat_of_ascii sr)%nat then (tr, sr) else (sr, tr) in
    (* ASCII only, sr/tr must be upper/lower case *)
    (65 <=? nat_of_ascii sr)%nat && (nat_of_ascii sr <=? 90)%nat
      && (nat_of_ascii tr =? nat_of_ascii sr + 32)%nat.

Fixpoint EqualFold (s t : string) : bool :=
  match s, t with
  | EmptyString, EmptyString => true
  | String sr s', String tr t' => fold_eq_byte sr tr && EqualFold s' t'
  | _, _ => false
  end.

Fixpoint HasPrefix (s prefix : string) {struct prefix} : bool :=
  match prefix, s with
  | EmptyString, _ => true
  | String a p', String b s' => Ascii.eqb a b && HasPrefix s' p'
  | String _ _, EmptyString => false
  end.

Fixpoint Contains (s substr : string) : bool :=
  HasPrefix s substr ||
  match s with
  | EmptyString => false
  | String _ s' => Contains s' substr
  end.

(** *** sortedKeys *)

(** The [less] function handed to [sort.Slice]. *)
Definition less (a b : string) : bool :=
  if EqualFold a b then String.ltb a b
  else String.ltb (ToLower a) (ToLower b).

(** [sort.Slice(keys, less)]: the keys in an order in which no key is
    [less] than an earlier one.  The keys of a map are distinct and [less]
    orders distinct ASCII keys totally, so there is one such order and the
    sorting algorithm does not matter; merge sort stands for it.
    [in_order less a b]: [a] may come before [b]. *)
Definition in_order (less : string -> string -> bool) (a b : string) : Prop :=
  less b a = false.

#[global] Instance in_order_dec less a b : Decision (in_order less a b).
Proof. unfold in_order. apply _. Defined.

Definition sort_Slice (less : string -> string -> bool) (keys : list string)
  : list string :=
  merge_sort (in_order less) keys.

(** The body of [sortedKeys] after the keys were collected from the map in
    the order [keys] (the iteration order of a Go map is not fixed). *)
Definition sortedKeys_of (keys : list string) : list string :=
  sort_Slice less keys.

Definition sortedKeys (index : SpecIndex) : list string :=
  sortedKeys_of (map_to_list index).*1.

(** The lines printed for one catalog entry. *)
Definition print_versions (v : Spec) : list string :=
  map (fun vv => Spec_ID v +:+ " " +:+ vv +:+ " " +:+ Description v)
      (Versions v).

Definition zero_Spec : Spec :=
  {| Spec_ID := ""; Spec_Name := ""; Description := ""; CurrentVersion := "";
     Updated := 0; Versions := [] |}.

(** [list]: the lines printed, given the catalog. *)
Definition list_ (index : SpecIndex) : list string :=
  flat_map (fun k => print_versions (default zero_Spec (index !! k)))
           (sortedKeys index).

(** The keys [search] selects for the search term [term]. *)
Definition search_keys (index : SpecIndex) (term : string) : list string :=
  filter (fun k => Contains (ToLower k) (ToLower term) = true)
         (sortedKeys index).

(** [search]: the lines printed, given the catalog and [os.Args[2]]. *)
Definition search (index : SpecIndex) (term : string) : list string :=
  flat_map (fun k => print_versions (default zero_Spec (index !! k)))
           (search_keys index term).

End cmd.

(** * Vocabulary of the statements *)

(** The listing order in words: case-insensitive (lower-cased) byte order
    first, and byte order of the ids themselves between ids that are equal
    up to case. *)
Definition key_lt (a b : string) : Prop :=
  String.ltb (cmd.ToLower a) (cmd.ToLower b) = true
  ∨ (cmd.ToLower a = cmd.ToLower b ∧ String.ltb a b = true).

(** A local store whose manifest lookup is a read: it leaves the store as
    it is (so does [fs], which only opens the manifest file). *)
Definition read_only_lookup (L : Type) `{!pak.WritableRepository L} : Prop :=
  ∀ (id : string) (l : L), (pak.GetInstalledManifest id l).2 = l.

(** A source that answers [GetSpec] from the catalog [catalog] and is not
    changed by the query (so do [memory] and [fs]). *)
Definition serves_catalog {R : Type} `{!pak.SourceRepository R}
  (catalog : pak.SpecIndex) (r : R) : Prop :=
  ∀ id : string, pak.GetSpec id r = (Ok (catalog !! id), r).

(** The world in which [Install] calls [install] for [spec]: the
    "Installing" line has been logged. *)
Definition announced {L R : Type} (spec : pak.InstallSpec) (w : pak.world L R)
  : pak.world L R :=
  pak.mkWorld (pak.local w) (pak.remote w) (pak.calls w)
    (pak.logged w ++
       [pak.Infof "Installing %s@%s" [pak.IS_ID spec; pak.IS_Version spec]]).

(** The world after [install] looked up the installed manifest of [id]. *)
Definition looked_up {L R : Type} (id : string) (l1 : L) (w : pak.world L R)
  : pak.world L R :=
  pak.mkWorld l1 (pak.remote w)
    (pak.calls w ++ [pak.CallGetInstalledManifest id]) (pak.logged w).

(** The world after the lookup and the resolution of the version. *)
Definition resolved {L R : Type} (id : string) (l1 : L) (r1 : R)
  (w : pak.world L R) : pak.world L R :=
  pak.mkWorld l1 r1
    (pak.calls w ++ [pak.CallGetInstalledManifest id; pak.CallGetSpec id])
    (pak.logged w).

(** Two runs with the same outcome, the same repositories and the same
    calls: they differ at most in the lines logged. *)
Definition same_effects {L R A : Type} (x y : outcome A * pak.world L R)
  : Prop :=
  x.1 = y.1 ∧ pak.local x.2 = pak.local y.2
  ∧ pak.remote x.2 = pak.remote y.2 ∧ pak.calls x.2 = pak.calls y.2.

(** Code that does not depend on the lines logged so far. *)
Definition log_blind {L R A : Type} (c : pak.M L R A) : Prop :=
  ∀ w w' : pak.world L R,
    pak.local w = pak.local w' → pak.remote w = pak.remote w' →
    pak.calls w = pak.calls w' → same_effects (c w) (c w').

(** Every spec of the batch is installed with success, one after the other,
    each from the world the one before left; [w'] is the last world. *)
Fixpoint each_installed {L R : Type}
  `{!pak.WritableRepository L} `{!pak.SourceRepository R}
  (specs : list pak.InstallSpec) (w w' : pak.world L R) : Prop :=
  match specs with
  | [] => w' = w
  | spec :: rest =>
      ∃ w1, pak.install spec false (announced spec w) = (Returned tt, w1)
            ∧ each_installed rest w1 w'
  end.

(** The entry of [Upgradable] in words: the installed id, version and date
    with the latest version and update time of the source. *)
Definition upgradable_of (pak : pak.Manifest) (spec : pak.Spec)
  : pak.UpgradableSpec :=
  {| pak.Spec_of := {| pak.Spec_ID := pak.ID pak;
                       pak.Spec_Name := "";
                       pak.Description := pak.Description spec;
                       pak.CurrentVersion := pak.Version pak;
                       pak.Updated := pak.Date pak;
                       pak.Versions := [] |};
     pak.LatestVersion := pak.CurrentVersion spec;
     pak.LastUpdated := pak.Updated spec |}.

(** The entries for the installed paks whose version is not the current
    version of their catalog entry, in the order of the installed paks. *)
Definition outdated (catalog : pak.SpecIndex) (installed : list pak.Manifest)
  : list pak.UpgradableSpec :=
  omap (fun pak =>
          spec ← catalog !! pak.ID pak;
          if decide (pak.Version pak = pak.CurrentVersion spec) then None
          else Some (upgradable_of pak spec))
       installed.

(** The paths of the files a manifest lists for [id] in a [fs] store. *)
Definition listed_paths (r : fs.Repository) (id : string) (m : pak.Manifest)
  : list string :=
  fs.filePath r id <$> pak.Files m.

(** A call that downloads one of the files [files] of [id]@[version]: the
    [GetFile] on the source or the [Write] to the local store. *)
Definition is_download (id version : string) (files : list string)
  (c : pak.call) : Prop :=
  match c with
  | pak.CallGetFile id' version' file
  | pak.CallWrite id' version' file _ =>
      id' = id ∧ version' = version ∧ file ∈ files
  | _ => False
  end.

(** The repository [r] with its cache slot set: the snapshot (or none) and
    the time it was fetched. *)
Definition with_cache (r : http.Repository) (index : option pak.SpecIndex)
  (fetched : Z) : http.Repository :=
  {| http.BaseURL := http.BaseURL r; http.CacheTTL := http.CacheTTL r;
     http.cachedIndex := index; http.cacheTime := fetched |}.

(** [u] is the URL of the index of [r], accepted by [url.JoinPath] and
    [http.NewRequest]. *)
Definition index_url {E : Type} `{!http.Net E} (r : http.Repository)
  (u : string) : Prop :=
  ∃ path : string,
    http.url_JoinPath (http.Path (http.BaseURL r)) [http.IndexPath] = Ok path
    ∧ u = http.URL_String
            {| http.Authority := http.Authority (http.BaseURL r);
               http.Path := path |}
    ∧ http.NewRequest u = Ok tt.

(** The download loop of [install]. *)
Definition downloads {L R : Type}
  `{!pak.WritableRepository L} `{!pak.SourceRepository R}
  (id version : string) (files : list string) : pak.M L R unit :=
  pak.for_range files (fun file =>
    pak.wrapping "downloading file %q: %w" [file]
      (pak.downloadFile id version file)).

(** Deleting the ids [ids] in turn from the local store [l] succeeds for
    each of them and leaves the store [l']. *)
Fixpoint all_deleted {L : Type} `{!pak.WritableRepository L}
  (ids : list string) (l l' : L) : Prop :=
  match ids with
  | [] => l' = l
  | id :: ids' =>
      ∃ l1 : L, pak.Delete id l = (Ok tt, l1) ∧ all_deleted ids' l1 l'
  end.

(** * Reference instances, used to run the model on examples *)
Module example.
Import pak.

(** A codec that is the inverse of its own encoder, standing for the YAML
    library: a document is the binary numeral of the code of the value. *)
Fixpoint bits_of (p : positive) : string :=
  match p with
  | xH => ""
  | xO p => String "0" (bits_of p)
  | xI p => String "1" (bits_of p)
  end.

Fixpoint of_bits (s : string) : option positive :=
  match s with
  | EmptyString => Some xH
  | String c s =>
      p ← of_bits s;
      if Ascii.eqb c "0" then Some (xO p)
      else if Ascii.eqb c "1" then Some (xI p)
      else None
  end.

#[global] Instance Manifest_countable : Countable Manifest.
Proof.
  refine (inj_countable'
            (fun m => (ID m, Name m, Version m, Date m, Files m))
            (fun '(i, n, v, d, f) => mkManifest i n v d f) _).
  by intros [].
Defined.

#[global] Instance Spec_countable : Countable Spec.
Proof.
  refine (inj_countable'
            (fun s => (Spec_ID s, Spec_Name s, Description s, CurrentVersion s,
                       Updated s, Versions s))
            (fun '(i, n, d, c, u, v) => mkSpec i n d c u v) _).
  by intros [].
Defined.

#[global] Instance codec : yaml.Codec := {|
  yaml.encode_Manifest m := bits_of (encode m);
  yaml.decode_Manifest s := of_bits s ≫= decode;
  yaml.decode_SpecIndex s := of_bits s ≫= decode
|}.

(** A file system that refuses nothing. *)
#[global] Instance no_faults : os.Faults := {|
  os.MkdirAll_fault _ _ := None;
  os.Create_fault _ _ := None;
  os.Write_fault _ _ _ := None
|}.

(** The document of a catalog under [codec]. *)
Definition encode_SpecIndex (index : SpecIndex) : bytes := bits_of (encode index).

(** A source with two versions of "widget" and one of "gadget". *)
Definition widget1 : Manifest :=
  {| ID := "widget"; Name := "Widget"; Version := "1.0.0"; Date := 100;
     Files := ["widget.js"; "old.css"] |}.

Definition widget2 : Manifest :=
  {| ID := "widget"; Name := "Widget"; Version := "2.0.0"; Date := 200;
     Files := ["widget.js"; "new.css"] |}.

Definition gadget1 : Manifest :=
  {| ID := "gadget"; Name := "Gadget"; Version := "0.1.0"; Date := 150;
     Files := ["gadget.js"] |}.

Definition widget_spec : Spec :=
  {| Spec_ID := "widget"; Spec_Name := "Widget"; Description := "a widget";
     CurrentVersion := "2.0.0"; Updated := 200;
     Versions := ["1.0.0"; "2.0.0"] |}.

Definition gadget_spec : Spec :=
  {| Spec_ID := "gadget"; Spec_Name := "Gadget"; Description := "a gadget";
     CurrentVersion := "0.1.0"; Updated := 150; Versions := ["0.1.0"] |}.

Definition catalog : SpecIndex :=
  {[ "widget" := widget_spec; "gadget" := gadget_spec ]}.

Definition file_of (m : Manifest) (file : string) (data : bytes)
  : memory.FileSpec * bytes :=
  (memory.mkFileSpec (mkInstallSpec (ID m) (Version m)) file, data).

Definition source : memory.Repository :=
  {| memory.Index := catalog;
     memory.Manifests :=
       list_to_map ((fun m => (mkInstallSpec (ID m) (Version m), m))
                      <$> [widget1; widget2; gadget1]);
     memory.Files :=
       list_to_map [file_of widget1 "widget.js" "w1";
                    file_of widget1 "old.css" "o1";
                    file_of widget2 "widget.js" "w2";
                    file_of widget2 "new.css" "n2";
                    file_of gadget1 "gadget.js" "g1"] |}.

Definition local_repo : fs.Repository := {| fs.BaseDir := "/paks" |}.

(** An empty local store. *)
Definition empty_store : fs.store :=
  {| fs.repo := local_repo; fs.files := ∅ |}.

(** A local store with widget 1.0.0 installed, and a file of the user next
    to it. *)
Definition widget1_store : fs.store :=
  {| fs.repo := local_repo;
     fs.files :=
       {[ "/paks/widget/manifest" := yaml.WriteManifest widget1;
          "/paks/widget/widget.js" := "w1";
          "/paks/widget/old.css" := "o1";
          "/paks/widget/notes.txt" := "mine" ]} |}.

(** A local store with widget 2.0.0, the latest version, installed. *)
Definition widget2_store : fs.store :=
  {| fs.repo := local_repo;
     fs.files :=
       {[ "/paks/widget/manifest" := yaml.WriteManifest widget2;
          "/paks/widget/widget.js" := "w2";
          "/paks/widget/new.css" := "n2" ]} |}.

(** A local store with a pak that the source does not know. *)
Definition orphan : Manifest :=
  {| ID := "orphan"; Name := "Orphan"; Version := "0.0.1"; Date := 50;
     Files := ["orphan.js"] |}.

Definition orphan_store : fs.store :=
  {| fs.repo := local_repo;
     fs.files :=
       {[ "/paks/orphan/manifest" := yaml.WriteManifest orphan;
          "/paks/orphan/orphan.js" := "x" ]} |}.

Definition start (l : fs.store) : world fs.store memory.Repository :=
  {| local := l; remote := source; calls := []; logged := [] |}.

(** A scripted outside world for [http]: the clock, and the answers the
    server will give to the next requests; a request takes one tick. *)
Record script : Type := mkScript {
  clock : Z;
  answers : list (result http.Response)
}.

#[global] Instance scripted : http.Net script := {|
  http.time_Now e := (clock e, e);
  http.url_JoinPath base elem := Ok (filepath.Join (("/" +:+ base) :: elem));
  http.URL_String u := http.Authority u +:+ http.Path u;
  http.NewRequest _ := Ok tt;
  http.Client_Do _ e :=
    match answers e with
    | [] => (Err (ExternalError "net/http"), mkScript (clock e + 1) [])
    | a :: rest => (a, mkScript (clock e + 1) rest)
    end
|}.

Definition base_url : http.URL :=
  {| http.Authority := "https://example.com"; http.Path := "/paks" |}.

(** A repository with a time to live of ten ticks. *)
Definition remote_repo : http.Repository :=
  {| http.BaseURL := base_url; http.CacheTTL := 10;
     http.cachedIndex := None; http.cacheTime := 0 |}.

Definition ok_response (body : bytes) : http.Response :=
  {| http.StatusCode := 200; http.Status := "200 OK"; http.Body := body |}.

(** The catalog of the listing example. *)
Definition listing : SpecIndex :=
  list_to_map
    ((fun id => (id, {| Spec_ID := id; Spec_Name := id;
                        Description := "an example";
                        CurrentVersion := "1.0.0"; Updated := 0;
                        Versions := ["1.0.0"] |}))
       <$> ["Widget"; "apple"; "Apple"]).

(** The source, without one of the files that widget 2.0.0 lists. *)
Definition broken_source : memory.Repository :=
  {| memory.Index := memory.Index source;
     memory.Manifests := memory.Manifests source;
     memory.Files :=
       delete (memory.mkFileSpec (mkInstallSpec "widget" "2.0.0") "new.css")
              (memory.Files source) |}.

(** A local store whose manifest of "widget" is not a manifest document. *)
Definition garbled_store : fs.store :=
  {| fs.repo := local_repo;
     fs.files := {[ "/paks/widget/manifest" := "not yaml";
                    "/paks/widget/widget.js" := "w1" ]} |}.

(** A [fs] repository used as a source, with nothing in it. *)
Definition empty_fs_source : fs.store :=
  {| fs.repo := {| fs.BaseDir := "/repo" |}; fs.files := ∅ |}.

(** A [fs] repository used as a source, with the catalog and gadget 0.1.0. *)
Definition gadget_fs_source : fs.store :=
  {| fs.repo := {| fs.BaseDir := "/repo" |};
     fs.files :=
       {[ "/repo/index.yml" := encode_SpecIndex catalog;
          "/repo/gadget/0.1.0/manifest.yml" := yaml.WriteManifest gadget1;
          "/repo/gadget/0.1.0/gadget.js" := "g1" ]} |}.

(** A pak whose manifest lists a file twice, and a source that has it. *)
Definition twice : Manifest :=
  {| ID := "twice"; Name := "Twice"; Version := "1.0.0"; Date := 300;
     Files := ["a.js"; "a.js"] |}.

Definition twice_source : memory.Repository :=
  {| memory.Index := ∅;
     memory.Manifests := {[ mkInstallSpec "twice" "1.0.0" := twice ]};
     memory.Files := list_to_map [file_of twice "a.js" "a1"] |}.

(** A source whose manifest for widget 2.0.0 carries the ID of another
    pak. *)
Definition mislabelled : Manifest :=
  {| ID := "gadget"; Name := "Widget"; Version := "2.0.0"; Date := 200;
     Files := ["widget.js"; "new.css"] |}.

Definition mislabelled_source : memory.Repository :=
  {| memory.Index := catalog;
     memory.Manifests := {[ mkInstallSpec "widget" "2.0.0" := mislabelled ]};
     memory.Files := memory.Files source |}.

(** A connection whose server answers the next request with the manifest
    of widget 2.0.0. *)
Definition manifest_conn : http.conn script :=
  http.mkConn remote_repo
    (mkScript 0 [Ok (ok_response (yaml.WriteManifest widget2))]) [].

(** A connection whose server answers the next request with the catalog. *)
Definition catalog_conn : http.conn script :=
  http.mkConn remote_repo
    (mkScript 0 [Ok (ok_response (encode_SpecIndex catalog))]) [].

End example.

(** * Properties *)

(** ** Running manager code *)
Section running.
Import pak.
Context {L R : Type} `{!WritableRepository L} `{!SourceRepository R}.

Implicit Types w : world L R.

Lemma run_bind {A B} (c : M L R A) (k : A -> M L R B) w :
  (c ≫= k) w =
  match c w with
  | (Returned a, w') => k a w'
  | (Failed e, w') => (Failed e, w')
  | (Panicked msg, w') => (Panicked msg, w')
  end.
Proof. reflexivity. Qed.

Lemma run_bind_returned {A B} (c : M L R A) (k : A -> M L R B) w a w1 :
  c w = (Returned a, w1) → (c ≫= k) w = k a w1.
Proof. intros Hc. by rewrite run_bind, Hc. Qed.

Lemma run_bind_failed {A B} (c : M L R A) (k : A -> M L R B) w e w1 :
  c w = (Failed e, w1) → (c ≫= k) w = (Failed e, w1).
Proof. intros Hc. by rewrite run_bind, Hc. Qed.

Lemma bind_returned_inv {A B} (c : M L R A) (k : A -> M L R B) w b w' :
  (c ≫= k) w = (Returned b, w') →
  ∃ a w1, c w = (Returned a, w1) ∧ k a w1 = (Returned b, w').
Proof.
  rewrite run_bind. destruct (c w) as [[a|e|msg] w1]; [eauto|done..].
Qed.

Lemma wrapping_returned {A} format args (c : M L R A) w a w' :
  wrapping format args c w = (Returned a, w') ↔ c w = (Returned a, w').
Proof. unfold wrapping. destruct (c w) as [[?|?|?] ?]; naive_solver. Qed.

Lemma wrapping_failed {A} format args (c : M L R A) w e w' :
  c w = (Failed e, w') →
  wrapping format args c w = (Failed (Errorf format args e), w').
Proof. unfold wrapping. by intros ->. Qed.

Lemma wrapping_panicked {A} format args (c : M L R A) w msg w' :
  wrapping format args c w = (Panicked msg, w') ↔ c w = (Panicked msg, w').
Proof. unfold wrapping. destruct (c w) as [[?|?|?] ?]; naive_solver. Qed.

Lemma on_local_ok {A} (c : call) (f : L -> result A * L) w a l' :
  f (local w) = (Ok a, l') →
  on_local c f w =
    (Returned a, mkWorld l' (remote w) (calls w ++ [c]) (logged w)).
Proof. unfold on_local. by intros ->. Qed.

Lemma on_local_returned_inv {A} (c : call) (f : L -> result A * L) w a w' :
  on_local c f w = (Returned a, w') →
  ∃ l', f (local w) = (Ok a, l')
        ∧ w' = mkWorld l' (remote w) (calls w ++ [c]) (logged w).
Proof.
  unfold on_local. destruct (f (local w)) as [[a'|e] l']; [|done].
  intros [= -> <-]. eauto.
Qed.

Lemma on_remote_ok {A} (c : call) (f : R -> result A * R) w a r' :
  f (remote w) = (Ok a, r') →
  on_remote c f w =
    (Returned a, mkWorld (local w) r' (calls w ++ [c]) (logged w)).
Proof. unfold on_remote. by intros ->. Qed.

Lemma on_remote_returned_inv {A} (c : call) (f : R -> result A * R) w a w' :
  on_remote c f w = (Returned a, w') →
  ∃ r', f (remote w) = (Ok a, r')
        ∧ w' = mkWorld (local w) r' (calls w ++ [c]) (logged w).
Proof.
  unfold on_remote. destruct (f (remote w)) as [[a'|e] r']; [|done].
  intros [= -> <-]. eauto.
Qed.

Lemma on_remote_not_panicked {A} (c : call) (f : R -> result A * R) w msg w' :
  on_remote c f w ≠ (Panicked msg, w').
Proof. unfold on_remote. by destruct (f (remote w)) as [[?|?] ?]. Qed.

Lemma on_local_not_panicked {A} (c : call) (f : L -> result A * L) w msg w' :
  on_local c f w ≠ (Panicked msg, w').
Proof. unfold on_local. by destruct (f (local w)) as [[?|?] ?]. Qed.

Lemma for_range_cons {A} (x : A) xs (body : A -> M L R unit) w :
  for_range (x :: xs) body w = (body x ≫= fun _ => for_range xs body) w.
Proof. reflexivity. Qed.

Lemma for_range_app {A} (xs ys : list A) (body : A -> M L R unit) w :
  for_range (xs ++ ys) body w =
  (for_range xs body ≫= fun _ => for_range ys body) w.
Proof.
  revert w. induction xs as [|x xs IH]; intros w; [done|].
  simpl app. rewrite for_range_cons, !run_bind, for_range_cons, run_bind.
  destruct (body x w) as [[[]|e|msg] w1]; [|done..].
  by rewrite IH, run_bind.
Qed.

End running.

(** ** install: the steps up to the resolved version *)
Section install.
Import pak.
Context {L R : Type} `{!WritableRepository L} `{!SourceRepository R}.

Implicit Types w : world L R.

Lemma install_empty_id (spec : InstallSpec) upgrade w :
  IS_ID spec = "" → install spec upgrade w = (Failed ErrInvalidInstallSpec, w).
Proof. intros Hid. unfold install. by rewrite decide_True. Qed.

Lemma install_lookup (spec : InstallSpec) upgrade w existing l1 :
  IS_ID spec ≠ "" →
  GetInstalledManifest (IS_ID spec) (local w) = (Ok existing, l1) →
  install spec upgrade w =
  ((if decide (IS_Version spec = "") then
      spec' ← wrapping "getting spec: %w" []
        (on_remote (CallGetSpec (IS_ID spec)) (GetSpec (IS_ID spec)));
      match spec' with
      | None => fail ErrSpecNotFound
      | Some spec' => mret (CurrentVersion spec')
      end
    else mret (IS_Version spec)) ≫= fun version =>
   install_version (IS_ID spec) version existing upgrade)
    (looked_up (IS_ID spec) l1 w).
Proof.
  intros Hid Hl. unfold install. rewrite decide_False by done.
  erewrite run_bind_returned; [|apply wrapping_returned; by apply on_local_ok].
  reflexivity.
Qed.

Lemma install_explicit (spec : InstallSpec) upgrade w existing l1 :
  IS_ID spec ≠ "" → IS_Version spec ≠ "" →
  GetInstalledManifest (IS_ID spec) (local w) = (Ok existing, l1) →
  install spec upgrade w =
  install_version (IS_ID spec) (IS_Version spec) existing upgrade
    (looked_up (IS_ID spec) l1 w).
Proof.
  intros Hid Hv Hl. rewrite (install_lookup _ _ _ existing l1) by done.
  by rewrite decide_False by done.
Qed.

Lemma install_latest (spec : InstallSpec) upgrade w existing l1 s r1 :
  IS_ID spec ≠ "" → IS_Version spec = "" →
  GetInstalledManifest (IS_ID spec) (local w) = (Ok existing, l1) →
  GetSpec (IS_ID spec) (remote w) = (Ok (Some s), r1) →
  install spec upgrade w =
  install_version (IS_ID spec) (CurrentVersion s) existing upgrade
    (resolved (IS_ID spec) l1 r1 w).
Proof.
  intros Hid Hv Hl Hs. rewrite (install_lookup _ _ _ existing l1) by done.
  rewrite decide_True by done.
  rewrite !run_bind. unfold wrapping, on_remote, looked_up, resolved.
  cbn [remote local calls logged]. rewrite Hs, <-app_assoc. reflexivity.
Qed.

Lemma install_not_found (spec : InstallSpec) upgrade w existing l1 r1 :
  IS_ID spec ≠ "" → IS_Version spec = "" →
  GetInstalledManifest (IS_ID spec) (local w) = (Ok existing, l1) →
  GetSpec (IS_ID spec) (remote w) = (Ok None, r1) →
  install spec upgrade w =
  (Failed ErrSpecNotFound, resolved (IS_ID spec) l1 r1 w).
Proof.
  intros Hid Hv Hl Hs. rewrite (install_lookup _ _ _ existing l1) by done.
  rewrite decide_True by done.
  rewrite !run_bind. unfold wrapping, on_remote, looked_up, resolved.
  cbn [remote local calls logged]. rewrite Hs, <-app_assoc. reflexivity.
Qed.

Lemma install_version_same id (e : Manifest) upgrade w :
  install_version id (Version e) (Some e) upgrade w =
  (Returned tt,
   mkWorld (local w) (remote w) (calls w)
     (logged w ++ [Debugf "pak %s@%s already installed" [id; Version e]])).
Proof. unfold install_version. by rewrite decide_True. Qed.

(** With the upgrade flag set and no installed manifest, the operands of
    the "Upgrading" log line dereference the nil [existing]. *)
Lemma install_version_upgrade_not_installed id version w :
  install_version id version None true w = (Panicked nil_dereference, w).
Proof. reflexivity. Qed.

Lemma install_upgrade_not_installed_panics (spec : InstallSpec) w l1 :
  IS_ID spec ≠ "" → IS_Version spec ≠ "" →
  GetInstalledManifest (IS_ID spec) (local w) = (Ok None, l1) →
  install spec true w = (Panicked nil_dereference, looked_up (IS_ID spec) l1 w).
Proof.
  intros Hid Hv Hl. rewrite (install_explicit _ _ _ None l1) by done.
  apply install_version_upgrade_not_installed.
Qed.

Lemma Install_cons (spec : InstallSpec) specs w :
  Install (spec :: specs) w =
  match wrapping "installing pak %s@%s: %w" [IS_ID spec; IS_Version spec]
          (install spec false) (announced spec w) with
  | (Returned _, w1) => Install specs w1
  | (Failed e, w1) => (Failed e, w1)
  | (Panicked msg, w1) => (Panicked msg, w1)
  end.
Proof. reflexivity. Qed.

Lemma Install_one (spec : InstallSpec) w :
  Install [spec] w =
  wrapping "installing pak %s@%s: %w" [IS_ID spec; IS_Version spec]
    (install spec false) (announced spec w).
Proof.
  rewrite Install_cons.
  by destruct (wrapping _ _ _ _) as [[[]|?|?] ?].
Qed.

Lemma Install_app (pre post : list InstallSpec) w w1 :
  Install pre w = (Returned tt, w1) →
  Install (pre ++ post) w = Install post w1.
Proof.
  intros Hpre. unfold Install in *. by rewrite for_range_app, run_bind, Hpre.
Qed.

End install.

(** ** Install, Upgrade: the claims on the orchestration *)
Section install_claims.
Import pak.
Context {L R : Type} `{!WritableRepository L} `{!SourceRepository R}.

Implicit Types w : world L R.

Lemma each_installed_Install (specs : list InstallSpec) w w' :
  Install specs w = (Returned tt, w') ↔ each_installed specs w w'.
Proof.
  revert w. induction specs as [|spec specs IH]; intros w.
  - simpl. unfold Install, for_range, ret. naive_solver.
  - rewrite Install_cons. simpl. split.
    + destruct (wrapping _ _ _ _) as [[[]|e|msg] w1] eqn:Hw; [|done..].
      apply wrapping_returned in Hw. intros Hrest%IH. eauto.
    + intros (w1 & Hi & Hrest).
      rewrite (proj2 (wrapping_returned _ _ _ _ _ _) Hi). by apply IH.
Qed.

(** C2: installing the version that is installed is a no-op.  With the
    version given, [Install] succeeds after the lookup of the installed
    manifest alone: no call reaches the source and none writes to or
    deletes from the local store, which is left as it was.  With the
    version left empty, the version is resolved first (one [GetSpec]) and
    the same check then ends the install. *)
Theorem install_same_version_is_noop w (id : string) (m : Manifest) :
  id ≠ "" →
  GetInstalledManifest id (local w) = (Ok (Some m), local w) →
  (Version m ≠ "" →
   Install [mkInstallSpec id (Version m)] w =
   (Returned tt,
    mkWorld (local w) (remote w)
      (calls w ++ [CallGetInstalledManifest id])
      (logged w ++ [Infof "Installing %s@%s" [id; Version m];
                    Debugf "pak %s@%s already installed" [id; Version m]])))
  ∧ (∀ (s : Spec) (r1 : R),
       GetSpec id (remote w) = (Ok (Some s), r1) →
       CurrentVersion s = Version m →
       Install [mkInstallSpec id ""] w =
       (Returned tt,
        mkWorld (local w) r1
          (calls w ++ [CallGetInstalledManifest id; CallGetSpec id])
          (logged w ++ [Infof "Installing %s@%s" [id; ""];
                        Debugf "pak %s@%s already installed" [id; Version m]]))).
Proof.
  intros Hid Hm. split.
  - intros Hv. rewrite Install_one. apply wrapping_returned.
    rewrite (install_explicit _ _ _ (Some m) (local w)) by done.
    cbn [IS_ID IS_Version]. rewrite install_version_same.
    unfold looked_up, announced. cbn [local remote calls logged].
    by rewrite <-app_assoc.
  - intros s r1 Hs Hcv. rewrite Install_one. apply wrapping_returned.
    rewrite (install_latest _ _ _ (Some m) (local w) s r1) by done.
    cbn [IS_ID IS_Version]. rewrite Hcv, install_version_same.
    unfold resolved, announced. cbn [local remote calls logged].
    by rewrite <-app_assoc.
Qed.

(** C3: an empty version is resolved right after the lookup of the
    installed manifest, by one [GetSpec] on the source as it is at the
    call; from there [install] runs as it does for the explicit version
    [currentVersion].  Without a catalog entry it fails with
    [ErrSpecNotFound] and has made no other call: a local store whose
    lookup is a read is as it was. *)
Theorem install_resolves_empty_version w (id : string) (upgrade : bool)
  (existing : option Manifest) (l1 : L) :
  id ≠ "" →
  GetInstalledManifest id (local w) = (Ok existing, l1) →
  (∀ (s : Spec) (r1 : R),
     GetSpec id (remote w) = (Ok (Some s), r1) →
     install (mkInstallSpec id "") upgrade w =
     install_version id (CurrentVersion s) existing upgrade
       (resolved id l1 r1 w))
  ∧ (∀ version : string,
       version ≠ "" →
       install (mkInstallSpec id version) upgrade w =
       install_version id version existing upgrade (looked_up id l1 w))
  ∧ (∀ r1 : R,
       GetSpec id (remote w) = (Ok None, r1) →
       install (mkInstallSpec id "") upgrade w =
       (Failed ErrSpecNotFound, resolved id l1 r1 w))
  ∧ (read_only_lookup L → l1 = local w).
Proof.
  intros Hid Hl. split_and!.
  - intros s r1 Hs.
    by apply (install_latest (mkInstallSpec id "") _ _ existing l1 s r1).
  - intros version Hv.
    by apply (install_explicit (mkInstallSpec id version) _ _ existing l1).
  - intros r1 Hs.
    by apply (install_not_found (mkInstallSpec id "") _ _ existing l1 r1).
  - intros Hro. specialize (Hro id (local w)). by rewrite Hl in Hro.
Qed.

(** C6: [Install] takes the specs in order.  When the specs before one
    have succeeded and that one fails, the call returns its error wrapped
    with its id and version, in the world the failed [install] left: the
    specs after it are not looked at, and nothing is undone.  A successful
    call means that every spec was installed with success, each from the
    world left by the one before. *)
Theorem Install_stops_at_first_failure :
  (∀ (pre post : list InstallSpec) (spec : InstallSpec) w w1 w2 (e : error),
     Install pre w = (Returned tt, w1) →
     install spec false (announced spec w1) = (Failed e, w2) →
     Install (pre ++ spec :: post) w =
     (Failed (Errorf "installing pak %s@%s: %w"
                [IS_ID spec; IS_Version spec] e), w2))
  ∧ (∀ (specs : list InstallSpec) w w',
       Install specs w = (Returned tt, w') ↔ each_installed specs w w').
Proof.
  split.
  - intros pre post spec w w1 w2 e Hpre Hspec.
    rewrite (Install_app pre _ w w1) by done.
    rewrite Install_cons. by rewrite (wrapping_failed _ _ _ _ e w2).
  - apply each_installed_Install.
Qed.

End install_claims.

Lemma fs_read_only_lookup `{!yaml.Codec} `{!os.Faults} :
  read_only_lookup fs.store.
Proof. intros id l. reflexivity. Qed.

Section install_examples.
Import pak example.

Lemma install_same_version_is_noop_witness :
  Install [mkInstallSpec "widget" "2.0.0"] (start widget2_store) =
  (Returned tt,
   mkWorld widget2_store source [CallGetInstalledManifest "widget"]
     [Infof "Installing %s@%s" ["widget"; "2.0.0"];
      Debugf "pak %s@%s already installed" ["widget"; "2.0.0"]])
  ∧ Install [mkInstallSpec "widget" ""] (start widget2_store) =
    (Returned tt,
     mkWorld widget2_store source
       [CallGetInstalledManifest "widget"; CallGetSpec "widget"]
       [Infof "Installing %s@%s" ["widget"; ""];
        Debugf "pak %s@%s already installed" ["widget"; "2.0.0"]]).
Proof.
  destruct (install_same_version_is_noop (start widget2_store) "widget" widget2)
    as [Hexplicit Hlatest].
  - done.
  - vm_compute. reflexivity.
  - split.
    + apply Hexplicit. done.
    + apply (Hlatest widget_spec source).
      * vm_compute. reflexivity.
      * reflexivity.
Defined.

Lemma install_resolves_empty_version_witness :
  install (mkInstallSpec "nope" "") false (start widget1_store) =
  (Failed ErrSpecNotFound,
   mkWorld widget1_store source
     [CallGetInstalledManifest "nope"; CallGetSpec "nope"] [])
  ∧ install (mkInstallSpec "widget" "") false (start widget1_store) =
    install_version "widget" "2.0.0" (Some widget1) false
      (mkWorld widget1_store source
         [CallGetInstalledManifest "widget"; CallGetSpec "widget"] []).
Proof.
  split.
  - destruct (install_resolves_empty_version (start widget1_store) "nope" false
                None (GetInstalledManifest "nope" widget1_store).2)
      as (_ & _ & Hnone & Hread).
    + done.
    + vm_compute. reflexivity.
    + rewrite (Hnone source) by (vm_compute; reflexivity).
      by rewrite (Hread fs_read_only_lookup).
  - destruct (install_resolves_empty_version (start widget1_store) "widget"
                false (Some widget1) widget1_store) as (Hsome & _ & _ & _).
    + done.
    + vm_compute. reflexivity.
    + apply (Hsome widget_spec source). vm_compute. reflexivity.
Defined.

Lemma Install_stops_at_first_failure_witness :
  let specs := [mkInstallSpec "gadget" ""; mkInstallSpec "nope" "";
                mkInstallSpec "widget" ""] in
  let w' := (Install specs (start empty_store)).2 in
  Install specs (start empty_store) =
  (Failed (Errorf "installing pak %s@%s: %w" ["nope"; ""] ErrSpecNotFound), w')
  ∧ fs.GetInstalledManifest local_repo "gadget" (fs.files (local w'))
    = Ok (Some gadget1)
  ∧ calls w' =
    [CallGetInstalledManifest "gadget"; CallGetSpec "gadget";
     CallGetManifest "gadget" "0.1.0"; CallGetFile "gadget" "0.1.0" "gadget.js";
     CallWrite "gadget" "0.1.0" "gadget.js" (bytes_NewReader "g1");
     CallWriteManifest gadget1;
     CallGetInstalledManifest "nope"; CallGetSpec "nope"].
Proof.
  intros specs w'. split_and!.
  - pose proof (@Install_stops_at_first_failure fs.store memory.Repository _ _)
      as [Hstop _].
    set (w1 := (Install [mkInstallSpec "gadget" ""] (start empty_store)).2).
    apply (Hstop [mkInstallSpec "gadget" ""] [mkInstallSpec "widget" ""]
                 (mkInstallSpec "nope" "") (start empty_store) w1 w').
    + vm_compute. reflexivity.
    + vm_compute. reflexivity.
  - vm_compute. reflexivity.
  - vm_compute. reflexivity.
Defined.

(** C4 (the code departs from it): with the upgrade flag set, [install] of a
    pak that is not installed dereferences the nil [existing] manifest in
    the operands of its log line and panics; with the flag clear the same
    call installs the pak. *)
Theorem upgrade_flag_changes_outcome :
  let spec := mkInstallSpec "gadget" "0.1.0" in
  (install spec true (start widget2_store)).1 = Panicked nil_dereference
  ∧ (install spec false (start widget2_store)).1 = Returned tt
  ∧ (Upgrade [spec] (start widget2_store)).1 = Panicked nil_dereference
  ∧ (Install [spec] (start widget2_store)).1 = Returned tt.
Proof. vm_compute. done. Qed.

End install_examples.

(** ** The upgrade flag *)
Section upgrade_flag.
Import pak.
Context {L R : Type} `{!WritableRepository L} `{!SourceRepository R}.

Lemma log_blind_ret {A} (a : A) : log_blind (L:=L) (R:=R) (mret a).
Proof. by intros w w' ???. Qed.

Lemma log_blind_fail {A} (e : error) : log_blind (L:=L) (R:=R) (A:=A) (fail e).
Proof. by intros w w' ???. Qed.

Lemma log_blind_log (l : logline) : log_blind (L:=L) (R:=R) (log l).
Proof. by intros w w' ???. Qed.

Lemma log_blind_on_local {A} (c : call) (f : L -> result A * L) :
  log_blind (R:=R) (on_local c f).
Proof.
  intros w w' Hl Hr Hc. unfold on_local, same_effects. rewrite Hl, Hr, Hc.
  by destruct (f (local w')) as [[?|?] ?].
Qed.

Lemma log_blind_on_remote {A} (c : call) (f : R -> result A * R) :
  log_blind (L:=L) (on_remote c f).
Proof.
  intros w w' Hl Hr Hc. unfold on_remote, same_effects. rewrite Hl, Hr, Hc.
  by destruct (f (remote w')) as [[?|?] ?].
Qed.

Lemma log_blind_wrapping {A} format args (c : M L R A) :
  log_blind c → log_blind (wrapping format args c).
Proof.
  intros Hc w w' Hl Hr Hcalls. specialize (Hc w w' Hl Hr Hcalls).
  unfold wrapping, same_effects in *.
  destruct (c w) as [[?|?|?] ?], (c w') as [[?|?|?] ?]; naive_solver.
Qed.

Lemma log_blind_bind {A B} (c : M L R A) (k : A -> M L R B) :
  log_blind c → (∀ a, log_blind (k a)) → log_blind (c ≫= k).
Proof.
  intros Hc Hk w w' Hl Hr Hcalls. specialize (Hc w w' Hl Hr Hcalls).
  rewrite !run_bind. unfold same_effects in Hc.
  destruct (c w) as [[a|e|msg] w1], (c w') as [[a'|e'|msg'] w1'];
    cbn [fst snd] in Hc; destruct Hc as (Ho & Hl1 & Hr1 & Hc1);
    try discriminate Ho.
  - injection Ho as <-. by apply Hk.
  - injection Ho as ->. by unfold same_effects.
  - injection Ho as ->. by unfold same_effects.
Qed.

Lemma log_blind_for_range {A} (xs : list A) (body : A -> M L R unit) :
  (∀ x, log_blind (body x)) → log_blind (for_range xs body).
Proof.
  intros Hbody. induction xs as [|x xs IH]; [apply (log_blind_ret tt)|].
  apply (log_blind_bind (body x) (fun _ => for_range xs body)); [done|].
  by intros _.
Qed.

Lemma log_blind_downloadFile (id version file : string) :
  log_blind (L:=L) (R:=R) (downloadFile id version file).
Proof.
  apply log_blind_bind.
  - apply log_blind_wrapping, log_blind_on_remote.
  - intros [data|]; [apply log_blind_wrapping, log_blind_on_local|].
    by intros w w' ???.
Qed.

Lemma log_blind_install_files (id version : string) (existing : option Manifest) :
  log_blind (L:=L) (R:=R)
    (manifest ← wrapping "getting remote pak manifest: %w" []
       (on_remote (CallGetManifest id version) (GetManifest id version));
     match manifest with
     | None => fail (ManifestNotFoundError version)
     | Some manifest =>
         (if existing is Some _
          then wrapping "uninstalling existing version: %w" [] (uninstall id)
          else mret tt);;
         for_range (Files manifest) (fun file =>
           wrapping "downloading file %q: %w" [file]
             (downloadFile id version file));;
         wrapping "writing local pak manifest: %w" []
           (on_local (CallWriteManifest manifest) (WriteManifest manifest))
     end).
Proof.
  apply log_blind_bind.
  - apply log_blind_wrapping, log_blind_on_remote.
  - intros [manifest|]; [|apply log_blind_fail].
    apply log_blind_bind.
    + destruct existing; [|apply log_blind_ret].
      apply log_blind_wrapping, log_blind_wrapping, log_blind_on_local.
    + intros _. apply log_blind_bind.
      * apply log_blind_for_range. intros file.
        apply log_blind_wrapping, log_blind_downloadFile.
      * intros _. apply log_blind_wrapping, log_blind_on_local.
Qed.

(** Where the pak is installed, the upgrade flag adds a line to the log and
    changes nothing else. *)
Lemma upgrade_flag_only_logs_when_installed (id version : string)
  (e : Manifest) (w : world L R) :
  same_effects (install_version id version (Some e) true w)
               (install_version id version (Some e) false w).
Proof.
  unfold install_version. case_decide; [done|].
  rewrite (run_bind (log _)), (run_bind (mret tt)).
  unfold log, mret, M_ret, ret.
  by apply (log_blind_install_files id version (Some e)).
Qed.

End upgrade_flag.

(** ** Upgradable *)
Section upgradable.
Import pak.
Context {L R : Type} `{!WritableRepository L} `{!SourceRepository R}.

Implicit Types w : world L R.

Lemma upgradable_entry_of (pak : Manifest) (spec : Spec) :
  upgradable_entry pak spec =
  if decide (Version pak = CurrentVersion spec) then None
  else Some (upgradable_of pak spec).
Proof.
  unfold upgradable_entry, upgradable_of.
  destruct (decide (CurrentVersion spec ≠ Version pak)) as [Hne|Heq].
  - by rewrite decide_False by done.
  - apply dec_stable in Heq. by rewrite decide_True by done.
Qed.

Lemma GetSpec_step (pak : Manifest) (catalog : SpecIndex) w :
  serves_catalog catalog (remote w) →
  wrapping "getting latest version: %w" []
    (on_remote (CallGetSpec (ID pak)) (GetSpec (ID pak))) w =
  (Returned (catalog !! ID pak),
   mkWorld (local w) (remote w) (calls w ++ [CallGetSpec (ID pak)]) (logged w)).
Proof.
  intros Hc. apply wrapping_returned. apply on_remote_ok, Hc.
Qed.

Lemma Upgradable_loop_returns (catalog : SpecIndex) installed acc w :
  serves_catalog catalog (remote w) →
  Forall (fun pak => is_Some (catalog !! ID pak)) installed →
  Upgradable_loop installed acc w =
  (Returned (acc ++ outdated catalog installed),
   mkWorld (local w) (remote w)
     (calls w ++ (CallGetSpec ∘ ID <$> installed)) (logged w)).
Proof.
  intros Hc Hall. revert acc w Hc.
  induction Hall as [|pak installed [spec Hspec] _ IH]; intros acc w Hc.
  - simpl. unfold mret, M_ret, ret. rewrite !app_nil_r. by destruct w.
  - simpl Upgradable_loop. rewrite run_bind, (GetSpec_step pak catalog) by done.
    rewrite Hspec, IH by done.
    cbn [local remote calls logged]. unfold outdated. simpl omap.
    rewrite Hspec. simpl. rewrite upgradable_entry_of.
    rewrite <-app_assoc. simpl.
    by destruct (decide (Version pak = CurrentVersion spec));
      rewrite <-?app_assoc.
Qed.

Lemma Upgradable_loop_panics (catalog : SpecIndex) installed acc w :
  serves_catalog catalog (remote w) →
  Exists (fun pak => catalog !! ID pak = None) installed →
  ∃ w', Upgradable_loop installed acc w = (Panicked nil_dereference, w').
Proof.
  intros Hc Hex. revert acc w Hc.
  induction installed as [|pak installed IH]; intros acc w Hc.
  { by apply Exists_nil in Hex. }
  simpl Upgradable_loop. rewrite run_bind, (GetSpec_step pak catalog) by done.
  destruct (catalog !! ID pak) as [spec|] eqn:Hspec.
  - apply Exists_cons in Hex as [Hex|Hex]; [congruence|].
    by apply IH.
  - unfold panic. eauto.
Qed.

Lemma Upgradable_loop_total (I : R → Prop) installed acc w msg w' :
  I (remote w) →
  (∀ (id : string) (r : R), I r → I (GetSpec id r).2) →
  (∀ (pak : Manifest) (r : R),
     pak ∈ installed → I r → (GetSpec (ID pak) r).1 ≠ Ok None) →
  Upgradable_loop installed acc w ≠ (Panicked msg, w').
Proof.
  intros Hw Hstable.
  revert acc w Hw. induction installed as [|pak installed IH];
    intros acc w Hw Hsome.
  { done. }
  simpl Upgradable_loop. rewrite run_bind.
  destruct (wrapping _ _ _ w) as [[spec|e|msg'] w1] eqn:Hstep; [| done |].
  - apply wrapping_returned, on_remote_returned_inv in Hstep as (r' & Hg & ->).
    destruct spec as [spec|].
    + apply IH.
      * cbn [remote]. specialize (Hstable (ID pak) (remote w) Hw).
        by rewrite Hg in Hstable.
      * intros pak' r Hin. apply Hsome. by right.
    + exfalso. apply (Hsome pak (remote w)); [by left|done|]. by rewrite Hg.
  - apply wrapping_panicked in Hstep. by apply on_remote_not_panicked in Hstep.
Qed.

Lemma Upgradable_listed installed l1 w :
  ListInstalled (local w) = (Ok installed, l1) →
  Upgradable w =
  Upgradable_loop installed []
    (mkWorld l1 (remote w) (calls w ++ [CallListInstalled]) (logged w)).
Proof.
  intros Hl. unfold Upgradable. rewrite run_bind.
  by rewrite (proj2 (wrapping_returned _ _ _ _ _ _) (on_local_ok _ _ _ _ _ Hl)).
Qed.

(** C7: every installed pak whose version is not the current version of
    its catalog entry gives one entry, made of the installed id, version
    and date and of the latest version and update time of the source; a
    pak at the current version gives none; the entries come in the order
    of [ListInstalled]. *)
Theorem Upgradable_lists_outdated (catalog : SpecIndex)
  (installed : list Manifest) (l1 : L) w :
  ListInstalled (local w) = (Ok installed, l1) →
  serves_catalog catalog (remote w) →
  Forall (fun pak => is_Some (catalog !! ID pak)) installed →
  Upgradable w =
    (Returned (outdated catalog installed),
     mkWorld l1 (remote w)
       (calls w ++ CallListInstalled :: (CallGetSpec ∘ ID <$> installed))
       (logged w))
  ∧ (∀ (pak : Manifest) (spec : Spec),
       pak ∈ installed → catalog !! ID pak = Some spec →
       Version pak ≠ CurrentVersion spec →
       upgradable_of pak spec ∈ outdated catalog installed)
  ∧ (∀ u : UpgradableSpec,
       u ∈ outdated catalog installed →
       ∃ (pak : Manifest) (spec : Spec),
         pak ∈ installed ∧ catalog !! ID pak = Some spec
         ∧ Version pak ≠ CurrentVersion spec ∧ u = upgradable_of pak spec).
Proof.
  intros Hl Hc Hall. split_and!.
  - rewrite (Upgradable_listed installed l1) by done.
    rewrite (Upgradable_loop_returns catalog) by done.
    cbn [local remote calls logged]. by rewrite <-app_assoc.
  - intros pak spec Hin Hspec Hne. unfold outdated.
    apply list_elem_of_omap. exists pak. split; [done|].
    rewrite Hspec. simpl. by rewrite decide_False.
  - intros u Hu. unfold outdated in Hu.
    apply list_elem_of_omap in Hu as (pak & Hin & Hu).
    destruct (catalog !! ID pak) as [spec|] eqn:Hspec; [|done].
    simpl in Hu. case_decide; [done|]. injection Hu as <-.
    by exists pak, spec.
Qed.

(** C10: [Upgradable] reads [CurrentVersion] from the result of [GetSpec]
    without a nil check.  As long as the source, in the states [I] it can
    be in, never answers nil for an installed id, [Upgradable] does not
    panic; with every installed id in the catalog it returns its list; an
    installed id that the catalog lacks makes it panic on the nil
    dereference. *)
Theorem Upgradable_needs_catalog_entries (catalog : SpecIndex)
  (installed : list Manifest) (l1 : L) w :
  ListInstalled (local w) = (Ok installed, l1) →
  (∀ I : R → Prop,
     I (remote w) →
     (∀ (id : string) (r : R), I r → I (GetSpec id r).2) →
     (∀ (pak : Manifest) (r : R),
        pak ∈ installed → I r → (GetSpec (ID pak) r).1 ≠ Ok None) →
     ∀ msg w', Upgradable w ≠ (Panicked msg, w'))
  ∧ (serves_catalog catalog (remote w) →
     Forall (fun pak => is_Some (catalog !! ID pak)) installed →
     ∃ us w', Upgradable w = (Returned us, w'))
  ∧ (serves_catalog catalog (remote w) →
     Exists (fun pak => catalog !! ID pak = None) installed →
     ∃ w', Upgradable w = (Panicked nil_dereference, w')).
Proof.
  intros Hl. rewrite (Upgradable_listed installed l1) by done. split_and!.
  - intros I Hw Hstable Hsome msg w'. by apply (Upgradable_loop_total I).
  - intros Hc Hall. rewrite (Upgradable_loop_returns catalog) by done. eauto.
  - intros Hc Hex. by apply (Upgradable_loop_panics catalog).
Qed.

End upgradable.

Lemma memory_serves_catalog (r : memory.Repository) :
  serves_catalog (memory.Index r) r.
Proof.
  intros id. unfold pak.GetSpec; simpl. unfold memory.GetSpec.
  by destruct (memory.Index r !! id).
Qed.

Section upgradable_examples.
Import pak example.

Lemma Upgradable_lists_outdated_witness :
  (Upgradable (start widget1_store)).1 =
    Returned [upgradable_of widget1 widget_spec]
  ∧ (Upgradable (start widget2_store)).1 = Returned [].
Proof.
  split.
  - destruct (Upgradable_lists_outdated catalog [widget1] widget1_store
                (start widget1_store)) as (-> & _ & _).
    + vm_compute. reflexivity.
    + apply memory_serves_catalog.
    + apply (bool_decide_unpack _). vm_compute. reflexivity.
    + vm_compute. reflexivity.
  - destruct (Upgradable_lists_outdated catalog [widget2] widget2_store
                (start widget2_store)) as (-> & _ & _).
    + vm_compute. reflexivity.
    + apply memory_serves_catalog.
    + apply (bool_decide_unpack _). vm_compute. reflexivity.
    + vm_compute. reflexivity.
Defined.

Lemma Upgradable_needs_catalog_entries_witness :
  (∀ msg w', Upgradable (start widget1_store) ≠ (Panicked msg, w'))
  ∧ (∃ us w', Upgradable (start widget1_store) = (Returned us, w'))
  ∧ (∃ w', Upgradable (start orphan_store) = (Panicked nil_dereference, w')).
Proof.
  split_and!.
  - destruct (Upgradable_needs_catalog_entries catalog [widget1] widget1_store
                (start widget1_store)) as (Htotal & _ & _).
    + vm_compute. reflexivity.
    + apply (Htotal (fun r => r = source)).
      * reflexivity.
      * intros id r ->. by rewrite memory_serves_catalog.
      * intros pak r ->%list_elem_of_singleton ->. vm_compute. discriminate.
  - destruct (Upgradable_needs_catalog_entries catalog [widget1] widget1_store
                (start widget1_store)) as (_ & Hreturns & _).
    + vm_compute. reflexivity.
    + apply Hreturns.
      * apply memory_serves_catalog.
      * apply (bool_decide_unpack _). vm_compute. reflexivity.
  - destruct (Upgradable_needs_catalog_entries catalog [orphan] orphan_store
                (start orphan_store)) as (_ & _ & Hpanics).
    + vm_compute. reflexivity.
    + apply Hpanics.
      * apply memory_serves_catalog.
      * apply (bool_decide_unpack _). vm_compute. reflexivity.
Defined.

End upgradable_examples.

(** ** The [fs] store: Delete *)
Section fs_delete.
Import pak.
Context `{!yaml.Codec}.

Implicit Types (r : fs.Repository) (d : os.disk) (m : Manifest).

Lemma os_Remove_present (path : string) d :
  is_Some (d !! path) → os.Remove path d = (Ok tt, delete path d).
Proof. intros [f Hf]. unfold os.Remove. by rewrite Hf. Qed.

Lemma remove_files_frame r id (fs : list string) d res d' :
  fs.remove_files r id fs d = (res, d') →
  ∀ p : string, p ∉ fs.filePath r id <$> fs → d' !! p = d !! p.
Proof.
  revert d. induction fs as [|f fs IH]; intros d Hrun p Hp.
  { by injection Hrun as _ <-. }
  simpl in Hrun. rewrite fmap_cons, not_elem_of_cons in Hp.
  destruct Hp as [Hne Hp]. unfold os.Remove in Hrun.
  destruct (d !! fs.filePath r id f) eqn:Hf.
  - rewrite (IH _ Hrun p Hp). by apply lookup_delete_ne.
  - by injection Hrun as _ <-.
Qed.

Lemma remove_files_ok_inv r id (fs : list string) d d' :
  fs.remove_files r id fs d = (Ok tt, d') →
  NoDup (fs.filePath r id <$> fs)
  ∧ Forall (fun p => is_Some (d !! p)) (fs.filePath r id <$> fs)
  ∧ ∀ p : string, p ∈ fs.filePath r id <$> fs → d' !! p = None.
Proof.
  revert d. induction fs as [|f fs IH]; intros d Hrun.
  { split_and!; [constructor|constructor|]. by intros p ?%elem_of_nil. }
  simpl in Hrun. unfold os.Remove in Hrun.
  destruct (d !! fs.filePath r id f) as [data|] eqn:Hf; [|done].
  destruct (IH _ Hrun) as (Hnd & Hall & Hgone).
  assert (fs.filePath r id f ∉ fs.filePath r id <$> fs) as Hnotin.
  { intros Hin. rewrite Forall_forall in Hall.
    destruct (Hall _ Hin) as [? Hl]. by rewrite lookup_delete_eq in Hl. }
  rewrite fmap_cons. split_and!.
  - by constructor.
  - constructor; [by eexists|].
    eapply Forall_impl; [exact Hall|]. intros p [x Hx].
    exists x. by apply lookup_delete_Some in Hx as [_ ?].
  - intros p [->|Hp]%elem_of_cons; [|by apply Hgone].
    rewrite (remove_files_frame _ _ _ _ _ _ Hrun) by done.
    apply lookup_delete_eq.
Qed.

Lemma remove_files_succeeds r id (fs : list string) d :
  NoDup (fs.filePath r id <$> fs) →
  Forall (fun p => is_Some (d !! p)) (fs.filePath r id <$> fs) →
  ∃ d', fs.remove_files r id fs d = (Ok tt, d').
Proof.
  revert d. induction fs as [|f fs IH]; intros d Hnd Hall.
  { by eexists. }
  rewrite fmap_cons in Hnd, Hall.
  apply NoDup_cons in Hnd as [Hnotin Hnd].
  apply Forall_cons in Hall as [Hf Hall].
  simpl. rewrite os_Remove_present by done. apply IH; [done|].
  rewrite Forall_forall in Hall |- *. intros p Hp.
  destruct (Hall p Hp) as [x Hx]. exists x.
  rewrite lookup_delete_ne; [done|]. by intros <-.
Qed.

Lemma remove_files_err_inv r id (fs : list string) d (e : error) d' :
  fs.remove_files r id fs d = (Err e, d') →
  ∃ p : string,
    p ∈ fs.filePath r id <$> fs
    ∧ e = Errorf "failed to remove file %q: %w" [p]
            (PathError "remove" p ErrNotExist)
    ∧ d' !! p = None.
Proof.
  revert d. induction fs as [|f fs IH]; intros d Hrun; [done|].
  simpl in Hrun. unfold os.Remove in Hrun. rewrite fmap_cons.
  destruct (d !! fs.filePath r id f) as [data|] eqn:Hf.
  - destruct (IH _ Hrun) as (p & Hp & He & Hgone).
    exists p. split_and!; [by right|done..].
  - injection Hrun as <- <-. exists (fs.filePath r id f).
    split_and!; [by left|done..].
Qed.

Lemma remove_files_fails r id (fs : list string) d :
  ¬ (NoDup (fs.filePath r id <$> fs)
     ∧ Forall (fun p => is_Some (d !! p)) (fs.filePath r id <$> fs)) →
  ∃ (e : error) d', fs.remove_files r id fs d = (Err e, d').
Proof.
  intros Hnot.
  destruct (fs.remove_files r id fs d) as [[[]|e] d'] eqn:Hrun; [|eauto].
  destruct Hnot.
  by destruct (remove_files_ok_inv _ _ _ _ _ Hrun) as (? & ? & _).
Qed.

Lemma GetInstalledManifest_ext r id d d' :
  d' !! fs.manifestPath r id = d !! fs.manifestPath r id →
  fs.GetInstalledManifest r id d' = fs.GetInstalledManifest r id d.
Proof.
  intros Heq. unfold fs.GetInstalledManifest, fs.getManifest, os.Open.
  by rewrite Heq.
Qed.

Lemma GetInstalledManifest_Some_present r id d m :
  fs.GetInstalledManifest r id d = Ok (Some m) →
  ∃ f, d !! fs.manifestPath r id = Some f ∧ yaml.ReadManifest f = Ok m.
Proof.
  unfold fs.GetInstalledManifest, fs.getManifest, os.Open.
  destruct (d !! fs.manifestPath r id) as [f|]; [|done].
  destruct (yaml.ReadManifest f) as [m'|e] eqn:Hread.
  - intros [= ->]. eauto.
  - by destruct (errors_Is_ErrNotExist e).
Qed.

Lemma ReadManifest_not_ErrNotExist (f : bytes) (e : error) :
  yaml.ReadManifest f = Err e → errors_Is_ErrNotExist e = false.
Proof.
  unfold yaml.ReadManifest. destruct (yaml.decode_Manifest f); [done|].
  by intros [= <-].
Qed.

Lemma GetInstalledManifest_None_absent r id d :
  fs.GetInstalledManifest r id d = Ok None ↔ d !! fs.manifestPath r id = None.
Proof.
  unfold fs.GetInstalledManifest, fs.getManifest, os.Open.
  destruct (d !! fs.manifestPath r id) as [f|]; [|done].
  destruct (yaml.ReadManifest f) as [m'|e] eqn:Hread; [done|].
  by rewrite (ReadManifest_not_ErrNotExist f e).
Qed.

Lemma Delete_not_installed r id d :
  fs.GetInstalledManifest r id d = Ok None → fs.Delete r id d = (Ok tt, d).
Proof. intros Hm. unfold fs.Delete. by rewrite Hm. Qed.

Lemma Delete_frame r id d m res d' :
  fs.GetInstalledManifest r id d = Ok (Some m) →
  fs.Delete r id d = (res, d') →
  ∀ p : string,
    p ∉ listed_paths r id m → p ≠ fs.manifestPath r id → d' !! p = d !! p.
Proof.
  intros Hm Hrun p Hp Hne. unfold fs.Delete in Hrun. rewrite Hm in Hrun.
  destruct (fs.remove_files r id (Files m) d) as [[[]|e] d1] eqn:Hfiles.
  - rewrite <-(remove_files_frame _ _ _ _ _ _ Hfiles p Hp).
    unfold os.Remove in Hrun.
    destruct (d1 !! fs.manifestPath r id); injection Hrun as _ <-; [|done].
    by apply lookup_delete_ne.
  - injection Hrun as _ <-. by apply (remove_files_frame _ _ _ _ _ _ Hfiles).
Qed.

Lemma Delete_ok_inv r id d m d' :
  fs.GetInstalledManifest r id d = Ok (Some m) →
  fs.Delete r id d = (Ok tt, d') →
  NoDup (listed_paths r id m)
  ∧ (fs.manifestPath r id ∉ listed_paths r id m)
  ∧ Forall (fun p => is_Some (d !! p)) (listed_paths r id m)
  ∧ ∀ p : string,
      d' !! p =
      if decide (p ∈ listed_paths r id m ∨ p = fs.manifestPath r id)
      then None else d !! p.
Proof.
  intros Hm Hrun. pose proof (Delete_frame _ _ _ _ _ _ Hm Hrun) as Hframe.
  unfold fs.Delete in Hrun. rewrite Hm in Hrun.
  destruct (fs.remove_files r id (Files m) d) as [[[]|e] d1] eqn:Hfiles; [|done].
  destruct (remove_files_ok_inv _ _ _ _ _ Hfiles) as (Hnd & Hall & Hgone).
  unfold os.Remove in Hrun.
  destruct (d1 !! fs.manifestPath r id) as [f|] eqn:Hmp; [|done].
  injection Hrun as <-.
  assert (fs.manifestPath r id ∉ listed_paths r id m) as Hnotin.
  { intros Hin. by rewrite (Hgone _ Hin) in Hmp. }
  split_and!; [done..|]. intros p. case_decide as Hp.
  - destruct (decide (p = fs.manifestPath r id)) as [->|Hne].
    + apply lookup_delete_eq.
    + rewrite lookup_delete_ne by done. apply Hgone. by destruct Hp.
  - apply Hframe; naive_solver.
Qed.

Lemma Delete_succeeds r id d m :
  fs.GetInstalledManifest r id d = Ok (Some m) →
  NoDup (listed_paths r id m) →
  fs.manifestPath r id ∉ listed_paths r id m →
  Forall (fun p => is_Some (d !! p)) (listed_paths r id m) →
  ∃ d', fs.Delete r id d = (Ok tt, d').
Proof.
  intros Hm Hnd Hnotin Hall.
  destruct (remove_files_succeeds r id (Files m) d Hnd Hall) as [d1 Hfiles].
  destruct (GetInstalledManifest_Some_present _ _ _ _ Hm) as (f & Hf & _).
  unfold fs.Delete. rewrite Hm, Hfiles.
  rewrite os_Remove_present; [by eexists|].
  rewrite (remove_files_frame _ _ _ _ _ _ Hfiles) by done. by eexists.
Qed.

End fs_delete.

(** ** Uninstall *)
Section uninstall.
Import pak.
Context {L R : Type} `{!WritableRepository L} `{!SourceRepository R}.

Lemma Uninstall_one (id : string) (w : world L R) :
  Uninstall [id] w =
  let w' := mkWorld (Delete id (local w)).2 (remote w)
              (calls w ++ [CallDelete id])
              (logged w ++ [Infof "Uninstalling %s" [id]]) in
  match (Delete id (local w)).1 with
  | Ok _ => (Returned tt, w')
  | Err e =>
      (Failed (Errorf "uninstalling pak %s: %w" [id]
                 (Errorf "deleting local pak: %w" [] e)), w')
  end.
Proof.
  unfold Uninstall, for_range, bind. rewrite run_bind.
  unfold uninstall, log, wrapping, on_local, ret.
  cbn beta iota delta [local remote calls logged].
  by destruct (Delete id (local w)) as [[[]|e] l'].
Qed.

End uninstall.

Section uninstall_fs.
Import pak.
Context `{!yaml.Codec} `{!os.Faults} {R : Type} `{!SourceRepository R}.

(** What [Uninstall] does when it goes through.  On a [fs] store,
    uninstalling an installed pak leaves every file that its manifest does
    not list (and that is not the manifest) as it was, whatever the
    outcome; a successful uninstall has removed the manifest and each
    listed file, all of which were there; it succeeds when the listed
    files are distinct files of the store.  Uninstalling an id without
    installed manifest succeeds and leaves the store as it was. *)
Theorem Uninstall_removes_listed_files (w : world fs.store R) (id : string) :
  let r := fs.repo (local w) in
  let d := fs.files (local w) in
  let mp := fs.manifestPath r id in
  (∀ m : Manifest,
     fs.GetInstalledManifest r id d = Ok (Some m) →
     (∀ out w',
        Uninstall [id] w = (out, w') →
        fs.repo (local w') = r ∧ remote w' = remote w
        ∧ ∀ p : string,
            p ∉ listed_paths r id m → p ≠ mp →
            fs.files (local w') !! p = d !! p)
     ∧ (∀ w',
          Uninstall [id] w = (Returned tt, w') →
          Forall (fun p => is_Some (d !! p)) (mp :: listed_paths r id m)
          ∧ ∀ p : string,
              fs.files (local w') !! p =
              if decide (p ∈ listed_paths r id m ∨ p = mp) then None
              else d !! p)
     ∧ (NoDup (mp :: listed_paths r id m) →
        Forall (fun p => is_Some (d !! p)) (listed_paths r id m) →
        ∃ w', Uninstall [id] w = (Returned tt, w')))
  ∧ (fs.GetInstalledManifest r id d = Ok None →
     Uninstall [id] w =
     (Returned tt,
      mkWorld (local w) (remote w) (calls w ++ [CallDelete id])
        (logged w ++ [Infof "Uninstalling %s" [id]]))).
Proof.
  intros r d mp. rewrite Uninstall_one.
  unfold Delete; simpl. unfold fs.writing. fold r d.
  destruct (fs.Delete r id d) as [res d'] eqn:Hdel. cbn [fst snd].
  split.
  - intros m Hm. split_and!.
    + intros out w' Hrun.
      assert (local w' = fs.mkStore r d' ∧ remote w' = remote w) as [Hl Hr].
      { by destruct res as [[]|e]; injection Hrun as _ <-. }
      rewrite Hl, Hr. split_and!; [done..|].
      by apply (Delete_frame r id d m res d').
    + intros w' Hrun. destruct res as [[]|e]; [|done].
      injection Hrun as <-. cbn [local fs.files].
      destruct (Delete_ok_inv _ _ _ _ _ Hm Hdel) as (_ & _ & Hall & Hlook).
      split; [|done]. constructor; [|done].
      destruct (GetInstalledManifest_Some_present _ _ _ _ Hm) as (f & Hf & _).
      by eexists.
    + intros [Hnotin Hnd]%NoDup_cons Hall.
      destruct (Delete_succeeds r id d m Hm Hnd Hnotin Hall) as [d'' Hok].
      rewrite Hok in Hdel. injection Hdel as <- <-. eauto.
  - intros Hm. rewrite (Delete_not_installed _ _ _ Hm) in Hdel.
    injection Hdel as <- <-. by destruct w as [[] ? ? ?].
Qed.

(** C5: [Uninstall] does not remove every installed pak.  When the
    manifest of an installed pak lists a file twice, or lists a file that
    is not in the store, [Delete] returns the error of the first
    [os.Remove] that fails, before it reaches the manifest: [Uninstall]
    fails, the manifest stays installed, and one of the listed files is
    missing afterwards, so that every later [Uninstall] of the pak fails in
    the same way. *)
Theorem Uninstall_stuck_on_unremovable_file (w : world fs.store R)
  (id : string) (m : Manifest) :
  let r := fs.repo (local w) in
  let d := fs.files (local w) in
  fs.GetInstalledManifest r id d = Ok (Some m) →
  fs.manifestPath r id ∉ listed_paths r id m →
  ¬ (NoDup (listed_paths r id m)
     ∧ Forall (fun p => is_Some (d !! p)) (listed_paths r id m)) →
  ∃ (p : string) (e : error) (w' : world fs.store R),
    p ∈ listed_paths r id m
    ∧ Uninstall [id] w =
      (Failed (Errorf "uninstalling pak %s: %w" [id]
                 (Errorf "deleting local pak: %w" []
                    (Errorf "failed to remove file %q: %w" [p] e))), w')
    ∧ fs.repo (local w') = r
    ∧ fs.GetInstalledManifest r id (fs.files (local w')) = Ok (Some m)
    ∧ fs.files (local w') !! p = None.
Proof.
  intros r d Hm Hmp Hnot. rewrite Uninstall_one.
  unfold Delete; simpl. unfold fs.writing, fs.Delete. fold r d.
  rewrite Hm.
  destruct (remove_files_fails r id (Files m) d Hnot) as (e & d' & Hfiles).
  rewrite Hfiles. cbn [fst snd].
  destruct (remove_files_err_inv _ _ _ _ _ _ Hfiles) as (p & Hp & -> & Hgone).
  exists p. do 2 eexists. split_and!; [done|reflexivity|done| |done].
  cbn [local fs.files]. rewrite <-Hm. apply GetInstalledManifest_ext.
  by apply (remove_files_frame _ _ _ _ _ _ Hfiles).
Qed.

End uninstall_fs.

Section uninstall_examples.
Import pak example.

Lemma Uninstall_removes_listed_files_witness :
  (∃ w', Uninstall ["widget"] (start widget1_store) = (Returned tt, w')
         ∧ fs.files (local w') = {[ "/paks/widget/notes.txt" := "mine" ]})
  ∧ (Uninstall ["gadget"] (start widget1_store)).1 = Returned tt
  ∧ local (Uninstall ["gadget"] (start widget1_store)).2 = widget1_store.
Proof.
  destruct (Uninstall_removes_listed_files (start widget1_store) "widget")
    as [Hinstalled _].
  destruct (Hinstalled widget1) as (_ & _ & Hsucceeds).
  { vm_compute. reflexivity. }
  destruct Hsucceeds as [w' Hw'].
  { apply (bool_decide_unpack _). vm_compute. reflexivity. }
  { apply (bool_decide_unpack _). vm_compute. reflexivity. }
  destruct (Uninstall_removes_listed_files (start widget1_store) "gadget")
    as [_ Habsent].
  split_and!.
  - exists w'. split; [done|].
    assert (w' = (Uninstall ["widget"] (start widget1_store)).2) as ->
      by by rewrite Hw'.
    vm_compute. reflexivity.
  - rewrite Habsent; [done|]. vm_compute. reflexivity.
  - rewrite Habsent; [done|]. vm_compute. reflexivity.
Defined.

Lemma Uninstall_stuck_on_unremovable_file_witness :
  let w := (Install [mkInstallSpec "twice" "1.0.0"]
              (mkWorld empty_store twice_source [] [])).2 in
  (Install [mkInstallSpec "twice" "1.0.0"]
     (mkWorld empty_store twice_source [] [])).1 = Returned tt
  ∧ (Uninstall ["twice"] w).1 =
    Failed (Errorf "uninstalling pak %s: %w" ["twice"]
              (Errorf "deleting local pak: %w" []
                 (Errorf "failed to remove file %q: %w" ["/paks/twice/a.js"]
                    (PathError "remove" "/paks/twice/a.js" ErrNotExist))))
  ∧ ∃ w' : world fs.store memory.Repository,
      (Uninstall ["twice"] w).2 = w'
      ∧ fs.GetInstalledManifest local_repo "twice" (fs.files (local w'))
        = Ok (Some twice).
Proof.
  intros w. split_and!; [vm_compute; reflexivity..|].
  destruct (Uninstall_stuck_on_unremovable_file w "twice" twice)
    as (p & e & w' & _ & Hrun & _ & Hm & _).
  - vm_compute. reflexivity.
  - apply (bool_decide_unpack _). vm_compute. reflexivity.
  - apply (bool_decide_unpack _). vm_compute. reflexivity.
  - exists w'. rewrite Hrun. split; [reflexivity|].
    etrans; [|exact Hm]. vm_compute. reflexivity.
Defined.

End uninstall_examples.

(** ** install over an installed version *)
Section download.
Import pak.
Context {L R : Type} `{!WritableRepository L} `{!SourceRepository R}.

Lemma downloadFile_returned_inv (id version file : string) (w w' : world L R) :
  downloadFile id version file w = (Returned tt, w') →
  ∃ (data : io.Reader) (r' : R) (l' : L),
    GetFile id version file (remote w) = (Ok (Some data), r')
    ∧ Write id version file data (local w) = (Ok tt, l')
    ∧ w' = mkWorld l' r'
             (calls w ++ [CallGetFile id version file;
                          CallWrite id version file data])
             (logged w).
Proof.
  unfold downloadFile. intros (rc & w1 & Hget & Hwrite)%bind_returned_inv.
  apply wrapping_returned, on_remote_returned_inv in Hget as (r' & Hget & ->).
  destruct rc as [data|]; [|done].
  apply wrapping_returned, on_local_returned_inv in Hwrite as (l' & Hwrite & ->).
  exists data, r', l'. cbn [local remote calls logged] in *.
  by rewrite <-app_assoc.
Qed.

End download.

(** ** The [fs] store: Write and WriteManifest *)
Section fs_write.
Import pak.
Context `{!yaml.Codec} `{!os.Faults}.

Implicit Types (s : fs.store) (d : os.disk).

Lemma os_File_Write_frame (path : string) (data : bytes) d res d' :
  os.File_Write path data d = (res, d') →
  ∀ p : string, p ≠ path → d' !! p = d !! p.
Proof.
  unfold os.File_Write. intros Hrun p Hp.
  destruct (os.Write_fault path data d) as [[written err]|];
    injection Hrun as _ <-; by rewrite lookup_insert_ne.
Qed.

Lemma os_Create_frame (path : string) d res d' :
  os.Create path d = (res, d') →
  ∀ p : string, p ≠ path → d' !! p = d !! p.
Proof.
  unfold os.Create. intros Hrun p Hp.
  destruct (os.Create_fault path d); injection Hrun as _ <-; [done|].
  by rewrite lookup_insert_ne.
Qed.

Lemma os_Copy_frame (path : string) (data : io.Reader) d res d' :
  os.Copy path data d = (res, d') →
  ∀ p : string, p ≠ path → d' !! p = d !! p.
Proof.
  unfold os.Copy. intros Hrun p Hp.
  destruct (os.File_Write path (io.content data) d) as [[[]|e] d1] eqn:Hw.
  - destruct (io.failure data); injection Hrun as _ <-;
      by apply (os_File_Write_frame _ _ _ _ _ Hw).
  - injection Hrun as _ <-. by apply (os_File_Write_frame _ _ _ _ _ Hw).
Qed.

Lemma fs_Write_frame r (id version file : string) (data : io.Reader) d res d' :
  fs.Write r id version file data d = (res, d') →
  ∀ p : string, p ≠ fs.filePath r id file → d' !! p = d !! p.
Proof.
  unfold fs.Write. cbv zeta. intros Hrun p Hp.
  destruct (os.MkdirAll _ d); [|by injection Hrun as _ <-].
  destruct (os.Create _ d) as [[[]|e] d1] eqn:Hcreate;
    [|injection Hrun as _ <-; by apply (os_Create_frame _ _ _ _ Hcreate)].
  destruct (os.Copy _ data d1) as [[[]|e] d2] eqn:Hcopy;
    injection Hrun as _ <-;
    rewrite (os_Copy_frame _ _ _ _ _ Hcopy) by done;
    by apply (os_Create_frame _ _ _ _ Hcreate).
Qed.

Lemma fs_Write_ok_inv r (id version file : string) (data : io.Reader) d d' :
  fs.Write r id version file data d = (Ok tt, d') →
  io.failure data = None
  ∧ d' = <[fs.filePath r id file := io.content data]> d.
Proof.
  unfold fs.Write, os.Create, os.Copy, os.File_Write. cbv zeta.
  destruct (os.MkdirAll _ d); [|done].
  destruct (os.Create_fault _ d); [done|].
  destruct (os.Write_fault _ _ _) as [[written err]|]; [done|].
  destruct (io.failure data); [done|].
  intros [= <-]. by rewrite insert_insert_eq.
Qed.

Lemma fs_WriteManifest_frame r (m : Manifest) d res d' :
  fs.WriteManifest r m d = (res, d') →
  ∀ p : string, p ≠ fs.manifestPath r (ID m) → d' !! p = d !! p.
Proof.
  unfold fs.WriteManifest. cbv zeta. intros Hrun p Hp.
  destruct (os.MkdirAll _ d); [|by injection Hrun as _ <-].
  destruct (os.Create _ d) as [[[]|e] d1] eqn:Hcreate;
    [|injection Hrun as _ <-; by apply (os_Create_frame _ _ _ _ Hcreate)].
  destruct (os.File_Write _ _ d1) as [[[]|e] d2] eqn:Hwrite;
    injection Hrun as _ <-;
    rewrite (os_File_Write_frame _ _ _ _ _ Hwrite) by done;
    by apply (os_Create_frame _ _ _ _ Hcreate).
Qed.

Lemma fs_WriteManifest_ok_inv r (m : Manifest) d d' :
  fs.WriteManifest r m d = (Ok tt, d') →
  d' = <[fs.manifestPath r (ID m) := yaml.WriteManifest m]> d.
Proof.
  unfold fs.WriteManifest, os.Create, os.File_Write. cbv zeta.
  destruct (os.MkdirAll _ d); [|done].
  destruct (os.Create_fault _ d); [done|].
  destruct (os.Write_fault _ _ _) as [[written err]|]; [done|].
  intros [= <-]. by rewrite insert_insert_eq.
Qed.

(** A failed [WriteManifest] leaves the files as they were, unless the
    write into the created manifest file broke off. *)
Lemma fs_WriteManifest_err_inv r (m : Manifest) d (e : error) d' :
  fs.WriteManifest r m d = (Err e, d') →
  d' = d
  ∨ ∃ (written : bytes) (err : error),
      e = Errorf "failed to write manifest: %w" [] (yaml.encode_error err)
      ∧ d' = <[fs.manifestPath r (ID m) := written]> d.
Proof.
  unfold fs.WriteManifest, os.Create, os.File_Write. cbv zeta.
  destruct (os.MkdirAll _ d); [|intros [= _ <-]; by left].
  destruct (os.Create_fault _ d); [intros [= _ <-]; by left|].
  destruct (os.Write_fault _ _ _) as [[written err]|]; [|done].
  intros [= <- <-]. right. exists written, err.
  by rewrite insert_insert_eq.
Qed.

Lemma Write_returned_fs (id version file : string) (data : io.Reader) s s' :
  Write id version file data s = (Ok tt, s') →
  io.failure data = None
  ∧ s' = fs.mkStore (fs.repo s)
           (<[fs.filePath (fs.repo s) id file := io.content data]> (fs.files s)).
Proof.
  unfold Write; simpl. unfold fs.writing.
  destruct (fs.Write _ id version file data _) as [res d'] eqn:Hwrite.
  intros [= -> <-]. by apply fs_Write_ok_inv in Hwrite as [? ->].
Qed.

Lemma WriteManifest_returned_fs (m : Manifest) s s' :
  WriteManifest m s = (Ok tt, s') →
  s' = fs.mkStore (fs.repo s)
         (<[fs.manifestPath (fs.repo s) (ID m) := yaml.WriteManifest m]>
            (fs.files s)).
Proof.
  unfold WriteManifest; simpl. unfold fs.writing.
  destruct (fs.WriteManifest _ m _) as [res d'] eqn:Hwrite.
  intros [= -> <-]. by apply fs_WriteManifest_ok_inv in Hwrite as ->.
Qed.

Lemma Write_frame_fs (id version file : string) (data : io.Reader) s res s' :
  Write id version file data s = (res, s') →
  fs.repo s' = fs.repo s
  ∧ ∀ p : string,
      p ≠ fs.filePath (fs.repo s) id file →
      fs.files s' !! p = fs.files s !! p.
Proof.
  unfold Write; simpl. unfold fs.writing.
  destruct (fs.Write _ id version file data _) as [res' d'] eqn:Hwrite.
  intros [= _ <-]. split; [done|]. by apply (fs_Write_frame _ _ _ _ _ _ _ _ Hwrite).
Qed.

Lemma WriteManifest_frame_fs (m : Manifest) s res s' :
  WriteManifest m s = (res, s') →
  fs.repo s' = fs.repo s
  ∧ ∀ p : string,
      p ≠ fs.manifestPath (fs.repo s) (ID m) →
      fs.files s' !! p = fs.files s !! p.
Proof.
  unfold WriteManifest; simpl. unfold fs.writing.
  destruct (fs.WriteManifest _ m _) as [res' d'] eqn:Hwrite.
  intros [= _ <-]. split; [done|].
  by apply (fs_WriteManifest_frame _ _ _ _ _ Hwrite).
Qed.

Lemma WriteManifest_failed_fs (m : Manifest) s (e : error) s' :
  WriteManifest m s = (Err e, s') →
  s' = fs.mkStore (fs.repo s) (fs.files s)
  ∨ ∃ (written : bytes) (err : error),
      e = Errorf "failed to write manifest: %w" [] (yaml.encode_error err)
      ∧ s' = fs.mkStore (fs.repo s)
               (<[fs.manifestPath (fs.repo s) (ID m) := written]> (fs.files s)).
Proof.
  unfold WriteManifest; simpl. unfold fs.writing.
  destruct (fs.WriteManifest _ m _) as [res' d'] eqn:Hwrite.
  intros [= -> <-].
  apply fs_WriteManifest_err_inv in Hwrite as [->|(written & err & -> & ->)];
    [by left|right; eauto].
Qed.

End fs_write.

Section replace.
Import pak.
Context `{!yaml.Codec} `{!os.Faults} {R : Type} `{!SourceRepository R}.

Implicit Types w : world fs.store R.

Lemma is_download_weaken (id version file : string) (files : list string) c :
  is_download id version files c → is_download id version (file :: files) c.
Proof. destruct c; simpl; try done; intros (? & ? & ?); by repeat constructor. Qed.

Lemma downloads_fs (id version : string) (files : list string) w w' :
  for_range files
    (fun file => wrapping "downloading file %q: %w" [file]
                   (downloadFile id version file)) w = (Returned tt, w') →
  fs.repo (local w') = fs.repo (local w)
  ∧ logged w' = logged w
  ∧ (∀ p : string,
       is_Some (fs.files (local w') !! p) ↔
       p ∈ fs.filePath (fs.repo (local w)) id <$> files
       ∨ is_Some (fs.files (local w) !! p))
  ∧ ∃ downloads : list call,
      calls w' = calls w ++ downloads
      ∧ Forall (is_download id version files) downloads.
Proof.
  revert w. induction files as [|file files IH]; intros w.
  { intros [= <-]. split_and!; [done..| |].
    - intros p. rewrite fmap_nil, elem_of_nil. tauto.
    - exists []. by rewrite app_nil_r. }
  rewrite for_range_cons. intros ([] & w1 & Hfile & Hrest)%bind_returned_inv.
  apply wrapping_returned, downloadFile_returned_inv in Hfile
    as (data & r' & l' & _ & Hwrite & ->).
  destruct (IH _ Hrest) as (Hrepo & Hlog & Hfiles & downloads & Hcalls & Hall).
  cbn [local remote calls logged] in *.
  apply Write_returned_fs in Hwrite as [_ ->]. cbn [fs.repo fs.files] in *.
  split_and!; [done..| |].
  - intros p. rewrite Hfiles, fmap_cons, elem_of_cons.
    destruct (decide (p = fs.filePath (fs.repo (local w)) id file)) as [->|Hne].
    + rewrite lookup_insert_eq. naive_solver.
    + rewrite lookup_insert_ne by done. naive_solver.
  - exists ([CallGetFile id version file; CallWrite id version file data]
            ++ downloads).
    split; [by rewrite Hcalls, <-app_assoc|].
    apply Forall_app. split.
    + repeat constructor.
    + eapply Forall_impl; [exact Hall|]. apply is_download_weaken.
Qed.


End replace.

Section replace_examples.
Import pak example.



End replace_examples.

(** ** The index cache of the [http] repository *)
Section http_cache.
Import pak.
Context {E : Type} `{!http.Net E} `{!yaml.Codec}.

Implicit Types (c : http.conn E) (r : http.Repository).

Lemma checkCacheExpired_empty c :
  http.cachedIndex (http.repo c) = None → http.checkCacheExpired c = c.
Proof. intros Hc. unfold http.checkCacheExpired. by rewrite Hc. Qed.

Lemma checkCacheExpired_cached c (index : SpecIndex) (now : Z) (e1 : E) :
  http.cachedIndex (http.repo c) = Some index →
  http.time_Now (http.env c) = (now, e1) →
  http.checkCacheExpired c =
  http.mkConn
    (if now - http.cacheTime (http.repo c) >? http.CacheTTL (http.repo c)
     then with_cache (http.repo c) None (http.cacheTime (http.repo c))
     else http.repo c)
    e1 (http.requested c).
Proof.
  intros Hc Hnow. unfold http.checkCacheExpired. rewrite Hc, Hnow.
  by destruct (_ >? _).
Qed.

(** A read with an empty cache slot, step by step. *)
Lemma getIndex_empty c (u : string) :
  http.cachedIndex (http.repo c) = None →
  index_url (http.repo c) u →
  http.getIndex c =
  let '(resp, e1) := http.Client_Do u (http.env c) in
  let c1 := http.mkConn (http.repo c) e1 (http.requested c ++ [u]) in
  match resp with
  | Err err =>
      (Err (Errorf "failed to get index file: %w" []
              (Errorf "failed to get remote file: %w" [] err)), c1)
  | Ok resp =>
      if http.StatusCode resp >=? 400 then
        (Err (Errorf "failed to get index file: %w" []
                (Errorf_plain "failed to get remote file: %s"
                   [http.Status resp])), c1)
      else
        match yaml.ReadSpecIndex (http.Body resp) with
        | Err err => (Err (Errorf "failed to read index file: %w" [] err), c1)
        | Ok index =>
            let '(now, e2) := http.time_Now e1 in
            (Ok index,
             http.mkConn (with_cache (http.repo c) (Some index) now) e2
               (http.requested c ++ [u]))
        end
  end.
Proof.
  intros Hc (path & Hpath & -> & Hreq).
  unfold http.getIndex. rewrite (checkCacheExpired_empty c Hc), Hc, Hpath.
  unfold http.getFile. rewrite Hreq.
  destruct (http.Client_Do _ (http.env c)) as [[resp|err] e1]; [|done].
  destruct (http.StatusCode resp >=? 400); [done|].
  cbn [http.repo http.env http.requested].
  by destruct (yaml.ReadSpecIndex (http.Body resp)).
Qed.

Lemma getIndex_empty_failure c (err : error) c' :
  http.cachedIndex (http.repo c) = None →
  http.getIndex c = (Err err, c') →
  http.cachedIndex (http.repo c') = None.
Proof.
  intros Hc. unfold http.getIndex.
  rewrite (checkCacheExpired_empty c Hc), Hc.
  destruct (http.url_JoinPath _ _) as [path|e0]; [|by intros [= _ <-]].
  unfold http.getFile.
  destruct (http.NewRequest _) as [[]|e0]; [|by intros [= _ <-]].
  destruct (http.Client_Do _ (http.env c)) as [[resp|e0] e1];
    [|by intros [= _ <-]].
  destruct (http.StatusCode resp >=? 400); [by intros [= _ <-]|].
  cbn [http.repo http.env http.requested].
  destruct (yaml.ReadSpecIndex (http.Body resp)); [|by intros [= _ <-]].
  by destruct (http.time_Now e1).
Qed.

(** C8: the cache of the index.  With a snapshot in the slot the clock is
    read: when more than the time to live has passed since the fetch, the
    read is the read of the repository with the slot emptied; otherwise the
    snapshot is returned, the repository is unchanged and no request is
    sent.  With an empty slot a request for the index is sent; when it
    succeeds, the index is returned and stored with the time read after the
    fetch.  A read that fails leaves the slot empty, so that the next read
    sends a request again. *)
Theorem getIndex_cache_policy c :
  let r := http.repo c in
  (∀ (index : SpecIndex) (now : Z) (e1 : E),
     http.cachedIndex r = Some index →
     http.time_Now (http.env c) = (now, e1) →
     (now - http.cacheTime r > http.CacheTTL r →
      http.getIndex c =
      http.getIndex
        (http.mkConn (with_cache r None (http.cacheTime r)) e1
           (http.requested c)))
     ∧ (now - http.cacheTime r ≤ http.CacheTTL r →
        http.getIndex c = (Ok index, http.mkConn r e1 (http.requested c))))
  ∧ (∀ u : string,
       http.cachedIndex r = None → index_url r u →
       http.requested (http.getIndex c).2 = http.requested c ++ [u]
       ∧ ∀ (resp : http.Response) (e1 e2 : E) (index : SpecIndex) (now : Z),
           http.Client_Do u (http.env c) = (Ok resp, e1) →
           http.StatusCode resp < 400 →
           yaml.decode_SpecIndex (http.Body resp) = Some index →
           http.time_Now e1 = (now, e2) →
           http.getIndex c =
           (Ok index,
            http.mkConn (with_cache r (Some index) now) e2
              (http.requested c ++ [u])))
  ∧ (∀ (err : error) (c' : http.conn E),
       http.getIndex c = (Err err, c') →
       http.cachedIndex (http.repo c') = None).
Proof.
  intros r. split_and!.
  - intros index now e1 Hc Hnow. split.
    + intros Hexpired%Z.gtb_gt.
      unfold http.getIndex at 1.
      rewrite (checkCacheExpired_cached c index now e1) by done.
      fold r. rewrite Hexpired. cbn [http.repo with_cache http.cachedIndex].
      unfold http.getIndex.
      rewrite checkCacheExpired_empty by done. reflexivity.
    + intros Hvalid. unfold http.getIndex.
      rewrite (checkCacheExpired_cached c index now e1) by done.
      fold r. destruct (now - http.cacheTime r >? http.CacheTTL r) eqn:Hgt.
      { apply Z.gtb_gt in Hgt. lia. }
      cbn [http.repo]. fold r. by rewrite Hc.
  - intros u Hc Hu. rewrite (getIndex_empty c u) by done. split.
    + destruct (http.Client_Do u (http.env c)) as [[resp|err] e1]; [|done].
      destruct (http.StatusCode resp >=? 400); [done|].
      destruct (yaml.ReadSpecIndex (http.Body resp)); [|done].
      by destruct (http.time_Now e1).
    + intros resp e1 e2 index now Hdo Hstatus Hdecode Hnow.
      rewrite Hdo. destruct (http.StatusCode resp >=? 400) eqn:Hge.
      { apply Z.geb_ge in Hge. lia. }
      unfold yaml.ReadSpecIndex. by rewrite Hdecode, Hnow.
  - intros err c' Hrun.
    destruct (http.cachedIndex r) as [index|] eqn:Hc;
      [|by apply (getIndex_empty_failure c err c')].
    destruct (http.time_Now (http.env c)) as [now e1] eqn:Hnow.
    unfold http.getIndex at 1 in Hrun.
    rewrite (checkCacheExpired_cached c index now e1) in Hrun by done.
    fold r in Hrun.
    destruct (now - http.cacheTime r >? http.CacheTTL r).
    + apply (getIndex_empty_failure
                 (http.mkConn (with_cache r None (http.cacheTime r)) e1
                    (http.requested c)) err c'); [done|].
      unfold http.getIndex. rewrite checkCacheExpired_empty by done.
      exact Hrun.
    + cbn [http.repo] in Hrun. fold r in Hrun. by rewrite Hc in Hrun.
Qed.

End http_cache.

Section http_examples.
Import pak example.

(** A first read is served by the server at tick 0 and stored at tick 1; a
    read at tick 5 is served from the cache; a read at tick 100 asks the
    server again; a failed read stores nothing. *)
Lemma getIndex_cache_policy_witness :
  let server := [Ok (ok_response (encode_SpecIndex catalog))] in
  let url := "https://example.com/paks/index.yml" in
  let cached := with_cache remote_repo (Some catalog) 1 in
  http.getIndex (http.mkConn remote_repo (mkScript 0 server) [])
    = (Ok catalog, http.mkConn cached (mkScript 1 []) [url])
  ∧ http.getIndex (http.mkConn cached (mkScript 5 []) [url])
    = (Ok catalog, http.mkConn cached (mkScript 5 []) [url])
  ∧ http.getIndex (http.mkConn cached (mkScript 100 server) [url])
    = http.getIndex
        (http.mkConn (with_cache remote_repo None 1) (mkScript 100 server) [url])
  ∧ http.cachedIndex
      (http.repo (http.getIndex (http.mkConn remote_repo (mkScript 0 []) [])).2)
    = None.
Proof.
  intros server url cached. split_and!.
  - destruct (getIndex_cache_policy
                (http.mkConn remote_repo (mkScript 0 server) []))
      as (_ & Hempty & _).
    destruct (Hempty url) as [_ Hfetch].
    + reflexivity.
    + exists "/paks/index.yml". by vm_compute.
    + apply (Hfetch (ok_response (encode_SpecIndex catalog)) (mkScript 1 [])
               (mkScript 1 []) catalog 1).
      * reflexivity.
      * simpl. lia.
      * vm_compute. reflexivity.
      * reflexivity.
  - destruct (getIndex_cache_policy (http.mkConn cached (mkScript 5 []) [url]))
      as (Hcached & _ & _).
    destruct (Hcached catalog 5 (mkScript 5 [])) as [_ Hvalid].
    + reflexivity.
    + reflexivity.
    + apply Hvalid. simpl. lia.
  - destruct (getIndex_cache_policy
                (http.mkConn cached (mkScript 100 server) [url]))
      as (Hcached & _ & _).
    destruct (Hcached catalog 100 (mkScript 100 server)) as [Hexpired _].
    + reflexivity.
    + reflexivity.
    + apply Hexpired. simpl. lia.
  - destruct (getIndex_cache_policy (http.mkConn remote_repo (mkScript 0 []) []))
      as (_ & _ & Hfailed).
    apply (Hfailed
             (Errorf "failed to get index file: %w" []
                (Errorf "failed to get remote file: %w" []
                   (ExternalError "net/http")))).
    vm_compute. reflexivity.
Defined.

End http_examples.

(** ** Byte order on strings *)
Section string_order.

Lemma ascii_compare_refl (a : ascii) : Ascii.compare a a = Eq.
Proof. unfold Ascii.compare. apply N.compare_refl. Qed.

Lemma string_compare_refl (s : string) : String.compare s s = Eq.
Proof. induction s as [|c s IH]; simpl; [done|]. by rewrite ascii_compare_refl. Qed.

Lemma ascii_compare_lt_trans (a b c : ascii) :
  Ascii.compare a b = Lt → Ascii.compare b c = Lt → Ascii.compare a c = Lt.
Proof. unfold Ascii.compare. rewrite !N.compare_lt_iff. lia. Qed.

Lemma string_compare_lt_trans (a b c : string) :
  String.compare a b = Lt → String.compare b c = Lt → String.compare a c = Lt.
Proof.
  revert b c. induction a as [|x a IH]; intros [|y b] [|z c]; simpl; try done.
  destruct (Ascii.compare x y) eqn:Hxy; try done.
  - apply Ascii.compare_eq_iff in Hxy as ->.
    destruct (Ascii.compare y z); try done. apply IH.
  - intros _. destruct (Ascii.compare y z) eqn:Hyz; try done.
    + apply Ascii.compare_eq_iff in Hyz as <-. by rewrite Hxy.
    + by rewrite (ascii_compare_lt_trans x y z).
Qed.

Lemma ltb_irrefl (s : string) : String.ltb s s = false.
Proof. unfold String.ltb. by rewrite string_compare_refl. Qed.

Lemma ltb_trans (a b c : string) :
  String.ltb a b = true → String.ltb b c = true → String.ltb a c = true.
Proof.
  unfold String.ltb.
  destruct (String.compare a b) eqn:Hab; try done.
  destruct (String.compare b c) eqn:Hbc; try done.
  by rewrite (string_compare_lt_trans a b c).
Qed.

Lemma ltb_asym (a b : string) : String.ltb a b = true → String.ltb b a = false.
Proof.
  unfold String.ltb. rewrite (String.compare_antisym a b).
  by destruct (String.compare b a).
Qed.

Lemma ltb_total (a b : string) :
  String.ltb a b = false → String.ltb b a = false → a = b.
Proof.
  unfold String.ltb. rewrite (String.compare_antisym a b).
  destruct (String.compare b a) eqn:Hba; try done.
  intros _ _. symmetry. by apply String.compare_eq_iff.
Qed.

End string_order.

(** ** Case folding *)
Section folding.
Import cmd.

Lemma nat_of_ascii_inj (x y : ascii) : nat_of_ascii x = nat_of_ascii y → x = y.
Proof.
  intros Hxy. rewrite <-(ascii_nat_embedding x), <-(ascii_nat_embedding y).
  by rewrite Hxy.
Qed.

Lemma nat_of_lower_byte (c : ascii) :
  nat_of_ascii (lower_byte c) =
  let n := nat_of_ascii c in
  if (65 <=? n)%nat && (n <=? 90)%nat then (n + 32)%nat else n.
Proof.
  unfold lower_byte. cbv zeta.
  destruct ((65 <=? nat_of_ascii c)%nat && (nat_of_ascii c <=? 90)%nat) eqn:Hc;
    [|done].
  apply andb_true_iff in Hc as [_ H%Nat.leb_le].
  apply nat_ascii_embedding. lia.
Qed.

Lemma fold_eq_byte_lower (c d : ascii) :
  fold_eq_byte c d = true ↔ lower_byte c = lower_byte d.
Proof.
  split.
  - intros H. apply nat_of_ascii_inj. rewrite !nat_of_lower_byte.
    unfold fold_eq_byte in H. destruct (Ascii.eqb d c) eqn:Hdc.
    { by apply Ascii.eqb_eq in Hdc as ->. }
    cbv zeta. destruct (nat_of_ascii d <? nat_of_ascii c)%nat eqn:Hlt;
      apply andb_true_iff in H as [[H1%Nat.leb_le H2%Nat.leb_le]%andb_true_iff
                                   H3%Nat.eqb_eq];
      repeat case_match;
      repeat match goal with
      | H : (_ && _) = _ |- _ =>
          first [apply andb_true_iff in H as [? ?]
                | apply andb_false_iff in H as [?|?]]
      | H : (_ <=? _)%nat = true |- _ => apply Nat.leb_le in H
      | H : (_ <=? _)%nat = false |- _ => apply Nat.leb_gt in H
      end; lia.
  - intros H. apply (f_equal nat_of_ascii) in H. rewrite !nat_of_lower_byte in H.
    unfold fold_eq_byte. destruct (Ascii.eqb d c) eqn:Hdc; [done|].
    apply Ascii.eqb_neq in Hdc.
    assert (nat_of_ascii d ≠ nat_of_ascii c) by (intros ?%nat_of_ascii_inj; done).
    cbv zeta in H.
    destruct (nat_of_ascii d <? nat_of_ascii c)%nat eqn:Hlt;
      [apply Nat.ltb_lt in Hlt | apply Nat.ltb_ge in Hlt];
      rewrite !andb_true_iff, !Nat.leb_le, Nat.eqb_eq;
      repeat case_match;
      repeat match goal with
      | H : (_ && _) = _ |- _ =>
          first [apply andb_true_iff in H as [? ?]
                | apply andb_false_iff in H as [?|?]]
      | H : (_ <=? _)%nat = true |- _ => apply Nat.leb_le in H
      | H : (_ <=? _)%nat = false |- _ => apply Nat.leb_gt in H
      end; lia.
Qed.

Lemma EqualFold_ToLower (s t : string) :
  EqualFold s t = true ↔ ToLower s = ToLower t.
Proof.
  revert t. induction s as [|c s IH]; intros [|d t]; simpl; try done.
  rewrite andb_true_iff, fold_eq_byte_lower, IH. split.
  - by intros [-> ->].
  - intros [=]. done.
Qed.

Lemma less_key_lt (a b : string) : less a b = true ↔ key_lt a b.
Proof.
  unfold less, key_lt. destruct (EqualFold a b) eqn:Hf.
  - apply EqualFold_ToLower in Hf. rewrite Hf, ltb_irrefl. split.
    + intros ?. by right.
    + by intros [?|[_ ?]].
  - assert (ToLower a ≠ ToLower b) by (intros ?%EqualFold_ToLower; congruence).
    split.
    + intros ?. by left.
    + by intros [?|[? _]].
Qed.

Lemma key_lt_irrefl (a : string) : ¬ key_lt a a.
Proof. unfold key_lt. rewrite !ltb_irrefl. by intros [?|[_ ?]]. Qed.

Lemma key_lt_trans (a b c : string) : key_lt a b → key_lt b c → key_lt a c.
Proof.
  unfold key_lt. intros [Hab|[Hab Hab']] [Hbc|[Hbc Hbc']].
  - left. by apply (ltb_trans _ (ToLower b)).
  - left. by rewrite <-Hbc.
  - left. by rewrite Hab.
  - right. split; [congruence|]. by apply (ltb_trans _ b).
Qed.

Lemma key_lt_asym (a b : string) : key_lt a b → ¬ key_lt b a.
Proof. intros Hab Hba. by apply (key_lt_irrefl a), (key_lt_trans a b a). Qed.

Lemma key_lt_trichotomy (a b : string) : key_lt a b ∨ a = b ∨ key_lt b a.
Proof.
  unfold key_lt.
  destruct (String.ltb (ToLower a) (ToLower b)) eqn:H1; [by left; left|].
  destruct (String.ltb (ToLower b) (ToLower a)) eqn:H2; [by right; right; left|].
  pose proof (ltb_total _ _ H1 H2) as Heq.
  destruct (String.ltb a b) eqn:H3; [by left; right|].
  destruct (String.ltb b a) eqn:H4; [by right; right; right|].
  right; left. by apply ltb_total.
Qed.

Lemma in_order_key_lt (a b : string) : in_order less a b ↔ ¬ key_lt b a.
Proof.
  unfold in_order. rewrite <-less_key_lt. by destruct (less b a).
Qed.

#[local] Instance in_order_total : Total (in_order less).
Proof.
  intros a b. rewrite !in_order_key_lt.
  destruct (key_lt_trichotomy a b) as [H|[->|H]].
  - left. by apply key_lt_asym.
  - left. apply key_lt_irrefl.
  - right. by apply key_lt_asym.
Qed.

#[local] Instance in_order_trans : Transitive (in_order less).
Proof.
  intros a b c. rewrite !in_order_key_lt. intros Hba Hcb Hca.
  destruct (key_lt_trichotomy a b) as [H|[->|H]]; [|done..].
  destruct (key_lt_trichotomy b c) as [H'|[<-|H']]; [|done..].
  apply (key_lt_asym a c); [|done]. by apply (key_lt_trans a b c).
Qed.

#[local] Instance in_order_antisym : AntiSymm (=) (in_order less).
Proof.
  intros a b. rewrite !in_order_key_lt. intros Hba Hab.
  by destruct (key_lt_trichotomy a b) as [H|[->|H]].
Qed.

Lemma sortedKeys_of_Permutation (keys : list string) :
  sortedKeys_of keys ≡ₚ keys.
Proof. apply merge_sort_Permutation. Qed.

Lemma sortedKeys_of_sorted (keys : list string) :
  StronglySorted (in_order less) (sortedKeys_of keys).
Proof. apply StronglySorted_merge_sort; apply _. Qed.

Lemma sortedKeys_of_order_irrelevant (keys keys' : list string) :
  keys ≡ₚ keys' → sortedKeys_of keys = sortedKeys_of keys'.
Proof.
  intros Hp. apply (Sorted_unique (in_order less)).
  - apply Sorted_merge_sort; apply _.
  - apply Sorted_merge_sort; apply _.
  - by rewrite !sortedKeys_of_Permutation.
Qed.

Lemma StronglySorted_key_lt (l : list string) :
  NoDup l → StronglySorted (in_order less) l → StronglySorted key_lt l.
Proof.
  induction 2 as [|a l Hl IH Ha]; [constructor|].
  apply NoDup_cons in H as [Hnotin Hnd].
  constructor; [by apply IH|].
  apply Forall_forall. intros b Hb.
  rewrite Forall_forall in Ha. specialize (Ha b Hb).
  apply in_order_key_lt in Ha.
  destruct (key_lt_trichotomy a b) as [?|[->|?]]; done.
Qed.

Lemma sortedKeys_NoDup (index : pak.SpecIndex) : NoDup (sortedKeys index).
Proof.
  unfold sortedKeys. rewrite sortedKeys_of_Permutation.
  apply NoDup_fst_map_to_list.
Qed.

Lemma elem_of_sortedKeys (index : pak.SpecIndex) (k : string) :
  k ∈ sortedKeys index ↔ is_Some (index !! k).
Proof.
  unfold sortedKeys. rewrite sortedKeys_of_Permutation.
  rewrite list_elem_of_fmap. split.
  - intros [[k' v] [-> Hkv]]. apply elem_of_map_to_list in Hkv. by exists v.
  - intros [v Hv]. exists (k, v). split; [done|]. by apply elem_of_map_to_list.
Qed.

(** [strings.Contains] finds a substring. *)
Lemma HasPrefix_spec (s p : string) :
  HasPrefix s p = true ↔ ∃ post, s = p +:+ post.
Proof.
  revert s. induction p as [|a p IH]; intros s; simpl.
  - split; [by exists s|done].
  - destruct s as [|b s].
    + split; [done|]. by intros [? [=]].
    + rewrite andb_true_iff, Ascii.eqb_eq, IH. split.
      * intros [-> [post ->]]. by exists post.
      * intros [post [= -> ->]]. eauto.
Qed.

Lemma Contains_spec (s sub : string) :
  Contains s sub = true ↔ ∃ pre post, s = pre +:+ sub +:+ post.
Proof.
  induction s as [|c s IH]; simpl.
  - rewrite orb_false_r, HasPrefix_spec. split.
    + intros [post ->]. by exists "", post.
    + intros [[|c pre] [post H]]; [by exists post|done].
  - rewrite orb_true_iff, HasPrefix_spec, IH. split.
    + intros [[post H]|[pre [post ->]]].
      * by exists "", post.
      * by exists (String c pre), post.
    + intros [[|c' pre] [post H]].
      * left. by exists post.
      * right. simpl in H. injection H as -> ->. by exists pre, post.
Qed.

End folding.

Section listing.
Import pak cmd.

Lemma sortedKeys_by_dom (index : SpecIndex) (keys : list string) :
  NoDup keys → (∀ k, k ∈ keys ↔ is_Some (index !! k)) →
  sortedKeys index = sortedKeys_of keys.
Proof.
  intros Hnd Hkeys. apply sortedKeys_of_order_irrelevant.
  apply NoDup_Permutation; [apply NoDup_fst_map_to_list|done|].
  intros k. rewrite Hkeys, <-elem_of_sortedKeys.
  unfold sortedKeys. by rewrite sortedKeys_of_Permutation.
Qed.


End listing.

(** ** More on the manager: paths of [install] that the batch operations
    build on *)
Section manager_more.
Import pak.
Context {L R : Type} `{!WritableRepository L} `{!SourceRepository R}.

Implicit Types w : world L R.

Lemma same_effects_refl {A} (x : outcome A * world L R) : same_effects x x.
Proof. by unfold same_effects. Qed.

Lemma same_effects_trans {A} (x y z : outcome A * world L R) :
  same_effects x y → same_effects y z → same_effects x z.
Proof. unfold same_effects. intros (-> & -> & -> & ->) (-> & -> & -> & ->). done. Qed.

Lemma log_blind_install_version_clear (id version : string)
  (existing : option Manifest) :
  log_blind (L:=L) (R:=R) (install_version id version existing false).
Proof.
  unfold install_version.
  assert (log_blind (L:=L) (R:=R)
            (mret tt ≫= fun _ : unit =>
             manifest ← wrapping "getting remote pak manifest: %w" []
               (on_remote (CallGetManifest id version) (GetManifest id version));
             match manifest with
             | None => fail (ManifestNotFoundError version)
             | Some manifest =>
                 (if existing is Some _
                  then wrapping "uninstalling existing version: %w" []
                         (uninstall id)
                  else mret tt);;
                 for_range (Files manifest) (fun file =>
                   wrapping "downloading file %q: %w" [file]
                     (downloadFile id version file));;
                 wrapping "writing local pak manifest: %w" []
                   (on_local (CallWriteManifest manifest)
                      (WriteManifest manifest))
             end)) as Hproceed.
  { apply log_blind_bind; [apply log_blind_ret|].
    intros _. apply log_blind_install_files. }
  destruct existing as [e|]; [|done].
  case_decide; [apply log_blind_log|done].
Qed.

Lemma log_blind_install_clear (spec : InstallSpec) :
  log_blind (L:=L) (R:=R) (install spec false).
Proof.
  unfold install. case_decide; [apply log_blind_fail|].
  apply log_blind_bind; [apply log_blind_wrapping, log_blind_on_local|].
  intros existing. apply log_blind_bind.
  - case_decide; [|apply log_blind_ret].
    apply log_blind_bind; [apply log_blind_wrapping, log_blind_on_remote|].
    intros [s|]; [apply log_blind_ret|apply log_blind_fail].
  - intros version. apply log_blind_install_version_clear.
Qed.

(** The flag makes no difference to [install] on an installed pak, apart
    from the log. *)
Lemma install_flag_same_effects (spec : InstallSpec) (e : Manifest) (l1 : L) w :
  GetInstalledManifest (IS_ID spec) (local w) = (Ok (Some e), l1) →
  same_effects (install spec true w) (install spec false w).
Proof.
  intros Hl. destruct (decide (IS_ID spec = "")) as [Hid|Hid].
  { rewrite !install_empty_id by done. apply same_effects_refl. }
  rewrite !(install_lookup _ _ _ (Some e) l1) by done.
  rewrite !run_bind.
  match goal with
  | |- same_effects (match ?x with _ => _ end) _ =>
      destruct x as [[version|err|msg] w1]; [|apply same_effects_refl..]
  end.
  apply upgrade_flag_only_logs_when_installed.
Qed.

Lemma for_range_one {A} (x : A) (body : A -> M L R unit) w :
  for_range [x] body w = body x w.
Proof.
  rewrite for_range_cons, run_bind.
  by destruct (body x w) as [[[]|?|?] ?].
Qed.

Lemma Upgrade_one (spec : InstallSpec) w :
  Upgrade [spec] w =
  wrapping "upgrading pak %s: %w" [IS_ID spec] (install spec true) w.
Proof. unfold Upgrade. rewrite run_bind. simpl. apply for_range_one. Qed.

(** X11: for a pak that is installed, [Upgrade] of a spec does what
    [Install] of it does: the same repositories and calls result, one
    returns nil exactly when the other does, and a failure is the same
    error under the other operation's prefix. *)
Theorem Upgrade_as_Install_when_installed (spec : InstallSpec) (e : Manifest)
  (l1 : L) w :
  GetInstalledManifest (IS_ID spec) (local w) = (Ok (Some e), l1) →
  let up := Upgrade [spec] w in
  let ins := Install [spec] w in
  local up.2 = local ins.2 ∧ remote up.2 = remote ins.2
  ∧ calls up.2 = calls ins.2
  ∧ (up.1 = Returned tt ↔ ins.1 = Returned tt)
  ∧ (∀ err : error,
       up.1 = Failed (Errorf "upgrading pak %s: %w" [IS_ID spec] err) ↔
       ins.1 = Failed (Errorf "installing pak %s@%s: %w"
                         [IS_ID spec; IS_Version spec] err))
  ∧ (∀ msg : string, up.1 = Panicked msg ↔ ins.1 = Panicked msg).
Proof.
  intros Hl up ins. subst up ins. rewrite Upgrade_one, Install_one.
  assert (same_effects (install spec true w)
            (install spec false (announced spec w))) as Hsame.
  { eapply same_effects_trans; [by eapply install_flag_same_effects|].
    by apply log_blind_install_clear. }
  unfold wrapping. unfold same_effects in Hsame.
  destruct (install spec true w) as [[[]|e1|m1] w1],
    (install spec false (announced spec w)) as [[[]|e2|m2] w2];
    cbn [fst snd] in *; destruct Hsame as (Ho & -> & -> & ->);
    try discriminate Ho; (split_and!; [done..| |]); try done.
  - injection Ho as ->. intros err. split; intros [= ->]; done.
  - injection Ho as ->. intros msg. done.
Qed.


Lemma install_version_fetched (id version : string)
  (existing : option Manifest) (m : Manifest) (r1 : R) w :
  (∀ e : Manifest, existing = Some e → Version e ≠ version) →
  GetManifest id version (remote w) = (Ok (Some m), r1) →
  install_version id version existing false w =
  ((if existing is Some _
    then wrapping "uninstalling existing version: %w" [] (uninstall id)
    else mret tt) ≫= fun _ : unit =>
   downloads id version (Files m) ≫= fun _ : unit =>
   wrapping "writing local pak manifest: %w" []
     (on_local (CallWriteManifest m) (WriteManifest m)))
    (mkWorld (local w) r1 (calls w ++ [CallGetManifest id version])
       (logged w)).
Proof.
  intros Hne Hm. unfold install_version, downloads.
  destruct existing as [e|]; [rewrite decide_False by by apply Hne|];
    unfold mbind, M_bind, bind, mret, M_ret, ret;
    unfold wrapping at 1; unfold on_remote;
    cbn beta iota; rewrite Hm; reflexivity.
Qed.

Lemma Uninstall_cons (id : string) (ids : list string) w :
  Uninstall (id :: ids) w =
  match Uninstall [id] w with
  | (Returned _, w1) => Uninstall ids w1
  | (Failed e, w1) => (Failed e, w1)
  | (Panicked msg, w1) => (Panicked msg, w1)
  end.
Proof.
  unfold Uninstall. rewrite for_range_cons, run_bind, for_range_one.
  reflexivity.
Qed.

Lemma Uninstall_all_deleted (ids : list string) w (l' : L) :
  all_deleted ids (local w) l' →
  Uninstall ids w =
  (Returned tt,
   mkWorld l' (remote w) (calls w ++ (CallDelete <$> ids))
     (logged w ++ ((fun id => Infof "Uninstalling %s" [id]) <$> ids))).
Proof.
  revert w. induction ids as [|id ids IH]; intros w.
  { simpl. intros ->. rewrite !app_nil_r. by destruct w. }
  intros (l1 & Hdel & Hrest). rewrite Uninstall_cons, Uninstall_one.
  cbv zeta. rewrite Hdel. cbn [fst snd].
  match goal with
  | |- Uninstall ids ?w1 = _ => rewrite (IH w1 Hrest)
  end.
  cbn [local remote calls logged]. by rewrite !fmap_cons, <-!app_assoc.
Qed.

Lemma Uninstall_first_failure (pre : list string) (id : string)
  (post : list string) w (l1 l2 : L) (e : error) :
  all_deleted pre (local w) l1 →
  Delete id l1 = (Err e, l2) →
  Uninstall (pre ++ id :: post) w =
  (Failed (Errorf "uninstalling pak %s: %w" [id]
             (Errorf "deleting local pak: %w" [] e)),
   mkWorld l2 (remote w) (calls w ++ (CallDelete <$> pre ++ [id]))
     (logged w ++ ((fun id => Infof "Uninstalling %s" [id]) <$> pre ++ [id]))).
Proof.
  revert w. induction pre as [|p pre IH]; intros w.
  { simpl. intros -> Hdel. rewrite Uninstall_cons, Uninstall_one.
    cbv zeta. by rewrite Hdel. }
  intros (l0 & Hp & Hrest) Hdel. rewrite <-app_comm_cons.
  rewrite Uninstall_cons, Uninstall_one. cbv zeta. rewrite Hp. cbn [fst snd].
  match goal with
  | |- Uninstall _ ?w1 = _ => rewrite (IH w1 Hrest Hdel)
  end.
  cbn [local remote calls logged].
  by rewrite <-!app_comm_cons, !fmap_cons, <-!app_assoc.
Qed.

Lemma Delete_all_or_first_failure (ids : list string) (l : L) :
  (∃ l' : L, all_deleted ids l l')
  ∨ ∃ (pre : list string) (id : string) (post : list string) (l1 l2 : L)
      (e : error),
      ids = pre ++ id :: post
      ∧ all_deleted pre l l1 ∧ Delete id l1 = (Err e, l2).
Proof.
  revert l. induction ids as [|id ids IH]; intros l.
  { left. by exists l. }
  destruct (Delete id l) as [[[]|e] l1] eqn:Hdel.
  - destruct (IH l1) as [[l' Hall]|(pre & id' & post & l2 & l3 & e & -> & Hall & Hfail)].
    + left. exists l'. simpl. eauto.
    + right. exists (id :: pre), id', post, l2, l3, e.
      split_and!; [done| |done]. simpl. eauto.
  - right. by exists [], id, ids, l, l1, e.
Qed.

(** X7: [Uninstall] deletes the ids in order and stops at the first
    [Delete] that fails.  When the [Delete] of every id returns nil,
    [Uninstall] returns nil after these calls, on the store they leave.
    When the [Delete] of [id] is the first to return an error [e],
    [Uninstall] returns [e] under "deleting local pak" and "uninstalling
    pak id", on the store that this [Delete] leaves, after the [Delete]
    calls for the ids before it and for [id] and for no other.  One of the
    two is the case: [Uninstall] does not panic, and the source is not
    touched. *)
Theorem Uninstall_stops_at_first_failure (ids : list string) w :
  (∀ l' : L,
     all_deleted ids (local w) l' →
     Uninstall ids w =
     (Returned tt,
      mkWorld l' (remote w) (calls w ++ (CallDelete <$> ids))
        (logged w ++ ((fun id => Infof "Uninstalling %s" [id]) <$> ids))))
  ∧ (∀ (pre : list string) (id : string) (post : list string) (l1 l2 : L)
       (e : error),
       ids = pre ++ id :: post →
       all_deleted pre (local w) l1 →
       Delete id l1 = (Err e, l2) →
       Uninstall ids w =
       (Failed (Errorf "uninstalling pak %s: %w" [id]
                  (Errorf "deleting local pak: %w" [] e)),
        mkWorld l2 (remote w) (calls w ++ (CallDelete <$> pre ++ [id]))
          (logged w
             ++ ((fun id => Infof "Uninstalling %s" [id]) <$> pre ++ [id]))))
  ∧ ((∃ l' : L, all_deleted ids (local w) l')
     ∨ ∃ (pre : list string) (id : string) (post : list string) (l1 l2 : L)
         (e : error),
         ids = pre ++ id :: post
         ∧ all_deleted pre (local w) l1 ∧ Delete id l1 = (Err e, l2)).
Proof.
  split_and!.
  - apply Uninstall_all_deleted.
  - intros pre id post l1 l2 e ->. apply Uninstall_first_failure.
  - apply Delete_all_or_first_failure.
Qed.

End manager_more.

(** ** [install] on a [fs] store: the steps after the manifest is fetched *)
Section install_fs.
Import pak.
Context `{!yaml.Codec} `{!os.Faults} {R : Type} `{!SourceRepository R}.

Implicit Types w : world fs.store R.

Lemma downloadFile_fs_frame (id version file : string) w out w1 :
  downloadFile id version file w = (out, w1) →
  fs.repo (local w1) = fs.repo (local w)
  ∧ ∀ p : string,
      p ≠ fs.filePath (fs.repo (local w)) id file →
      fs.files (local w1) !! p = fs.files (local w) !! p.
Proof.
  unfold downloadFile. rewrite run_bind.
  unfold wrapping at 1. unfold on_remote.
  destruct (GetFile id version file (remote w)) as [[[data|]|e] r'].
  - unfold wrapping, on_local. cbn [local remote calls logged].
    destruct (Write id version file data (local w)) as [res l'] eqn:Hwrite.
    apply Write_frame_fs in Hwrite.
    by destruct res as [[]|e]; intros [= _ <-].
  - by intros [= _ <-].
  - by intros [= _ <-].
Qed.

Lemma downloads_fs_frame (id version : string) (files : list string) w out w' :
  downloads id version files w = (out, w') →
  fs.repo (local w') = fs.repo (local w)
  ∧ ∀ p : string,
      p ∉ fs.filePath (fs.repo (local w)) id <$> files →
      fs.files (local w') !! p = fs.files (local w) !! p.
Proof.
  unfold downloads. revert w.
  induction files as [|file files IH]; intros w.
  { by intros [= _ <-]. }
  rewrite for_range_cons, run_bind.
  destruct (wrapping _ _ _ w) as [o w1] eqn:Hfile.
  assert (∃ o', downloadFile id version file w = (o', w1)) as [o' Hdl].
  { unfold wrapping in Hfile.
    destruct (downloadFile id version file w) as [[?|?|?] ?];
      injection Hfile as _ <-; eauto. }
  destruct (downloadFile_fs_frame _ _ _ _ _ _ Hdl) as [Hrepo Hframe].
  rewrite fmap_cons.
  destruct o as [[]|e|msg].
  - intros Hrest. destruct (IH _ Hrest) as [Hrepo' Hframe'].
    rewrite Hrepo', Hrepo. split; [done|].
    intros p [Hne Hp]%not_elem_of_cons.
    rewrite Hframe' by by rewrite Hrepo. by apply Hframe.
  - intros [= _ <-]. split; [done|].
    intros p [Hne Hp]%not_elem_of_cons. by apply Hframe.
  - intros [= _ <-]. split; [done|].
    intros p [Hne Hp]%not_elem_of_cons. by apply Hframe.
Qed.

Lemma uninstall_existing_fs (id : string) w :
  wrapping "uninstalling existing version: %w" [] (uninstall id) w =
  let w3 := mkWorld
              (fs.mkStore (fs.repo (local w))
                 (fs.Delete (fs.repo (local w)) id (fs.files (local w))).2)
              (remote w) (calls w ++ [CallDelete id]) (logged w) in
  match (fs.Delete (fs.repo (local w)) id (fs.files (local w))).1 with
  | Ok _ => (Returned tt, w3)
  | Err e =>
      (Failed (Errorf "uninstalling existing version: %w" []
                 (Errorf "deleting local pak: %w" [] e)), w3)
  end.
Proof.
  unfold uninstall, wrapping, on_local. unfold Delete; simpl.
  unfold fs.writing.
  by destruct (fs.Delete _ id _) as [[[]|e] d3].
Qed.

Lemma write_manifest_fs (m : Manifest) w w' :
  wrapping "writing local pak manifest: %w" []
    (on_local (CallWriteManifest m) (WriteManifest m)) w = (Returned tt, w') →
  w' = mkWorld
         (fs.mkStore (fs.repo (local w))
            (<[fs.manifestPath (fs.repo (local w)) (ID m)
               := yaml.WriteManifest m]> (fs.files (local w))))
         (remote w) (calls w ++ [CallWriteManifest m]) (logged w).
Proof.
  intros (l' & Hwrite & ->)%wrapping_returned%on_local_returned_inv.
  by apply WriteManifest_returned_fs in Hwrite as ->.
Qed.

Lemma install_version_fs_returned (id version : string)
  (existing : option Manifest) (m : Manifest) (r1 : R) w w' :
  (∀ e : Manifest, existing = Some e → Version e ≠ version) →
  GetManifest id version (remote w) = (Ok (Some m), r1) →
  install_version id version existing false w = (Returned tt, w') →
  ∃ (d3 : os.disk) (w4 : world fs.store R),
    (if existing is Some _
     then fs.Delete (fs.repo (local w)) id (fs.files (local w)) = (Ok tt, d3)
     else d3 = fs.files (local w))
    ∧ downloads id version (Files m)
        (mkWorld (fs.mkStore (fs.repo (local w)) d3) r1
           (calls w ++ [CallGetManifest id version]
              ++ (if existing is Some _ then [CallDelete id] else []))
           (logged w)) = (Returned tt, w4)
    ∧ w' = mkWorld
             (fs.mkStore (fs.repo (local w4))
                (<[fs.manifestPath (fs.repo (local w4)) (ID m)
                   := yaml.WriteManifest m]> (fs.files (local w4))))
             (remote w4) (calls w4 ++ [CallWriteManifest m]) (logged w4).
Proof.
  intros Hne Hm Hrun. unfold install_version in Hrun.
  destruct existing as [e|].
  - rewrite decide_False in Hrun by by apply Hne.
    apply bind_returned_inv in Hrun as ([] & w0 & [= <-] & Hrun).
    apply bind_returned_inv in Hrun as (manifest & w2 & Hget & Hrun).
    apply wrapping_returned, on_remote_returned_inv in Hget as (r1' & Hget & ->).
    rewrite Hm in Hget. injection Hget as <- <-.
    apply bind_returned_inv in Hrun as ([] & w3 & Hdel & Hrun).
    rewrite uninstall_existing_fs in Hdel. cbv zeta in Hdel.
    cbn [local remote calls logged] in Hdel.
    destruct (fs.Delete _ id _) as [[[]|err] d3] eqn:Hdelete; [|done].
    cbn [fst snd] in Hdel. injection Hdel as <-.
    apply bind_returned_inv in Hrun as ([] & w4 & Hfiles & Hrun).
    apply write_manifest_fs in Hrun as ->.
    exists d3, w4. split_and!; [done| |done].
    rewrite <-Hfiles. unfold downloads. by rewrite <-app_assoc.
  - apply bind_returned_inv in Hrun as ([] & w0 & [= <-] & Hrun).
    apply bind_returned_inv in Hrun as (manifest & w2 & Hget & Hrun).
    apply wrapping_returned, on_remote_returned_inv in Hget as (r1' & Hget & ->).
    rewrite Hm in Hget. injection Hget as <- <-.
    apply bind_returned_inv in Hrun as ([] & w3 & [= <-] & Hrun).
    apply bind_returned_inv in Hrun as ([] & w4 & Hfiles & Hrun).
    apply write_manifest_fs in Hrun as ->.
    exists (fs.files (local w)), w4. split_and!; [done| |done].
    rewrite <-Hfiles. unfold downloads. cbn [local remote calls logged].
    rewrite app_nil_r. by destruct (local w).
Qed.

(** X1: a first install on a [fs] store.  After a successful [Install] of
    a pak that was not installed, every file that the manifest lists and
    the manifest are there, every other path is as it was, the manifest is
    installed under the id it carries, and no [Delete] was issued. *)
Theorem Install_fresh_on_fs w w' (id version : string) (m : Manifest) (r1 : R) :
  let r := fs.repo (local w) in
  let d := fs.files (local w) in
  version ≠ "" →
  fs.GetInstalledManifest r id d = Ok None →
  GetManifest id version (remote w) = (Ok (Some m), r1) →
  yaml.ReadManifest (yaml.WriteManifest m) = Ok m →
  Install [mkInstallSpec id version] w = (Returned tt, w') →
  fs.repo (local w') = r
  ∧ (∀ p : string,
       p ∈ listed_paths r id m ∨ p = fs.manifestPath r (ID m) →
       is_Some (fs.files (local w') !! p))
  ∧ (∀ p : string,
       p ∉ listed_paths r id m → p ≠ fs.manifestPath r (ID m) →
       fs.files (local w') !! p = d !! p)
  ∧ fs.GetInstalledManifest r (ID m) (fs.files (local w')) = Ok (Some m)
  ∧ ∃ dls : list call,
      calls w' =
        calls w ++ [CallGetInstalledManifest id; CallGetManifest id version]
                ++ dls ++ [CallWriteManifest m]
      ∧ Forall (is_download id version (Files m)) dls.
Proof.
  intros r d Hv Hnone Hm Hcodec Hrun.
  rewrite Install_one in Hrun. apply wrapping_returned in Hrun.
  assert (id ≠ "") as Hid.
  { intros ->. by rewrite install_empty_id in Hrun. }
  rewrite (install_explicit _ _ _ None (local w)) in Hrun; [|done..|].
  2:{ unfold GetInstalledManifest; simpl. unfold fs.reading; simpl.
      fold r d. by rewrite Hnone. }
  cbn [IS_ID IS_Version] in Hrun.
  apply (install_version_fs_returned _ _ _ m r1) in Hrun
    as (d3 & w4 & -> & Hfiles & ->); [|done|done].
  unfold looked_up, announced in Hfiles.
  cbn [local remote calls logged] in Hfiles. fold r d in Hfiles.
  destruct (downloads_fs_frame _ _ _ _ _ _ Hfiles) as [Hrepo Hframe].
  apply downloads_fs in Hfiles as (_ & _ & Hd4 & dls & Hcalls & Hall).
  cbn [local remote calls logged fs.repo fs.files] in *.
  rewrite Hrepo. split_and!.
  - done.
  - intros p [Hp| ->]; [|by rewrite lookup_insert_eq].
    destruct (decide (p = fs.manifestPath r (ID m))) as [->|Hne];
      [by rewrite lookup_insert_eq|].
    rewrite lookup_insert_ne by done. apply Hd4. by left.
  - intros p Hp Hne. rewrite lookup_insert_ne by done. by apply Hframe.
  - unfold fs.GetInstalledManifest, fs.getManifest, os.Open.
    rewrite lookup_insert_eq. by rewrite Hcodec.
  - exists dls. split; [|done]. rewrite Hcalls. by rewrite <-!app_assoc.
Qed.

End install_fs.

(** ** Installing from a [memory] source into a [fs] store *)
Section install_memory_fs.
Import pak.
Context `{!yaml.Codec} `{!os.Faults}.

Implicit Types w : world fs.store memory.Repository.

Lemma memory_GetFile_inv (id version file : string) (src src' : memory.Repository)
  (data : io.Reader) :
  GetFile id version file src = (Ok (Some data), src') →
  src' = src
  ∧ memory.Files src !! memory.mkFileSpec (mkInstallSpec id version) file
    = Some (io.content data).
Proof.
  unfold GetFile; simpl. unfold memory.GetFile.
  destruct (memory.Files src !! _) as [s|]; [|done]. by intros [= <- <-].
Qed.

Lemma downloads_memory_contents (id version : string) (files : list string)
  w w' :
  downloads id version files w = (Returned tt, w') →
  NoDup (fs.filePath (fs.repo (local w)) id <$> files) →
  remote w' = remote w
  ∧ ∀ file : string,
      file ∈ files →
      is_Some (fs.files (local w') !! fs.filePath (fs.repo (local w)) id file)
      ∧ fs.files (local w') !! fs.filePath (fs.repo (local w)) id file
        = memory.Files (remote w)
            !! memory.mkFileSpec (mkInstallSpec id version) file.
Proof.
  revert w. induction files as [|file files IH]; intros w Hrun Hnd.
  { injection Hrun as <-. split; [done|]. by intros file ?%elem_of_nil. }
  unfold downloads in Hrun. rewrite for_range_cons in Hrun.
  apply bind_returned_inv in Hrun as ([] & w1 & Hfile & Hrest).
  apply wrapping_returned, downloadFile_returned_inv in Hfile
    as (data & r' & l' & Hget & Hwrite & ->).
  apply memory_GetFile_inv in Hget as [-> Hdata].
  apply Write_returned_fs in Hwrite as [_ ->].
  rewrite fmap_cons in Hnd. apply NoDup_cons in Hnd as [Hnotin Hnd].
  pose proof (downloads_fs_frame _ _ _ _ _ _ Hrest) as [_ Hframe].
  destruct (IH _ Hrest) as [Hremote Hfiles]; [done|].
  cbn [local remote calls logged fs.repo fs.files] in *.
  split; [done|]. intros f [->|Hf]%elem_of_cons.
  - rewrite Hframe by done. rewrite lookup_insert_eq, Hdata. eauto.
  - by apply Hfiles.
Qed.

(** X2: what [Install] lays down is what the source holds.  After a
    successful [Install] from a [memory] source into a [fs] store of a
    version that was not the installed one, each file that the manifest
    lists (under distinct paths, none of them the manifest's) holds the
    bytes that the source has for that id, version and file name, and the
    source is as it was. *)
Theorem Install_copies_source_files w w' (id version : string)
  (existing : option Manifest) (m : Manifest) :
  let r := fs.repo (local w) in
  let d := fs.files (local w) in
  version ≠ "" →
  fs.GetInstalledManifest r id d = Ok existing →
  (∀ e : Manifest, existing = Some e → Version e ≠ version) →
  memory.Manifests (remote w) !! mkInstallSpec id version = Some m →
  NoDup (listed_paths r id m) →
  fs.manifestPath r (ID m) ∉ listed_paths r id m →
  Install [mkInstallSpec id version] w = (Returned tt, w') →
  remote w' = remote w
  ∧ ∀ file : string,
      file ∈ Files m →
      is_Some (fs.files (local w') !! fs.filePath r id file)
      ∧ fs.files (local w') !! fs.filePath r id file
        = memory.Files (remote w)
            !! memory.mkFileSpec (mkInstallSpec id version) file.
Proof.
  intros r d Hv Hlookup Hne Hm Hnd Hmp Hrun.
  rewrite Install_one in Hrun. apply wrapping_returned in Hrun.
  assert (id ≠ "") as Hid.
  { intros ->. by rewrite install_empty_id in Hrun. }
  rewrite (install_explicit _ _ _ existing (local w)) in Hrun; [|done..|].
  2:{ unfold GetInstalledManifest; simpl. unfold fs.reading; simpl.
      fold r d. by rewrite Hlookup. }
  cbn [IS_ID IS_Version] in Hrun.
  apply (install_version_fs_returned _ _ _ m (remote w)) in Hrun
    as (d3 & w4 & _ & Hfiles & ->); [|done|].
  2:{ unfold GetManifest; simpl. unfold memory.GetManifest.
      unfold looked_up, announced. cbn [remote]. by rewrite Hm. }
  unfold looked_up, announced in Hfiles.
  cbn [local remote calls logged] in Hfiles. fold r in Hfiles.
  pose proof (downloads_fs_frame _ _ _ _ _ _ Hfiles) as [Hrepo _].
  apply downloads_memory_contents in Hfiles as [Hremote Hcontents]; [|done].
  cbn [local remote calls logged fs.repo fs.files] in *.
  split; [done|]. intros file Hfile. rewrite Hrepo.
  rewrite lookup_insert_ne.
  - by apply Hcontents.
  - intros Heq. apply Hmp. rewrite Heq.
    unfold listed_paths. apply list_elem_of_fmap. eauto.
Qed.

End install_memory_fs.

(** ** Failure, repetition and undoing of an install on a [fs] store *)
Section install_fs_more.
Import pak.
Context `{!yaml.Codec} `{!os.Faults} {R : Type} `{!SourceRepository R}.

Implicit Types w : world fs.store R.

Lemma fs_lookup (id : string) w :
  GetInstalledManifest id (local w) =
  (fs.GetInstalledManifest (fs.repo (local w)) id (fs.files (local w)), local w).
Proof. reflexivity. Qed.

Lemma lookup_written_manifest (r : fs.Repository) (m : Manifest) (d : os.disk) :
  yaml.ReadManifest (yaml.WriteManifest m) = Ok m →
  fs.GetInstalledManifest r (ID m)
    (<[fs.manifestPath r (ID m) := yaml.WriteManifest m]> d) = Ok (Some m).
Proof.
  intros Hcodec. unfold fs.GetInstalledManifest, fs.getManifest, os.Open.
  rewrite lookup_insert_eq. by rewrite Hcodec.
Qed.


Lemma install_returned_lookup (spec : InstallSpec) (upgrade : bool) w w' :
  install spec upgrade w = (Returned tt, w') →
  IS_ID spec ≠ ""
  ∧ ∃ existing : option Manifest,
      fs.GetInstalledManifest (fs.repo (local w)) (IS_ID spec)
        (fs.files (local w)) = Ok existing.
Proof.
  intros Hrun. assert (IS_ID spec ≠ "") as Hid.
  { intros Hid. by rewrite install_empty_id in Hrun. }
  split; [done|]. unfold install in Hrun. rewrite decide_False in Hrun by done.
  apply bind_returned_inv in Hrun as (existing & w1 & Hl & _).
  apply wrapping_returned, on_local_returned_inv in Hl as (l1 & Hl & _).
  rewrite fs_lookup in Hl. injection Hl as Hl _. eauto.
Qed.

(** X5: [Install] is idempotent on a [fs] store.  After a successful
    [Install] of a version whose manifest in the source carries that id
    and version, the same [Install] again returns nil after the lookup of
    the installed manifest alone, and changes neither store nor source. *)
Theorem Install_again_is_noop w w' (id version : string) (m : Manifest) (r1 : R) :
  version ≠ "" →
  GetManifest id version (remote w) = (Ok (Some m), r1) →
  ID m = id → Version m = version →
  yaml.ReadManifest (yaml.WriteManifest m) = Ok m →
  Install [mkInstallSpec id version] w = (Returned tt, w') →
  Install [mkInstallSpec id version] w' =
  (Returned tt,
   mkWorld (local w') (remote w')
     (calls w' ++ [CallGetInstalledManifest id])
     (logged w' ++ [Infof "Installing %s@%s" [id; version];
                    Debugf "pak %s@%s already installed" [id; version]])).
Proof.
  intros Hv Hm Hid Hversion Hcodec Hrun.
  assert (∃ e : Manifest,
            fs.GetInstalledManifest (fs.repo (local w')) id
              (fs.files (local w')) = Ok (Some e)
            ∧ Version e = version) as (e & Hinstalled & He).
  { rewrite Install_one in Hrun. apply wrapping_returned in Hrun.
    destruct (install_returned_lookup _ _ _ _ Hrun) as [Hne [existing Hl]].
    cbn [IS_ID local announced] in Hne, Hl.
    rewrite (install_explicit _ _ _ existing (local w)) in Hrun; [|done..|].
    2:{ rewrite fs_lookup. cbn [local announced IS_ID]. by rewrite Hl. }
    cbn [IS_ID IS_Version] in Hrun.
    destruct existing as [e|].
    - destruct (decide (Version e = version)) as [Heq|Hneq].
      + rewrite <-Heq, install_version_same in Hrun.
        injection Hrun as <-. exists e. by split.
      + apply (install_version_fs_returned _ _ _ m r1) in Hrun
          as (d3 & w4 & _ & Hfiles & ->); [|naive_solver|done].
        exists m. split; [|done]. cbn [local fs.repo fs.files].
        rewrite <-Hid at 1. by apply lookup_written_manifest.
    - apply (install_version_fs_returned _ _ _ m r1) in Hrun
        as (d3 & w4 & _ & Hfiles & ->); [|done|done].
      exists m. split; [|done]. cbn [local fs.repo fs.files].
      rewrite <-Hid at 1. by apply lookup_written_manifest. }
  assert (id ≠ "") as Hne.
  { rewrite Install_one in Hrun. apply wrapping_returned in Hrun.
    by destruct (install_returned_lookup _ _ _ _ Hrun) as [? _]. }
  rewrite Install_one. apply wrapping_returned.
  rewrite (install_explicit _ _ _ (Some e) (local w')); [|done..|].
  2:{ rewrite fs_lookup. cbn [local announced IS_ID]. by rewrite Hinstalled. }
  cbn [IS_ID IS_Version]. rewrite <-He, install_version_same.
  unfold looked_up, announced. cbn [local remote calls logged].
  by rewrite <-app_assoc.
Qed.

(** X6: [Uninstall] undoes a first [Install].  When a pak was not
    installed, its manifest in the source carries the id, lists distinct
    paths and none at the manifest's own path, the codec reads back the
    manifest it wrote, and none of the paths of its files held a file, a
    successful [Install] followed by [Uninstall] succeeds and gives the
    files of the store back as they were. *)
Theorem Install_then_Uninstall_restores w w' (id version : string)
  (m : Manifest) (r1 : R) :
  let r := fs.repo (local w) in
  let d := fs.files (local w) in
  version ≠ "" →
  fs.GetInstalledManifest r id d = Ok None →
  GetManifest id version (remote w) = (Ok (Some m), r1) →
  ID m = id →
  yaml.ReadManifest (yaml.WriteManifest m) = Ok m →
  NoDup (listed_paths r id m) →
  fs.manifestPath r id ∉ listed_paths r id m →
  (∀ p : string, p ∈ listed_paths r id m → d !! p = None) →
  Install [mkInstallSpec id version] w = (Returned tt, w') →
  ∃ w'' : world fs.store R,
    Uninstall [id] w' = (Returned tt, w'')
    ∧ fs.repo (local w'') = r ∧ fs.files (local w'') = d.
Proof.
  intros r d Hv Hnone Hm Hid Hcodec Hnd Hmp Hfree Hrun.
  rewrite Install_one in Hrun. apply wrapping_returned in Hrun.
  destruct (install_returned_lookup _ _ _ _ Hrun) as [Hne _].
  cbn [IS_ID] in Hne.
  rewrite (install_explicit _ _ _ None (local w)) in Hrun; [|done..|].
  2:{ rewrite fs_lookup. cbn [local announced IS_ID]. fold r d.
      by rewrite Hnone. }
  cbn [IS_ID IS_Version] in Hrun.
  apply (install_version_fs_returned _ _ _ m r1) in Hrun
    as (d3 & w4 & -> & Hfiles & ->); [|done|done].
  unfold looked_up, announced in Hfiles.
  cbn [local remote calls logged] in Hfiles. fold r d in Hfiles.
  destruct (downloads_fs_frame _ _ _ _ _ _ Hfiles) as [Hrepo Hframe].
  apply downloads_fs in Hfiles as (_ & _ & Hd4 & _).
  cbn [local remote calls logged fs.repo fs.files] in *.
  rewrite Uninstall_one. cbv zeta.
  unfold Delete; simpl. unfold fs.writing. cbn [local fs.repo fs.files].
  rewrite Hrepo, Hid.
  set (d' := <[fs.manifestPath r id := yaml.WriteManifest m]>
               (fs.files (local w4))).
  assert (fs.GetInstalledManifest r id d' = Ok (Some m)) as Hinstalled.
  { subst d'. rewrite <-Hid at 1 2. by apply lookup_written_manifest. }
  destruct (Delete_succeeds r id d' m) as [d'' Hdel]; [done..| |].
  { apply Forall_forall. intros p Hp. subst d'.
    rewrite lookup_insert_ne by by intros <-.
    apply Hd4. by left. }
  rewrite Hdel. cbn [fst snd]. eexists. split_and!; [done..|].
  cbn [local fs.files].
  destruct (Delete_ok_inv _ _ _ _ _ Hinstalled Hdel) as (_ & _ & _ & Hd'').
  apply map_eq. intros p. rewrite Hd''. case_decide as Hp.
  - destruct Hp as [Hp| ->]; [by rewrite Hfree|].
    symmetry. by apply GetInstalledManifest_None_absent.
  - subst d'. rewrite lookup_insert_ne by naive_solver.
    apply Hframe. naive_solver.
Qed.

(** X8: a manifest file that does not decode is an error, not "not
    installed": the lookup fails, [Install] of the id fails before any call
    to the source, [Uninstall] fails, and the store is left as it is. *)
Theorem undecodable_manifest_blocks w (id : string) (f : bytes) :
  let r := fs.repo (local w) in
  let d := fs.files (local w) in
  id ≠ "" →
  d !! fs.manifestPath r id = Some f →
  yaml.decode_Manifest f = None →
  fs.GetInstalledManifest r id d = Err yaml.decode_error
  ∧ (∀ version : string,
       Install [mkInstallSpec id version] w =
       (Failed (Errorf "installing pak %s@%s: %w" [id; version]
                  (Errorf "getting local pak spec: %w" [] yaml.decode_error)),
        mkWorld (local w) (remote w)
          (calls w ++ [CallGetInstalledManifest id])
          (logged w ++ [Infof "Installing %s@%s" [id; version]])))
  ∧ Uninstall [id] w =
    (Failed (Errorf "uninstalling pak %s: %w" [id]
               (Errorf "deleting local pak: %w" []
                  (Errorf "failed to get manifest: %w" [] yaml.decode_error))),
     mkWorld (local w) (remote w) (calls w ++ [CallDelete id])
       (logged w ++ [Infof "Uninstalling %s" [id]])).
Proof.
  intros r d Hid Hf Hdecode.
  assert (fs.GetInstalledManifest r id d = Err yaml.decode_error) as Hl.
  { unfold fs.GetInstalledManifest, fs.getManifest, os.Open.
    rewrite Hf. unfold yaml.ReadManifest. by rewrite Hdecode. }
  split_and!; [done| |].
  - intros version. rewrite Install_one.
    apply wrapping_failed. unfold install. cbn [IS_ID].
    rewrite decide_False by done. rewrite run_bind.
    unfold wrapping, on_local. rewrite fs_lookup.
    cbn [local remote calls logged announced]. fold r d. by rewrite Hl.
  - rewrite Uninstall_one. cbv zeta.
    unfold Delete; simpl. unfold fs.writing, fs.Delete. fold r d.
    rewrite Hl. cbn [fst snd]. by destruct (local w).
Qed.

End install_fs_more.

(** ** [ListInstalled] on a [fs] store, and upgrading everything *)
Section fs_list.
Import pak.
Context `{!yaml.Codec}.

Implicit Types (r : fs.Repository) (d : os.disk).

Lemma elem_of_walked r d (path : string) (f : bytes) :
  (path, f) ∈ fs.walked r d ↔
  d !! path = Some f ∧ is_Some (fs.below (fs.BaseDir r) path).
Proof.
  unfold fs.walked. rewrite list_elem_of_fmap. split.
  - intros ([els [p f']] & Heq & Hin). cbn [snd] in Heq.
    injection Heq as -> ->. rewrite merge_sort_Permutation in Hin.
    apply list_elem_of_omap in Hin as ([p' f''] & Hkv & Hb).
    apply elem_of_map_to_list in Hkv. cbn [fst snd] in *.
    destruct (fs.below (fs.BaseDir r) p') as [els'|] eqn:Hbelow; [|done].
    injection Hb as <- <- <-. eauto.
  - intros [Hf [els Hels]]. exists (els, (path, f)). split; [done|].
    rewrite merge_sort_Permutation. apply list_elem_of_omap.
    exists (path, f). split; [by apply elem_of_map_to_list|].
    cbn [fst]. by rewrite Hels.
Qed.

Lemma NoDup_walked r d : NoDup (fs.walked r d).*1.
Proof.
  unfold fs.walked.
  assert (∀ l : list (string * bytes),
            NoDup l.*1 →
            NoDup (snd <$> omap (fun kv => (fun els => (els, kv))
                                   <$> fs.below (fs.BaseDir r) kv.1) l).*1
            ∧ ∀ p, p ∈ (snd <$> omap (fun kv => (fun els => (els, kv))
                                        <$> fs.below (fs.BaseDir r) kv.1) l).*1
                   → p ∈ l.*1) as Hsub.
  { induction l as [|[p f] l IH]; intros Hnd.
    { split; [constructor|done]. }
    rewrite fmap_cons in Hnd. apply NoDup_cons in Hnd as [Hnotin Hnd].
    destruct (IH Hnd) as [IHnd IHin]. simpl.
    destruct (fs.below (fs.BaseDir r) p); simpl.
    - split.
      + constructor; [|done]. intros Hin. by apply Hnotin, IHin.
      + intros p' [->|Hin]%elem_of_cons; [by left|]. right. by apply IHin.
    - split; [done|]. intros p' Hin. right. by apply IHin. }
  rewrite merge_sort_Permutation. apply Hsub, NoDup_fst_map_to_list.
Qed.

(** What one visit of the walk appends. *)
Lemma elem_of_visit r (ret : list Manifest) (kv : string * bytes) (m : Manifest) :
  m ∈ fs.visit r ret kv ↔
  m ∈ ret
  ∨ (filepath.Base kv.1 = fs.ManifestPath
     ∧ yaml.ReadManifest kv.2 = Ok m
     ∧ kv.1 = fs.manifestPath r (ID m)).
Proof.
  destruct kv as [path f]. unfold fs.visit. cbn [fst snd].
  destruct (decide (filepath.Base path ≠ fs.ManifestPath)) as [Hb|Hb].
  { naive_solver. }
  apply dec_stable in Hb.
  destruct (yaml.ReadManifest f) as [m'|e] eqn:Hread; [|naive_solver].
  destruct (decide (path ≠ fs.manifestPath r (ID m'))) as [Hp|Hp].
  { naive_solver. }
  apply dec_stable in Hp. rewrite elem_of_app, list_elem_of_singleton.
  naive_solver.
Qed.

Lemma elem_of_foldl_visit r (l : list (string * bytes)) (ret : list Manifest)
  (m : Manifest) :
  m ∈ foldl (fs.visit r) ret l ↔
  m ∈ ret
  ∨ ∃ kv, kv ∈ l ∧ filepath.Base kv.1 = fs.ManifestPath
          ∧ yaml.ReadManifest kv.2 = Ok m
          ∧ kv.1 = fs.manifestPath r (ID m).
Proof.
  revert ret. induction l as [|kv l IH]; intros ret; simpl.
  { split; [by left|]. intros [?|(kv & ?%elem_of_nil & _)]; done. }
  rewrite IH, elem_of_visit. split.
  - intros [[?|?]|(kv' & ? & ?)]; [by left| |].
    + right. exists kv. split; [by left|done].
    + right. exists kv'. split; [by right|done].
  - intros [?|(kv' & [->|?]%elem_of_cons & ?)]; [by left; left|by left; right|].
    right. by exists kv'.
Qed.

Lemma visit_cases r (ret : list Manifest) (kv : string * bytes) :
  fs.visit r ret kv = ret
  ∨ ∃ m, fs.visit r ret kv = ret ++ [m] ∧ kv.1 = fs.manifestPath r (ID m).
Proof.
  destruct kv as [path f]. unfold fs.visit. cbn [fst].
  case_decide; [by left|].
  destruct (yaml.ReadManifest f) as [m|e]; [|by left].
  case_decide as Hp; [by left|]. right. eauto.
Qed.

Lemma NoDup_foldl_visit r (l : list (string * bytes)) (ret : list Manifest) :
  NoDup l.*1 →
  NoDup (ID <$> ret) →
  (∀ m, m ∈ ret → fs.manifestPath r (ID m) ∉ l.*1) →
  NoDup (ID <$> foldl (fs.visit r) ret l).
Proof.
  revert ret. induction l as [|kv l IH]; intros ret Hnd Hret Hfresh; [done|].
  rewrite fmap_cons in Hnd. apply NoDup_cons in Hnd as [Hnotin Hnd].
  simpl. destruct (visit_cases r ret kv) as [->|(m & -> & Hpath)].
  - apply IH; [done..|]. intros m Hm Hin.
    apply (Hfresh m Hm). rewrite fmap_cons. by right.
  - apply IH; [done| |].
    + rewrite fmap_app. apply NoDup_app. split_and!; [done| |].
      * intros id Hid ->%list_elem_of_singleton.
        apply list_elem_of_fmap in Hid as (m' & Hid & Hm').
        apply (Hfresh m' Hm'). rewrite fmap_cons, <-Hid, <-Hpath. by left.
      * apply NoDup_singleton.
    + intros m' [Hm' | ->%list_elem_of_singleton]%elem_of_app Hin.
      * apply (Hfresh m' Hm'). rewrite fmap_cons. by right.
      * apply Hnotin. by rewrite Hpath.
Qed.

Lemma GetInstalledManifest_of_file r d (id : string) (f : bytes) (m : Manifest) :
  d !! fs.manifestPath r id = Some f → yaml.ReadManifest f = Ok m →
  fs.GetInstalledManifest r id d = Ok (Some m).
Proof.
  intros Hf Hread. unfold fs.GetInstalledManifest, fs.getManifest, os.Open.
  by rewrite Hf, Hread.
Qed.

Lemma ListInstalled_found r d (installed : list Manifest) (m : Manifest) :
  fs.ListInstalled r d = Ok installed → m ∈ installed →
  fs.GetInstalledManifest r (ID m) d = Ok (Some m).
Proof.
  unfold fs.ListInstalled. case_decide; [done|]. intros [= <-] Hm.
  apply elem_of_foldl_visit in Hm as [Hm|([p f] & Hin & _ & Hread & Hp)];
    [by apply elem_of_nil in Hm|].
  cbn [fst snd] in *. apply elem_of_walked in Hin as [Hf _].
  rewrite Hp in Hf. by apply (GetInstalledManifest_of_file r d (ID m) f).
Qed.

(** X9: what [ListInstalled] of a [fs] store lists.  With an empty
    [BaseDir] it fails.  Otherwise it returns manifests that the lookup
    finds under their own id, no two with the same id, and it returns
    every installed manifest that carries its id and whose file is a
    file named "manifest" below [BaseDir]. *)
Theorem ListInstalled_lists_installed r d :
  (fs.BaseDir r = "" → ∃ e : error, fs.ListInstalled r d = Err e)
  ∧ (fs.BaseDir r ≠ "" →
     ∃ installed : list Manifest,
       fs.ListInstalled r d = Ok installed
       ∧ (∀ m : Manifest,
            m ∈ installed →
            fs.GetInstalledManifest r (ID m) d = Ok (Some m))
       ∧ NoDup (ID <$> installed)
       ∧ (∀ (id : string) (m : Manifest),
            fs.GetInstalledManifest r id d = Ok (Some m) →
            ID m = id →
            is_Some (fs.below (fs.BaseDir r) (fs.manifestPath r id)) →
            filepath.Base (fs.manifestPath r id) = fs.ManifestPath →
            m ∈ installed)).
Proof.
  split.
  - intros Hbase. unfold fs.ListInstalled. rewrite decide_True by done. eauto.
  - intros Hbase. eexists. split_and!.
    + unfold fs.ListInstalled. by rewrite decide_False by done.
    + intros m Hm.
      apply (ListInstalled_found r d
               (foldl (fs.visit r) [] (fs.walked r d)) m); [|done].
      unfold fs.ListInstalled. by rewrite decide_False by done.
    + apply NoDup_foldl_visit; [apply NoDup_walked|constructor|].
      by intros m ?%elem_of_nil.
    + intros id m Hm Hid Hbelow Hname.
      apply GetInstalledManifest_Some_present in Hm as (f & Hf & Hread).
      apply elem_of_foldl_visit. right. exists (fs.manifestPath r id, f).
      cbn [fst snd]. split_and!; [|done|done|by rewrite Hid].
      by apply elem_of_walked.
Qed.

End fs_list.

Section upgrade_all.
Import pak.
Context `{!yaml.Codec} `{!os.Faults} {R : Type} `{!SourceRepository R}.

Implicit Types w : world fs.store R.

Lemma upgrade_up_to_date_loop (catalog : SpecIndex) (l : list Manifest) w :
  serves_catalog catalog (remote w) →
  Forall (fun m =>
            ID m ≠ ""
            ∧ fs.GetInstalledManifest (fs.repo (local w)) (ID m)
                (fs.files (local w)) = Ok (Some m)
            ∧ ∃ s, catalog !! ID m = Some s ∧ CurrentVersion s = Version m) l →
  for_range ((fun pak => mkInstallSpec (ID pak) "") <$> l)
    (fun spec => wrapping "upgrading pak %s: %w" [IS_ID spec]
                   (install spec true)) w =
  (Returned tt,
   mkWorld (local w) (remote w)
     (calls w ++ flat_map (fun m => [CallGetInstalledManifest (ID m);
                                     CallGetSpec (ID m)]) l)
     (logged w ++ ((fun m => Debugf "pak %s@%s already installed"
                               [ID m; Version m]) <$> l))).
Proof.
  intros Hc Hall. revert w Hc Hall.
  induction l as [|m l IH]; intros w Hc Hall.
  { simpl. unfold ret. rewrite !app_nil_r. by destruct w. }
  apply Forall_cons in Hall as [(Hid & Hm & s & Hs & Hcv) Hall].
  rewrite fmap_cons, for_range_cons, run_bind.
  rewrite (proj2 (wrapping_returned _ _ _ _ tt
    (mkWorld (local w) (remote w)
       (calls w ++ [CallGetInstalledManifest (ID m); CallGetSpec (ID m)])
       (logged w ++ [Debugf "pak %s@%s already installed" [ID m; Version m]])))).
  - rewrite IH; [|done|done]. cbn [local remote calls logged].
    simpl. by rewrite <-!app_assoc.
  - rewrite (install_latest _ _ _ (Some m) (local w) s (remote w));
      [|done|done| |].
    + cbn [IS_ID]. rewrite Hcv, install_version_same. reflexivity.
    + cbn [IS_ID]. rewrite fs_lookup. by rewrite Hm.
    + cbn [IS_ID]. rewrite Hc. by rewrite Hs.
Qed.

(** X10: upgrading everything when everything is up to date.  When
    [ListInstalled] of the [fs] store succeeds, every manifest that it
    lists has a non-empty ID, and the source serves a catalog in which
    the current version of each of them is the installed one, [Upgrade]
    without specs returns nil: it lists the installed paks, looks each one
    up and resolves its version, and writes and deletes nothing. *)
Theorem Upgrade_all_up_to_date_is_noop (catalog : SpecIndex)
  (installed : list Manifest) w :
  fs.ListInstalled (fs.repo (local w)) (fs.files (local w)) = Ok installed →
  serves_catalog catalog (remote w) →
  Forall (fun m =>
            ID m ≠ ""
            ∧ ∃ s, catalog !! ID m = Some s ∧ CurrentVersion s = Version m)
         installed →
  Upgrade [] w =
  (Returned tt,
   mkWorld (local w) (remote w)
     (calls w ++ CallListInstalled
        :: flat_map (fun m => [CallGetInstalledManifest (ID m);
                               CallGetSpec (ID m)]) installed)
     (logged w ++ ((fun m => Debugf "pak %s@%s already installed"
                               [ID m; Version m]) <$> installed))).
Proof.
  intros Hlist Hc Hall. unfold Upgrade. rewrite run_bind.
  rewrite decide_True by done. rewrite run_bind.
  unfold wrapping at 1. unfold on_local.
  unfold ListInstalled; simpl. unfold fs.reading. rewrite Hlist.
  unfold mret, M_ret, ret. simpl app.
  rewrite upgrade_up_to_date_loop with (catalog := catalog).
  - cbn [local remote calls logged]. by rewrite <-app_assoc.
  - done.
  - cbn [local]. apply Forall_forall. intros m Hm.
    rewrite Forall_forall in Hall. destruct (Hall m Hm) as [Hid Hs].
    split_and!; [done| |done].
    by apply (ListInstalled_found _ _ installed).
Qed.

End upgrade_all.

(** ** The [memory] repository *)
Section memory_repository.
Import pak.

Implicit Types r : memory.Repository.

(** X13: [Write] reads the reader to its end.  When the reading fails,
    [Write] returns the reader's error and the repository is as it was;
    otherwise it returns nil, [GetFile] of the same id, version and file
    name then hands back a reader of the bytes that were read, and every
    other file, the index and the manifests are as they were. *)
Theorem memory_Write_then_GetFile r (id version file : string)
  (data : io.Reader) :
  match io.failure data with
  | Some err => memory.Write id version file data r = (Err err, r)
  | None =>
      ∃ r' : memory.Repository,
        memory.Write id version file data r = (Ok tt, r')
        ∧ memory.GetFile id version file r'
          = (Ok (Some (bytes_NewReader (io.content data))), r')
        ∧ (∀ id' version' file' : string,
             (id', version', file') ≠ (id, version, file) →
             (memory.GetFile id' version' file' r').1
             = (memory.GetFile id' version' file' r).1)
        ∧ memory.Index r' = memory.Index r
        ∧ memory.Manifests r' = memory.Manifests r
  end.
Proof.
  unfold memory.Write. destruct (io.failure data) as [err|]; [done|].
  eexists. split; [done|]. unfold memory.GetFile. cbn [memory.Files].
  split_and!.
  - by rewrite lookup_insert_eq.
  - intros id' version' file' Hne. rewrite lookup_insert_ne.
    + by destruct (memory.Files r !! _).
    + intros [= -> -> ->]. by apply Hne.
  - done.
  - done.
Qed.

Lemma lookup_filter_kept {K A} `{Countable K} (P : K * A → Prop)
  `{!∀ x, Decision (P x)} (m : gmap K A) (i : K) :
  (∀ x, P (i, x)) → filter P m !! i = m !! i.
Proof.
  intros HP. apply option_eq. intros x. rewrite map_lookup_filter_Some.
  naive_solver.
Qed.

Lemma lookup_filter_dropped {K A} `{Countable K} (P : K * A → Prop)
  `{!∀ x, Decision (P x)} (m : gmap K A) (i : K) :
  (∀ x, ¬ P (i, x)) → filter P m !! i = None.
Proof.
  intros HP. apply eq_None_not_Some. intros [x Hx].
  apply map_lookup_filter_Some in Hx as [_ Hx]. by apply (HP x).
Qed.

(** X12: [Delete] removes the catalog entry of the id and the manifests
    and files of all its versions, and nothing of any other id; it is
    idempotent. *)
Theorem memory_Delete_removes_id r (id : string) :
  let r' := (memory.Delete id r).2 in
  (memory.Delete id r).1 = Ok tt
  ∧ memory.GetSpec id r' = (Ok None, r')
  ∧ (∀ version : string, memory.GetManifest id version r' = (Ok None, r'))
  ∧ (∀ version file : string,
       memory.GetFile id version file r' = (Ok None, r'))
  ∧ (∀ id' : string,
       id' ≠ id →
       (memory.GetSpec id' r').1 = (memory.GetSpec id' r).1
       ∧ (∀ version : string,
            (memory.GetManifest id' version r').1
            = (memory.GetManifest id' version r).1)
       ∧ (∀ version file : string,
            (memory.GetFile id' version file r').1
            = (memory.GetFile id' version file r).1))
  ∧ (memory.Delete id r').2 = r'.
Proof.
  cbv zeta. unfold memory.Delete, memory.GetSpec, memory.GetManifest,
    memory.GetFile.
  cbn [fst snd memory.Index memory.Manifests memory.Files].
  split_and!.
  - done.
  - by rewrite lookup_delete_eq.
  - intros version. by rewrite lookup_filter_dropped by (intros x; simpl; tauto).
  - intros version file.
    by rewrite lookup_filter_dropped by (intros x; simpl; tauto).
  - intros id' Hne. split_and!.
    + rewrite lookup_delete_ne by done. by destruct (memory.Index r !! id').
    + intros version.
      rewrite lookup_filter_kept by (intros x; simpl; done).
      by destruct (memory.Manifests r !! _).
    + intros version file.
      rewrite lookup_filter_kept by (intros x; simpl; done).
      by destruct (memory.Files r !! _).
  - f_equal.
    + apply map_eq. intros i. destruct (decide (i = id)) as [->|Hne].
      * by rewrite !lookup_delete_eq.
      * by rewrite !lookup_delete_ne.
    + apply map_eq. intros i. apply option_eq. intros x.
      rewrite !map_lookup_filter_Some. naive_solver.
    + apply map_eq. intros i. apply option_eq. intros x.
      rewrite !map_lookup_filter_Some. naive_solver.
Qed.

End memory_repository.

(** ** [GetManifest] of the [http] repository *)
Section http_manifest.
Import pak.
Context {E : Type} `{!http.Net E} `{!yaml.Codec}.

(** X14: the [http] repository checks the version of the manifest it
    fetched.  A manifest it returns for a non-empty version carries that
    version; when it answers nil without error, a version was asked for
    and the manifest at that URL carries another one. *)
Theorem http_GetManifest_checks_version (id version : string)
  (c c' : http.conn E) (res : option Manifest) :
  http.GetManifest id version c = (Ok res, c') →
  match res with
  | Some m => version = "" ∨ Version m = version
  | None => version ≠ ""
  end
  ∧ ∃ (f : bytes) (m : Manifest),
      yaml.decode_Manifest f = Some m
      ∧ (res = Some m ∨ (res = None ∧ Version m ≠ version)).
Proof.
  unfold http.GetManifest.
  destruct (http.getFile _ c) as [[f|e] c1]; [|done].
  unfold yaml.ReadManifest.
  destruct (yaml.decode_Manifest f) as [m|] eqn:Hdecode; [|done].
  case_decide as Hv.
  - intros [= <- <-]. split; [by destruct Hv|].
    exists f, m. split; [done|]. right. by destruct Hv.
  - intros [= <- <-]. split.
    + destruct (decide (version = "")); [by left|right].
      destruct (decide (Version m = version)); [done|]. naive_solver.
    + exists f, m. split; [done|by left].
Qed.

End http_manifest.

(** ** A [fs] repository as the source *)
Section fs_source.
Import pak.
Context `{!yaml.Codec} {L : Type} `{!WritableRepository L}.

Implicit Types w : world L fs.store.


End fs_source.

(** ** The [http] repository: answers come from the cache *)
Section http_getspec.
Import pak.
Context {E : Type} `{!http.Net E} `{!yaml.Codec}.

Implicit Types c : http.conn E.

Lemma getIndex_ok_cached c (index : SpecIndex) c' :
  http.getIndex c = (Ok index, c') →
  http.cachedIndex (http.repo c') = Some index.
Proof.
  assert (∀ c0 : http.conn E,
            http.cachedIndex (http.repo c0) = None →
            http.getIndex c0 = (Ok index, c') →
            http.cachedIndex (http.repo c') = Some index) as Hempty.
  { intros c0 Hc. unfold http.getIndex.
    rewrite (checkCacheExpired_empty c0 Hc), Hc.
    destruct (http.url_JoinPath _ _) as [path|e0]; [|done].
    destruct (http.getFile _ c0) as [[f|e0] c1]; [|done].
    destruct (yaml.ReadSpecIndex f) as [index'|e0]; [|done].
    destruct (http.time_Now (http.env c1)) as [now e2].
    by intros [= -> <-]. }
  destruct (http.cachedIndex (http.repo c)) as [index0|] eqn:Hc;
    [|by apply Hempty].
  destruct (http.time_Now (http.env c)) as [now e1] eqn:Hnow.
  unfold http.getIndex at 1.
  rewrite (checkCacheExpired_cached c index0 now e1) by done.
  destruct (_ >? _).
  - intros Hrun.
    apply (Hempty (http.mkConn
                     (with_cache (http.repo c) None
                        (http.cacheTime (http.repo c)))
                     e1 (http.requested c))); [done|].
    unfold http.getIndex. by rewrite checkCacheExpired_empty.
  - cbn [http.repo]. rewrite Hc. by intros [= <- <-].
Qed.

(** X17: a successful [GetSpec] answers from the snapshot that is in the
    cache when it returns; as long as the time to live has not passed on
    the next reading of the clock, a further [GetSpec] answers from the
    same snapshot and sends no request. *)
Theorem http_GetSpec_serves_cached_index c (id : string) (s : option Spec) c1 :
  http.GetSpec id c = (Ok s, c1) →
  ∃ index : SpecIndex,
    http.cachedIndex (http.repo c1) = Some index
    ∧ s = index !! id
    ∧ ∀ (id' : string) (now : Z) (e2 : E),
        http.time_Now (http.env c1) = (now, e2) →
        now - http.cacheTime (http.repo c1) ≤ http.CacheTTL (http.repo c1) →
        http.GetSpec id' c1 =
        (Ok (index !! id'), http.mkConn (http.repo c1) e2 (http.requested c1)).
Proof.
  unfold http.GetSpec at 1.
  destruct (http.getIndex c) as [[index|e] c'] eqn:Hrun; [|done].
  intros [= <- <-]. exists index.
  pose proof (getIndex_ok_cached _ _ _ Hrun) as Hc.
  split_and!; [done..|].
  intros id' now e2 Hnow Hvalid. unfold http.GetSpec, http.getIndex.
  rewrite (checkCacheExpired_cached c' index now e2) by done.
  destruct (_ >? _) eqn:Hgt; [apply Z.gtb_gt in Hgt; lia|].
  cbn [http.repo]. by rewrite Hc.
Qed.

End http_getspec.

(** ** A [fs] repository as the source of a [fs] store *)
Section fs_mirror.
Import pak.
Context `{!yaml.Codec} `{!os.Faults}.

Implicit Types w : world fs.store fs.store.

Lemma fs_GetFile_inv (id version file : string) (src src' : fs.store)
  (data : io.Reader) :
  GetFile id version file src = (Ok (Some data), src') →
  src' = src
  ∧ fs.files src !! fs.remoteFilePath (fs.repo src) id version file
    = Some (io.content data).
Proof.
  unfold GetFile; simpl. unfold fs.reading, fs.GetFile, os.Open.
  destruct (fs.files src !! _) as [f|]; [|done]. by intros [= <- <-].
Qed.

Lemma downloads_fs_source_contents (id version : string) (files : list string)
  w w' :
  downloads id version files w = (Returned tt, w') →
  NoDup (fs.filePath (fs.repo (local w)) id <$> files) →
  remote w' = remote w
  ∧ ∀ file : string,
      file ∈ files →
      is_Some (fs.files (local w') !! fs.filePath (fs.repo (local w)) id file)
      ∧ fs.files (local w') !! fs.filePath (fs.repo (local w)) id file
        = fs.files (remote w)
            !! fs.remoteFilePath (fs.repo (remote w)) id version file.
Proof.
  revert w. induction files as [|file files IH]; intros w Hrun Hnd.
  { injection Hrun as <-. split; [done|]. by intros file ?%elem_of_nil. }
  unfold downloads in Hrun. rewrite for_range_cons in Hrun.
  apply bind_returned_inv in Hrun as ([] & w1 & Hfile & Hrest).
  apply wrapping_returned, downloadFile_returned_inv in Hfile
    as (data & r' & l' & Hget & Hwrite & ->).
  apply fs_GetFile_inv in Hget as [-> Hdata].
  apply Write_returned_fs in Hwrite as [_ ->].
  rewrite fmap_cons in Hnd. apply NoDup_cons in Hnd as [Hnotin Hnd].
  pose proof (downloads_fs_frame _ _ _ _ _ _ Hrest) as [_ Hframe].
  destruct (IH _ Hrest) as [Hremote Hfiles]; [done|].
  cbn [local remote calls logged fs.repo fs.files] in *.
  split; [done|]. intros f [->|Hf]%elem_of_cons.
  - rewrite Hframe by done. rewrite lookup_insert_eq, Hdata. eauto.
  - by apply Hfiles.
Qed.


(** X18: a [fs] repository as a source answers [GetSpec] and [List] from
    its index file.  When [List] succeeds, the index it returns is the
    decoding of [BaseDir/index.yml], [GetSpec] of an id is the entry of
    that index (nil for an id without entry) and changes nothing; when
    [List] fails, every [GetSpec] fails with the same error under "failed
    to get index". *)
Theorem fs_source_serves_index (s : fs.store) :
  match fs.List (fs.repo s) (fs.files s) with
  | Ok index =>
      List s = (Ok index, s)
      ∧ serves_catalog index s
      ∧ ∃ f : bytes,
          fs.files s !! filepath.Join [fs.BaseDir (fs.repo s); fs.IndexPath]
          = Some f
          ∧ yaml.decode_SpecIndex f = Some index
  | Err e =>
      List s = (Err e, s)
      ∧ ∀ id : string,
          GetSpec id s = (Err (Errorf "failed to get index: %w" [] e), s)
  end.
Proof.
  unfold List, GetSpec, serves_catalog; simpl.
  unfold fs.reading, fs.GetSpec, fs.List.
  destruct (fs.getIndex (fs.repo s) (fs.files s)) as [index|e] eqn:Hindex.
  - split_and!; [done..|].
    unfold fs.getIndex, os.Open in Hindex. cbv zeta in Hindex.
    destruct (fs.files s !! _) as [f|]; [|done]. exists f. split; [done|].
    unfold yaml.ReadSpecIndex in Hindex.
    destruct (yaml.decode_SpecIndex f); [|done]. by injection Hindex as ->.
  - done.
Qed.

End fs_mirror.

(** ** The properties above on the examples *)
Import pak example.

Lemma Upgrade_as_Install_when_installed_witness :
  let spec := mkInstallSpec "widget" "" in
  fs.files (local (Upgrade [spec] (start widget1_store)).2)
  = fs.files (local (Install [spec] (start widget1_store)).2)
  ∧ (Upgrade [spec] (start widget1_store)).1 = Returned tt.
Proof.
  intros spec.
  destruct (Upgrade_as_Install_when_installed spec widget1 widget1_store
              (start widget1_store)) as (Hlocal & _ & _ & Hnil & _).
  - vm_compute. reflexivity.
  - split; [by rewrite Hlocal|]. apply Hnil. vm_compute. reflexivity.
Defined.


Lemma Install_fresh_on_fs_witness :
  let w' := (Install [mkInstallSpec "gadget" "0.1.0"] (start empty_store)).2 in
  fs.GetInstalledManifest local_repo "gadget" (fs.files (local w'))
  = Ok (Some gadget1)
  ∧ is_Some (fs.files (local w') !! "/paks/gadget/gadget.js").
Proof.
  intros w'.
  destruct (Install_fresh_on_fs (start empty_store) w' "gadget" "0.1.0"
              gadget1 source) as (_ & Hfiles & _ & Hmanifest & _).
  - done.
  - vm_compute. reflexivity.
  - vm_compute. reflexivity.
  - vm_compute. reflexivity.
  - vm_compute. reflexivity.
  - split; [exact Hmanifest|]. apply Hfiles. left.
    apply (bool_decide_unpack _). vm_compute. reflexivity.
Defined.

Lemma Install_copies_source_files_witness :
  let w' := (Install [mkInstallSpec "widget" "2.0.0"] (start widget1_store)).2 in
  fs.files (local w') !! "/paks/widget/new.css" = Some "n2"
  ∧ fs.files (local w') !! "/paks/widget/widget.js" = Some "w2".
Proof.
  intros w'.
  destruct (Install_copies_source_files (start widget1_store) w' "widget"
              "2.0.0" (Some widget1) widget2) as [_ Hfiles].
  - done.
  - vm_compute. reflexivity.
  - intros e [= <-]. done.
  - vm_compute. reflexivity.
  - apply (bool_decide_unpack _). vm_compute. reflexivity.
  - apply (bool_decide_unpack _). vm_compute. reflexivity.
  - vm_compute. reflexivity.
  - split.
    + destruct (Hfiles "new.css") as [_ Hcopy].
      { apply (bool_decide_unpack _). vm_compute. reflexivity. }
      etrans; [exact Hcopy|]. vm_compute. reflexivity.
    + destruct (Hfiles "widget.js") as [_ Hcopy].
      { apply (bool_decide_unpack _). vm_compute. reflexivity. }
      etrans; [exact Hcopy|]. vm_compute. reflexivity.
Defined.


Lemma Uninstall_stops_at_first_failure_witness :
  let w := start garbled_store in
  Uninstall ["gadget"; "widget"; "orphan"] w =
  (Failed (Errorf "uninstalling pak %s: %w" ["widget"]
             (Errorf "deleting local pak: %w" []
                (Errorf "failed to get manifest: %w" [] yaml.decode_error))),
   mkWorld garbled_store source [CallDelete "gadget"; CallDelete "widget"]
     [Infof "Uninstalling %s" ["gadget"]; Infof "Uninstalling %s" ["widget"]]).
Proof.
  intros w.
  destruct (Uninstall_stops_at_first_failure ["gadget"; "widget"; "orphan"] w)
    as (_ & Hfails & _).
  rewrite (Hfails ["gadget"] "widget" ["orphan"] garbled_store garbled_store
             (Errorf "failed to get manifest: %w" [] yaml.decode_error)).
  - reflexivity.
  - reflexivity.
  - exists garbled_store. split; [vm_compute; reflexivity|reflexivity].
  - vm_compute. reflexivity.
Defined.

Lemma Install_again_is_noop_witness :
  let spec := mkInstallSpec "widget" "2.0.0" in
  let w' := (Install [spec] (start widget1_store)).2 in
  (Install [spec] w').1 = Returned tt
  ∧ local (Install [spec] w').2 = local w'
  ∧ calls (Install [spec] w').2
    = calls w' ++ [CallGetInstalledManifest "widget"].
Proof.
  intros spec w'.
  rewrite (Install_again_is_noop (start widget1_store) w' "widget" "2.0.0"
             widget2 source).
  - done.
  - done.
  - vm_compute. reflexivity.
  - reflexivity.
  - reflexivity.
  - vm_compute. reflexivity.
  - vm_compute. reflexivity.
Defined.

Lemma Install_then_Uninstall_restores_witness :
  let w' := (Install [mkInstallSpec "gadget" "0.1.0"] (start empty_store)).2 in
  ∃ w'', Uninstall ["gadget"] w' = (Returned tt, w'')
         ∧ fs.repo (local w'') = local_repo ∧ fs.files (local w'') = ∅.
Proof.
  intros w'.
  apply (Install_then_Uninstall_restores (start empty_store) w' "gadget"
           "0.1.0" gadget1 source).
  - done.
  - vm_compute. reflexivity.
  - vm_compute. reflexivity.
  - reflexivity.
  - vm_compute. reflexivity.
  - apply (bool_decide_unpack _). vm_compute. reflexivity.
  - apply (bool_decide_unpack _). vm_compute. reflexivity.
  - intros p _. apply lookup_empty.
  - vm_compute. reflexivity.
Defined.

Lemma undecodable_manifest_blocks_witness :
  fs.GetInstalledManifest local_repo "widget" (fs.files garbled_store)
  = Err yaml.decode_error
  ∧ local (Install [mkInstallSpec "widget" ""] (start garbled_store)).2
    = garbled_store
  ∧ local (Uninstall ["widget"] (start garbled_store)).2 = garbled_store.
Proof.
  destruct (undecodable_manifest_blocks (start garbled_store) "widget"
              "not yaml") as (Hlookup & Hinstall & Huninstall).
  - done.
  - vm_compute. reflexivity.
  - vm_compute. reflexivity.
  - split_and!; [exact Hlookup|by rewrite Hinstall|by rewrite Huninstall].
Defined.

Lemma ListInstalled_lists_installed_witness :
  (∃ e, fs.ListInstalled {| fs.BaseDir := "" |} (fs.files widget1_store) = Err e)
  ∧ ∃ installed,
      fs.ListInstalled local_repo (fs.files widget1_store) = Ok installed
      ∧ widget1 ∈ installed.
Proof.
  split.
  - by apply (ListInstalled_lists_installed {| fs.BaseDir := "" |}).
  - destruct (ListInstalled_lists_installed local_repo (fs.files widget1_store))
      as [_ Hlisted].
    destruct Hlisted as (installed & Hok & _ & _ & Hcomplete); [done|].
    exists installed. split; [done|].
    apply (Hcomplete "widget" widget1).
    + vm_compute. reflexivity.
    + reflexivity.
    + vm_compute. eauto.
    + vm_compute. reflexivity.
Defined.

Lemma Upgrade_all_up_to_date_is_noop_witness :
  (Upgrade [] (start widget2_store)).1 = Returned tt
  ∧ local (Upgrade [] (start widget2_store)).2 = widget2_store
  ∧ calls (Upgrade [] (start widget2_store)).2
    = [CallListInstalled; CallGetInstalledManifest "widget";
       CallGetSpec "widget"].
Proof.
  rewrite (Upgrade_all_up_to_date_is_noop catalog [widget2]
             (start widget2_store)).
  - done.
  - vm_compute. reflexivity.
  - apply memory_serves_catalog.
  - constructor; [|constructor]. split; [done|].
    exists widget_spec. split; [vm_compute; reflexivity|reflexivity].
Defined.

Lemma http_GetManifest_checks_version_witness :
  (http.GetManifest "widget" "1.0.0" manifest_conn).1 = Ok None
  ∧ (http.GetManifest "widget" "2.0.0" manifest_conn).1 = Ok (Some widget2)
  ∧ "1.0.0" ≠ "".
Proof.
  assert ((http.GetManifest "widget" "1.0.0" manifest_conn).1 = Ok None)
    as Hnone by (vm_compute; reflexivity).
  split_and!; [done|vm_compute; reflexivity|].
  destruct (http.GetManifest "widget" "1.0.0" manifest_conn) as [res c'] eqn:Hrun.
  cbn [fst] in Hnone. subst res.
  by destruct (http_GetManifest_checks_version _ _ _ _ _ Hrun) as [Hv _].
Defined.


Lemma http_GetSpec_serves_cached_index_witness :
  let c1 := (http.GetSpec "widget" catalog_conn).2 in
  ∃ index : SpecIndex,
    http.cachedIndex (http.repo c1) = Some index
    ∧ (http.GetSpec "gadget" c1).1 = Ok (index !! "gadget")
    ∧ http.requested (http.GetSpec "gadget" c1).2 = http.requested c1.
Proof.
  intros c1.
  destruct (http_GetSpec_serves_cached_index catalog_conn "widget"
              (Some widget_spec) c1) as (index & Hc & _ & Hnext).
  - vm_compute. reflexivity.
  - exists index. split; [exact Hc|].
    rewrite (Hnext "gadget" 1 (mkScript 1 [])).
    + split; reflexivity.
    + vm_compute. reflexivity.
    + vm_compute. discriminate.
Defined.


